(** * Inotify wrapper for recursive directory watches: a shallow embedding

    This development embeds [src/inotify.hpp] (class [Inotify<Log>]) in
    Rocq and checks the statements of the specification against it.

    - The object state ([mask], [watches], [buffer], [bytes_in_buffer],
      [bytes_handled]) is a record threaded through every member function.
    - The kernel and the file system are an oracle record [OS]; every call
      made to them, and every call of the logger, is appended to a trace
      kept next to the object state, so that "what was asked of the kernel"
      is observable.
    - [buffer] is the raw [char] region of the source: events are read from
      it and written to it field by field, at byte offsets, so that a record
      written by [add_watch] over a record that [read] still refers to is
      seen by [read], as in the source.
    - C++ exceptions are a [Throw] result; the two recursions of the source
      (the descent in [add_watch], the retry in [read]) take fuel.
    - The source is read as compiled without DEBUG: its [printf] is empty. *)

From stdpp Require Import gmap strings list pretty.
From Stdlib Require Import ZArith Ascii String Lia.

Local Open Scope string_scope.
Local Open Scope list_scope.
Local Open Scope Z_scope.

(** ** Machine integers *)

(** Two's complement narrowing to [int] (32 bits) and the conversions to
    the unsigned types of the source ([uint32_t], [size_t] of 64 bits). *)
Definition to_int (z : Z) : Z := (z + 2 ^ 31) mod 2 ^ 32 - 2 ^ 31.
Definition to_uint32 (z : Z) : Z := z mod 2 ^ 32.
Definition to_size_t (z : Z) : Z := z mod 2 ^ 64.

(** [a & b] as a C condition. *)
Definition has_bits (a b : Z) : bool := negb (Z.land a b =? 0).

(** ** Constants of <sys/inotify.h> and <errno.h> (Linux) *)

Definition IN_MODIFY : Z := 0x2.
Definition IN_MOVED_TO : Z := 0x80.
Definition IN_CREATE : Z := 0x100.
Definition IN_DELETE_SELF : Z := 0x400.
Definition IN_MOVE_SELF : Z := 0x800.
Definition IN_IGNORED : Z := 0x8000.
Definition IN_ONLYDIR : Z := 0x1000000.
Definition IN_ISDIR : Z := 0x40000000.
Definition IN_ALL_EVENTS : Z := 0xfff.
Definition EIO : Z := 5.
Definition EACCES : Z := 13.
Definition EINVAL : Z := 22.

(** [sizeof(inotify_event)]: four 32-bit fields, the name follows. *)
Definition sizeof_event : Z := 16.
(** [sizeof(buffer)]: [(4*1024 + 16 - 1) / 16] events of 16 bytes. *)
Definition sizeof_buffer : Z := (4 * 1024 + sizeof_event - 1) / sizeof_event * sizeof_event.

(** ** Strings *)

(** [std::string::back()]. On the empty string the source reads the byte
    before the characters; it is taken to be NUL here, so that the empty
    path counts as not ending with a slash. *)
Fixpoint back (s : string) : ascii :=
  match s with
  | EmptyString => "000"%char
  | String c EmptyString => c
  | String _ r => back r
  end.

Definition ends_with_slash (s : string) : bool := Ascii.eqb (back s) "/"%char.

(** [std::mismatch(path0.begin(), path0.end(), path.begin())]: the two
    iterators are represented by the suffixes they point at.  When [path]
    is the shorter one the source compares with its terminating NUL, which
    differs from every character of a path. *)
Fixpoint mismatch (path0 path : string) : string * string :=
  match path0, path with
  | String c0 r0, String c r =>
      if Ascii.eqb c0 c then mismatch r0 r else (path0, path)
  | _, _ => (path0, path)
  end.

(** [it.second.path.compare(0, watch.path.size(), watch.path) == 0]. *)
Definition starts_with (prefix s : string) : bool := String.prefix prefix s.

(** [operator/] of the source, that is [fs::path::operator/=] of libstdc++'s
    <experimental/filesystem>: a separator is added unless the left side is
    empty or ends with one, or the right side is empty or starts with one. *)
Definition path_join (path1 path2 : string) : string :=
  match path1, path2 with
  | EmptyString, _ => path2
  | _, EmptyString => path1
  | _, String c _ =>
      if ends_with_slash path1 || Ascii.eqb c "/"%char
      then path1 +:+ path2
      else path1 +:+ "/" +:+ path2
  end.

(** ** The raw event buffer *)

Definition NUL : ascii := "000"%char.

Definition byte_val (c : ascii) : Z := Z.of_N (N_of_ascii c).
Definition byte_of (z : Z) : ascii := ascii_of_N (Z.to_N (z mod 256)).

(** Loads: a byte outside the region reads as zero. *)
Definition peek (buf : list ascii) (off : Z) : ascii :=
  if off <? 0 then NUL else nth (Z.to_nat off) buf NUL.
Definition load8 (buf : list ascii) (off : Z) : Z := byte_val (peek buf off).

(** Little-endian 32-bit fields, as on the Linux targets of inotify. *)
Definition load_u32 (buf : list ascii) (off : Z) : Z :=
  load8 buf off + 2 ^ 8 * load8 buf (off + 1)
  + 2 ^ 16 * load8 buf (off + 2) + 2 ^ 24 * load8 buf (off + 3).
Definition load_i32 (buf : list ascii) (off : Z) : Z := to_int (load_u32 buf off).

(** The C string starting at [off] ([event.name] used as [const char*]). *)
Fixpoint cstring (bytes : list ascii) : string :=
  match bytes with
  | [] => EmptyString
  | c :: r => if Ascii.eqb c NUL then EmptyString else String c (cstring r)
  end.
Definition load_cstring (buf : list ascii) (off : Z) : string :=
  if off <? 0 then EmptyString else cstring (drop (Z.to_nat off) buf).

(** Stores: a store outside the region is dropped. *)
Definition store8 (buf : list ascii) (off : Z) (c : ascii) : list ascii :=
  if off <? 0 then buf else <[Z.to_nat off := c]> buf.

Fixpoint store_bytes (buf : list ascii) (off : Z) (cs : list ascii) : list ascii :=
  match cs with
  | [] => buf
  | c :: cs' => store_bytes (store8 buf off c) (off + 1) cs'
  end.

Definition store_u32 (buf : list ascii) (off : Z) (v : Z) : list ascii :=
  store_bytes buf off
    [byte_of v; byte_of (v / 2 ^ 8); byte_of (v / 2 ^ 16); byte_of (v / 2 ^ 24)].

(** The fields of the [inotify_event] that lies at offset [off]. *)
Definition event_wd (buf : list ascii) (off : Z) : Z := load_i32 buf off.
Definition event_mask (buf : list ascii) (off : Z) : Z := load_u32 buf (off + 4).
Definition event_cookie (buf : list ascii) (off : Z) : Z := load_u32 buf (off + 8).
Definition event_len (buf : list ascii) (off : Z) : Z := load_u32 buf (off + 12).
Definition event_name (buf : list ascii) (off : Z) : string :=
  load_cstring buf (off + sizeof_event).

Definition chars (s : string) : list ascii := list_ascii_of_string s.

(** ** The kernel, the file system and the logger *)

(** [fs::file_type], as [fs::status] finds it.  Symbolic links are
    followed: a link to a directory is a directory, a link to a fifo is a
    fifo, a dangling link is [not_found], and [ft_symlink] is never what
    [fs::status] finds.  [ft_none errno] is [file_type::none]: the status
    could not be taken, stat() having failed with the error [errno] (other
    than "no such file", which gives [not_found]). *)
Inductive file_type :=
  | ft_none (errno : Z) | ft_not_found | ft_regular | ft_directory | ft_symlink
  | ft_block | ft_character | ft_fifo | ft_socket | ft_unknown.

(** An entry produced by [fs::directory_iterator]: the file name of the
    child and what [fs::status] finds of the child. *)
Record dirent := mk_dirent { d_name : string; d_type : file_type }.

(** [fs::is_directory(file_status)] and [fs::is_other(file_status)]: the
    latter holds of what exists and is neither a regular file, a directory
    nor a symlink. *)
Definition status_is_directory (t : file_type) : bool :=
  match t with ft_directory => true | _ => false end.
Definition status_is_other (t : file_type) : bool :=
  match t with
  | ft_none _ | ft_not_found | ft_regular | ft_directory | ft_symlink => false
  | ft_block | ft_character | ft_fifo | ft_socket | ft_unknown => true
  end.

Inductive poll_result := poll_timeout | poll_ready | poll_error (errno : Z).
Inductive usleep_result := usleep_ok | usleep_error (errno : Z).
Inductive read_result := read_data (data : list ascii) | read_error (errno : Z).

(** The answers of the environment.  The file system is a snapshot: the
    identifier [inotify_add_watch] gives to a path ([-1] on failure) and
    the children of a directory do not change during a call; listing a
    directory that has just been registered does not fail, as the source
    says of it.  The calls whose answer changes with time take the number
    of earlier calls of the same kind. *)
Record OS := mk_OS {
  inotify_add_watch : string -> Z -> Z;
  directory_iterator : string -> list dirent;
  inotify_rm_watch : nat -> Z -> Z;
  poll : nat -> Z -> poll_result;
  usleep : nat -> Z -> usleep_result;
  sys_read : nat -> read_result;
  (** [system_clock::now()], in nanoseconds. *)
  now : nat -> Z
}.

(** The messages given to [log], by call site. *)
Inductive message :=
  | warn_cannot_watch (path : string)
  | warn_rm_watch
  | err_buffer_underruns
  | err_syscall (where_ : string) (errno : Z)
  | err_incomplete_event
  | err_unknown_wd (wd : Z).

(** The calls that leave the object. *)
Inductive call :=
  | c_inotify_add_watch (path : string) (mask : Z)
  | c_inotify_rm_watch (wd : Z)
  | c_poll (timeout : Z)
  | c_usleep (usec : Z)
  | c_read
  | c_now
  | c_log (m : message).

Definition is_rm_watch (c : call) : bool :=
  match c with c_inotify_rm_watch _ => true | _ => false end.
Definition is_poll (c : call) : bool :=
  match c with c_poll _ => true | _ => false end.
Definition is_usleep (c : call) : bool :=
  match c with c_usleep _ => true | _ => false end.
Definition is_read (c : call) : bool :=
  match c with c_read => true | _ => false end.
Definition is_now (c : call) : bool :=
  match c with c_now => true | _ => false end.

Definition count (p : call -> bool) (tr : list call) : nat :=
  List.length (List.filter p tr).

(** ** The object *)

Module Watch.
Record t := mk { path : string; in_move : bool }.
End Watch.

Record Inotify := mk_Inotify {
  mask : Z;
  watches : gmap Z Watch.t;
  buffer : list ascii;
  bytes_in_buffer : Z;
  bytes_handled : Z;
  (** the calls made so far, the latest first *)
  trace : list call
}.

(** [Inotify(log, mask)]: no watch, no byte counted in the buffer.  The
    constructor does not initialise [buffer]: [uninitialised] stands for the
    [sizeof_buffer] bytes that the array happens to hold. *)
Definition Inotify_new (mask0 : Z) (uninitialised : list ascii) : Inotify :=
  mk_Inotify mask0 ∅ uninitialised 0 0 [].

Definition with_watches (f : gmap Z Watch.t -> gmap Z Watch.t) (st : Inotify) :=
  mk_Inotify (mask st) (f (watches st)) (buffer st) (bytes_in_buffer st)
    (bytes_handled st) (trace st).
Definition with_buffer (f : list ascii -> list ascii) (st : Inotify) :=
  mk_Inotify (mask st) (watches st) (f (buffer st)) (bytes_in_buffer st)
    (bytes_handled st) (trace st).
Definition with_bytes_in_buffer (n : Z) (st : Inotify) :=
  mk_Inotify (mask st) (watches st) (buffer st) n (bytes_handled st) (trace st).
Definition with_bytes_handled (n : Z) (st : Inotify) :=
  mk_Inotify (mask st) (watches st) (buffer st) (bytes_in_buffer st) n (trace st).
Definition with_call (c : call) (st : Inotify) :=
  mk_Inotify (mask st) (watches st) (buffer st) (bytes_in_buffer st)
    (bytes_handled st) (c :: trace st).

(** ** Results and the state-and-exception monad of the member functions *)

Inductive exn :=
  | system_error (errno : Z)
  | out_of_range.

Inductive result (A : Type) :=
  | Done (a : A)
  | Throw (e : exn)
  | OutOfFuel.
Arguments Done {A} a.
Arguments Throw {A} e.
Arguments OutOfFuel {A}.

Definition M (A : Type) : Type := Inotify -> result A * Inotify.

Definition ret {A} (a : A) : M A := fun st => (Done a, st).
Definition throw {A} (e : exn) : M A := fun st => (Throw e, st).
Definition out_of_fuel {A} : M A := fun st => (OutOfFuel, st).
Definition bind {A B} (m : M A) (k : A -> M B) : M B :=
  fun st =>
    match m st with
    | (Done a, st') => k a st'
    | (Throw e, st') => (Throw e, st')
    | (OutOfFuel, st') => (OutOfFuel, st')
    end.
Definition get : M Inotify := fun st => (Done st, st).
Definition modify (f : Inotify -> Inotify) : M unit := fun st => (Done tt, f st).
Definition emit (c : call) : M unit := modify (with_call c).
Definition log (m : message) : M unit := emit (c_log m).

Notation "'let*' x ':=' m 'in' k" := (bind m (fun x => k))
  (at level 10, x name, m at level 100, k at level 200).
Notation "m ;; k" := (bind m (fun _ => k))
  (at level 100, k at level 200, right associativity).

(** A range-based [for]: the body runs on each element in turn, an
    exception leaves the loop. *)
Fixpoint for_each {A} (l : list A) (body : A -> M unit) : M unit :=
  match l with
  | [] => ret tt
  | x :: l' => body x ;; for_each l' body
  end.

(** ** The status of a child *)

(** [fs::status(const path&)], the throwing overload that
    [fs::is_directory(path)] and [fs::is_other(path)] go through: when the
    status cannot be taken it throws [fs::filesystem_error], which is a
    [std::system_error] and is kept here as one, with the error of stat(). *)
Definition status (child : dirent) : M file_type :=
  match d_type child with
  | ft_none errno => throw (system_error errno)
  | t => ret t
  end.

(** [fs::is_directory(path)] and [fs::is_other(path)]. *)
Definition is_directory (child : dirent) : M bool :=
  let* t := status child in
  ret (status_is_directory t).
Definition is_other (child : dirent) : M bool :=
  let* t := status child in
  ret (status_is_other t).

(** ** The member functions *)

Section Member_functions.

Variable os : OS.

Definition is_end (s : string) : bool :=
match s with EmptyString => true | String _ _ => false end.

(** The mask given to [inotify_add_watch()]. *)
Definition registration_mask (mask0 : Z) (recursive : bool) : Z :=
Z.lor (Z.lor (Z.lor mask0 IN_ONLYDIR) IN_MOVE_SELF)
  (if recursive then Z.lor IN_CREATE IN_MOVED_TO else 0).

(** The test of "ignored as a duplicate": [path == path0] or
  [path == path0 + "/"]. *)
Definition is_duplicate (path0 path : string) (recursive : bool) : bool :=
let diff := mismatch path0 path in
is_end (fst diff)
&& (is_end (snd diff)
    || (negb recursive && (String.length (snd diff) =? 1)%nat)).

(** [(name.size()+sizeof(int))/sizeof(int)*sizeof(int)] as [uint32_t]. *)
Definition padded_len (name : string) : Z :=
to_uint32 (to_size_t (Z.of_nat (String.length name) + 4) / 4 * 4).

(** "Make a new IN_CREATE event to be read()": what the body of the loop
  of add_watch() does of a child that is not "other", [isdir] telling
  whether the child is a directory. *)
Definition make_event (wd : Z) (recursive isdir : bool) (child : dirent) : M unit :=
  let* st := get in
  if has_bits (mask st) IN_CREATE || (isdir && recursive) then
    let name := d_name child in
    let len := padded_len name in
    let event := bytes_in_buffer st in
    modify (with_bytes_in_buffer
              (to_int (to_size_t (bytes_in_buffer st) + (sizeof_event + len))));;
    let* st := get in
    if to_size_t (bytes_in_buffer st) >? sizeof_buffer then
      log err_buffer_underruns;;
      throw (system_error EINVAL)
    else
      modify (with_buffer (fun b => store_u32 b event wd));;
      modify (with_buffer (fun b =>
        store_u32 b (event + 4)
          (if isdir then Z.lor IN_ISDIR IN_CREATE else IN_CREATE)));;
      modify (with_buffer (fun b => store_u32 b (event + 8) 0));;
      modify (with_buffer (fun b => store_u32 b (event + 12) len));;
      modify (with_buffer (fun b =>
        store_bytes b (event + sizeof_event) (take (Z.to_nat len) (chars name))));;
      modify (with_buffer (fun b =>
        store8 b (event + sizeof_event + Z.of_nat (String.length name)) NUL))
  else ret tt.

(** The body of the loop that makes an IN_CREATE event of a child. *)
Definition synthesize (wd : Z) (recursive : bool) (child : dirent) : M unit :=
let* other := is_other child in
if negb other then
  let* isdir := is_directory child in
  make_event wd recursive isdir child
else ret tt.

(** "if the watch was already registered": the entry of [wd] in the table
  is made or brought up to date; [true] when the path is "ignored as a
  duplicate". *)
Definition record_watch (wd : Z) (path : string) (recursive : bool) : M bool :=
let* st := get in
match watches st !! wd with
| None =>
    modify (with_watches (insert wd (Watch.mk path false)));;
    ret false
| Some it =>
    if is_duplicate (Watch.path it) path recursive then ret true
    else
      modify (with_watches (insert wd (Watch.mk path (Watch.in_move it))));;
      ret false
end.

(** "We create a watch for every subdirectory down below": [self] is
  add_watch() itself, called with [in_move] true. *)
Definition descend (self : string -> M Z) (path : string) : M unit :=
for_each (directory_iterator os path) (fun subdir =>
  let* isdir := is_directory subdir in
  if isdir then
    self (path_join path (d_name subdir));;
    ret tt
  else ret tt).

Fixpoint add_watch (fuel : nat) (path : string) (in_move : bool) : M Z :=
match fuel with
| O => out_of_fuel
| S fuel' =>
  let recursive := negb (ends_with_slash path) in
  let* st := get in
  let reg := registration_mask (mask st) recursive in
  emit (c_inotify_add_watch path reg);;
  let wd := inotify_add_watch os path reg in
  if wd =? -1 then
    log (warn_cannot_watch path);;
    ret wd
  else
    let* duplicate := record_watch wd path recursive in
    if duplicate : bool then ret wd
    else
      (if in_move then
         if recursive then descend (fun p => add_watch fuel' p true) path
         else ret tt
       else
         for_each (directory_iterator os path) (synthesize wd recursive));;
      ret wd
end.

Definition rm_watch (wd : Z) : M unit :=
let* st := get in
emit (c_inotify_rm_watch wd);;
if negb (inotify_rm_watch os (count is_rm_watch (trace st)) wd =? 0)
then log warn_rm_watch
else ret tt.

Definition rm_all_watches : M unit :=
let* st := get in
for_each (map_to_list (watches st)) (fun it => rm_watch it.1).

(** [system_clock::now()]. *)
Definition clock : M Z :=
let* st := get in
emit c_now;;
ret (now os (count is_now (trace st))).

(** The block "if the buffer underruns, (re)fill it": [false] when poll()
  timed out, in which case read() returns [nullptr]. *)
Definition refill (timeout read_delay : Z) : M bool :=
let* st := get in
if bytes_in_buffer st =? 0 then
  emit (c_poll timeout);;
  match poll os (count is_poll (trace st)) timeout with
  | poll_timeout => ret false
  | poll_error errno =>
      log (err_syscall "poll()" errno);;
      throw (system_error errno)
  | poll_ready =>
      let usec := to_uint32 (read_delay * 1000) in
      emit (c_usleep usec);;
      match usleep os (count is_usleep (trace st)) usec with
      | usleep_error errno =>
          log (err_syscall "usleep()" errno);;
          throw (system_error errno)
      | usleep_ok =>
          emit c_read;;
          match sys_read os (count is_read (trace st)) with
          | read_error errno =>
              modify (with_bytes_in_buffer (-1));;
              log (err_syscall "read()" errno);;
              throw (system_error errno)
          | read_data data =>
              let data := take (Z.to_nat sizeof_buffer) data in
              modify (with_buffer (fun b => store_bytes b 0 data));;
              modify (with_bytes_in_buffer (Z.of_nat (List.length data)));;
              if Z.of_nat (List.length data) >? 0 then ret true
              else
                log (err_syscall "read()" EIO);;
                throw (system_error EIO)
          end
      end
  end
else ret true.

(** "A new subdirectory was created or moved in."  [off] is the offset of
  [event] in the buffer and [key] the key of [watch] in the table; both
  are references in the source, so the fields are read when used. *)
Definition on_new_subdirectory (fuel : nat) (off key : Z) : M unit :=
let* st := get in
match watches st !! key with
| None => ret tt
| Some watch =>
    let m := event_mask (buffer st) off in
    if has_bits m (Z.lor IN_CREATE IN_MOVED_TO) && has_bits m IN_ISDIR
       && negb (ends_with_slash (Watch.path watch)) then
      let in_move := has_bits m IN_MOVED_TO in
      let* wd :=
        add_watch fuel (path_join (Watch.path watch) (event_name (buffer st) off))
          in_move in
      if in_move && (wd >=? 0) then
        let* st := get in
        match watches st !! wd with
        | None => throw out_of_range
        | Some w =>
            modify (with_watches (insert wd (Watch.mk (Watch.path w) true)))
        end
      else ret tt
    else ret tt
end.

(** "Delete a watch recursively unless in move." *)
Definition on_move_self (off key : Z) : M unit :=
let* st := get in
match watches st !! key with
| None => ret tt
| Some watch =>
    if has_bits (event_mask (buffer st) off) IN_MOVE_SELF then
      if Watch.in_move watch then
        modify (with_watches (insert key (Watch.mk (Watch.path watch) false)))
      else if ends_with_slash (Watch.path watch) then
        rm_watch (event_wd (buffer st) off)
      else
        for_each (map_to_list (watches st)) (fun it =>
          if starts_with (Watch.path watch) (Watch.path it.2)
          then rm_watch it.1
          else ret tt)
    else ret tt
end.

(** "A watch was deleted implicitly, so delete it from the dictionary too." *)
Definition on_ignored (off : Z) : M unit :=
let* st := get in
if has_bits (event_mask (buffer st) off) IN_IGNORED then
  modify (with_watches (delete (event_wd (buffer st) off)))
else ret tt.

(** One round of the [do ... while] loop of read(): [Some off] when the
  event at offset [off] is returned to the caller. *)
Definition handle_event (fuel : nat) : M (option Z) :=
let* st := get in
let off := bytes_handled st in
let handled :=
  to_int (to_size_t off + (sizeof_event + event_len (buffer st) off)) in
modify (with_bytes_handled handled);;
(if handled >=? bytes_in_buffer st then
   if handled >? bytes_in_buffer st then
     log err_incomplete_event;;
     throw (system_error EINVAL)
   else
     modify (with_bytes_handled 0);;
     modify (with_bytes_in_buffer 0)
 else ret tt);;
let key := event_wd (buffer st) off in
match watches st !! key with
| None =>
    log (err_unknown_wd key);;
    throw (system_error EINVAL)
| Some _ =>
    on_new_subdirectory fuel off key;;
    on_move_self off key;;
    on_ignored off;;
    let* st := get in
    if has_bits (event_mask (buffer st) off) (mask st)
    then ret (Some off)
    else ret None
end.

(** The [do ... while ( bytes_handled > 0 )] loop: [None] when the loop is
  left without an event to return. *)
Fixpoint drain (fuel : nat) : M (option Z) :=
match fuel with
| O => out_of_fuel
| S fuel' =>
  let* r := handle_event fuel' in
  match r with
  | Some off => ret (Some off)
  | None =>
      let* st := get in
      if bytes_handled st >? 0 then drain fuel' else ret None
  end
end.

(** read(): [Some off] is the address of the event at offset [off] of the
  buffer, [None] is [nullptr]. *)
Fixpoint read (fuel : nat) (timeout read_delay : Z) : M (option Z) :=
match fuel with
| O => out_of_fuel
| S fuel' =>
  let* then_ := clock in
  let* ready := refill timeout read_delay in
  if negb ready then ret None
  else
    let* r := drain fuel' in
    match r with
    | Some off => ret (Some off)
    | None =>
        let* t := clock in
        let time_elapsed := to_int (Z.quot (t - then_) 1000000) in
        if timeout <? 0 then read fuel' timeout read_delay
        else
          let timeout' := to_int (timeout - time_elapsed) in
          if timeout' >? 0 then read fuel' timeout' read_delay
          else ret None
    end
end.

End Member_functions.

Arguments add_watch os !fuel path in_move st : simpl nomatch.

(** ** A small world to run the functions on

    [/tmp/a] (identifier 1) holds the file [f] and the directory [d]
    (identifier 2), which holds the file [e]; [/tmp/b] (identifier 3) holds
    the file [g]; nothing else can be watched.  Nothing ever becomes
    readable, and the clock advances by a millisecond at each reading. *)
Definition demo_os : OS := {|
  inotify_add_watch := fun p _ =>
    if String.eqb p "/tmp/a" || String.eqb p "/tmp/a/" then 1
    else if String.eqb p "/tmp/a/d" || String.eqb p "/tmp/a/d/" then 2
    else if String.eqb p "/tmp/b" || String.eqb p "/tmp/b/" then 3
    else -1;
  directory_iterator := fun p =>
    if String.eqb p "/tmp/a" || String.eqb p "/tmp/a/"
    then [mk_dirent "f" ft_regular; mk_dirent "d" ft_directory]
    else if String.eqb p "/tmp/a/d" || String.eqb p "/tmp/a/d/"
    then [mk_dirent "e" ft_regular]
    else if String.eqb p "/tmp/b" || String.eqb p "/tmp/b/"
    then [mk_dirent "g" ft_regular]
    else [];
  inotify_rm_watch := fun _ _ => 0;
  poll := fun _ _ => poll_timeout;
  usleep := fun _ _ => usleep_ok;
  sys_read := fun _ => read_data [];
  now := fun k => Z.of_nat k * 1000000
|}.


(** ** Notions used in the statements *)

(** A computation respects the relation [R] between the state it starts in
    and the state it ends in, whatever its result. *)
Definition preserves (R : Inotify -> Inotify -> Prop) {A} (m : M A) : Prop :=
  forall st, R st (m st).2.

(** What [fs::status] finds of a child: whether the status can be taken,
    the error when it cannot, and what the two tests of the source answer
    when it can. *)
Definition has_status (child : dirent) : bool :=
  match d_type child with ft_none _ => false | _ => true end.
Definition status_errno (child : dirent) : Z :=
  match d_type child with ft_none errno => errno | _ => 0 end.
Definition directory_entry (child : dirent) : bool :=
  status_is_directory (d_type child).
Definition other_entry (child : dirent) : bool :=
  status_is_other (d_type child).

(** The status of every child of every directory of the world can be
    taken. *)
Definition known_statuses (os : OS) : Prop :=
  forall q child, In child (directory_iterator os q) -> has_status child = true.

(** The body of the loop of add_watch() for a child whose status can be
    taken. *)
Definition synthesize_known (wd : Z) (recursive : bool) (child : dirent) : M unit :=
  if negb (other_entry child)
  then make_event wd recursive (directory_entry child) child
  else ret tt.

(** A buffer that happens to hold zeros. *)
Definition zeroed : list ascii := replicate (Z.to_nat sizeof_buffer) NUL.

(** A path that does not end with a slash stands for a recursive watch. *)
Definition recursive_path (path : string) : bool := negb (ends_with_slash path).

(** What add_watch() asks of the kernel for [path], and the identifier the
    kernel answers with. *)
Definition registration (st : Inotify) (path : string) : call :=
  c_inotify_add_watch path (registration_mask (mask st) (recursive_path path)).
Definition assigned_wd (os : OS) (st : Inotify) (path : string) : Z :=
  inotify_add_watch os path (registration_mask (mask st) (recursive_path path)).

(** The pending-event buffer: the bytes and the two cursors. *)
Definition same_buffer (st st' : Inotify) : Prop :=
  buffer st' = buffer st
  /\ bytes_in_buffer st' = bytes_in_buffer st
  /\ bytes_handled st' = bytes_handled st.

(** The calls made between [st] and [st'] (the latest first) all satisfy
    [P], which may depend on the interest mask; the mask is kept. *)
Definition calls_between (P : Z -> call -> Prop) (st st' : Inotify) : Prop :=
  mask st' = mask st
  /\ exists tr, trace st' = tr ++ trace st /\ Forall (P (mask st)) tr.

(** No entry of the table is lost. *)
Definition keeps_watches (st st' : Inotify) : Prop :=
  forall wd, is_Some (watches st !! wd) -> is_Some (watches st' !! wd).

(** No [in_move] flag is raised. *)
Definition in_move_of (st : Inotify) (wd : Z) : bool :=
  match watches st !! wd with
  | Some it => Watch.in_move it
  | None => false
  end.
Definition raises_no_in_move (st st' : Inotify) : Prop :=
  forall wd, in_move_of st' wd = true -> in_move_of st wd = true.

(** The part of add_watch() that follows the registration. *)
Definition backfill (os : OS) (fuel : nat) (path : string) (in_move : bool) (wd : Z) : M unit :=
  if in_move then
    if recursive_path path
    then descend os (fun p => add_watch os fuel p true) path
    else ret tt
  else for_each (directory_iterator os path) (synthesize wd (recursive_path path)).


(** The registration mask as the specification words it: the interest mask
    with the directory-only, self-moved and watch-deleted flags, and the two
    child flags for a recursive path.  [watch_deleted] is the flag meant by
    "watch deleted" (IN_DELETE_SELF, or IN_IGNORED). *)
Definition spec_registration_mask (watch_deleted mask0 : Z) (recursive : bool) : Z :=
  Z.lor (Z.lor (Z.lor (Z.lor mask0 IN_ONLYDIR) IN_MOVE_SELF) watch_deleted)
    (if recursive then Z.lor IN_CREATE IN_MOVED_TO else 0).

(** A registration carries the mask that add_watch() computes from the
    interest mask [mask0] and the path registered. *)
Definition well_masked (mask0 : Z) (c : call) : Prop :=
  forall p m, c = c_inotify_add_watch p m ->
    m = registration_mask mask0 (recursive_path p).

(** [fuel] is enough for add_watch() to reach the bottom of the tree of
    directories below [path]. *)
Fixpoint deep_enough (os : OS) (fuel : nat) (path : string) : Prop :=
  match fuel with
  | O => False
  | S fuel' =>
      forall subdir,
        In subdir (directory_iterator os path) -> directory_entry subdir = true ->
        deep_enough os fuel' (path_join path (d_name subdir))
  end.

(** The entry of the table under [wd], if any, does not make [path] a
    duplicate. *)
Definition not_duplicate (st : Inotify) (wd : Z) (path : string) : Prop :=
  forall it, watches st !! wd = Some it ->
    is_duplicate (Watch.path it) path (recursive_path path) = false.

(** Two relations at once. *)
Definition both (R1 R2 : Inotify -> Inotify -> Prop) (st st' : Inotify) : Prop :=
  R1 st st' /\ R2 st st'.

(** ** Event records *)

(** An [inotify_event] read as a value. *)
Module Event.
Record t := mk { wd : Z; mask : Z; cookie : Z; len : Z; name : string }.
End Event.

Definition event_at (buf : list ascii) (off : Z) : Event.t :=
  Event.mk (event_wd buf off) (event_mask buf off) (event_cookie buf off)
    (event_len buf off) (event_name buf off).

(** The [n] records that follow one another from offset [off]. *)
Fixpoint events_from (n : nat) (buf : list ascii) (off : Z) : list Event.t :=
  match n with
  | O => []
  | S n' =>
      event_at buf off
      :: events_from n' buf (off + sizeof_event + event_len buf off)
  end.

(** The bytes of a 32-bit field and of a record up to the NUL that ends
    its name. *)
Definition u32_bytes (v : Z) : list ascii :=
  [byte_of v; byte_of (v / 2 ^ 8); byte_of (v / 2 ^ 16); byte_of (v / 2 ^ 24)].
Definition encode (e : Event.t) : list ascii :=
  u32_bytes (Event.wd e) ++ u32_bytes (Event.mask e) ++ u32_bytes (Event.cookie e)
  ++ u32_bytes (Event.len e) ++ chars (Event.name e) ++ [NUL].

(** The region holds [bytes] from offset [off] on. *)
Definition holds (buf : list ascii) (off : Z) (bytes : list ascii) : Prop :=
  forall k, (k < List.length bytes)%nat ->
    peek buf (off + Z.of_nat k) = nth k bytes NUL.

(** A name that a file can bear: no NUL in it. *)
Definition NUL_free (s : string) : Prop := ~ In NUL (chars s).

(** The children for which add_watch(path, false) makes an event, the
    event it makes for one, and the room the events take. *)
Definition reported (st : Inotify) (recursive : bool) (child : dirent) : bool :=
  negb (other_entry child)
  && (has_bits (mask st) IN_CREATE || (directory_entry child && recursive)).
Definition created (wd : Z) (child : dirent) : Event.t :=
  Event.mk wd (if directory_entry child then Z.lor IN_ISDIR IN_CREATE else IN_CREATE)
    0 (padded_len (d_name child)) (d_name child).
Definition record_size (child : dirent) : Z :=
  sizeof_event + padded_len (d_name child).
Definition records_size (children : list dirent) : Z :=
  fold_right (fun child n => record_size child + n) 0 children.

(** The longest name of a file (NAME_MAX of <limits.h>, Linux), and a name
    that a file can bear. *)
Definition NAME_MAX : nat := 255.
Definition file_name (s : string) : Prop :=
  NUL_free s /\ (String.length s <= NAME_MAX)%nat.

(** The region after the records of [children] have been written one after
    another from offset [off]. *)
Fixpoint append_records (wd : Z) (children : list dirent) (buf : list ascii) (off : Z)
  : list ascii :=
  match children with
  | [] => buf
  | child :: children' =>
      append_records wd children'
        (store_bytes buf off (encode (created wd child))) (off + record_size child)
  end.

(** The state once [path] has been registered and entered in the table,
    when it is not a duplicate. *)
Definition registered (os : OS) (st : Inotify) (path : string) : Inotify :=
  with_watches
    (insert (assigned_wd os st path)
       (Watch.mk path (in_move_of st (assigned_wd os st path))))
    (with_call (registration st path) st).

(** A world with one crowded directory: [/tmp/c] (identifier 4) holds the
    300 files [0], [1], ..., [299]. *)
Definition crowd : list dirent :=
  map (fun n : nat => mk_dirent (pretty n) ft_regular) (seq 0 300).
Definition crowded_os : OS := {|
  inotify_add_watch := fun p _ => if String.eqb p "/tmp/c" then 4 else -1;
  directory_iterator := fun p =>
    if String.eqb p "/tmp/c" then crowd else [];
  inotify_rm_watch := fun _ _ => 0;
  poll := fun _ _ => poll_timeout;
  usleep := fun _ _ => usleep_ok;
  sys_read := fun _ => read_data [];
  now := fun k => Z.of_nat k * 1000000
|}.

(** A world where a status cannot be taken: [/tmp/e] (identifier 5) holds
    the directory [d] (identifier 6), which holds [x], a symbolic link
    into a directory that may not be searched: stat() fails on it with
    EACCES. *)
Definition locked_os : OS := {|
  inotify_add_watch := fun p _ =>
    if String.eqb p "/tmp/e" then 5
    else if String.eqb p "/tmp/e/d" then 6
    else -1;
  directory_iterator := fun p =>
    if String.eqb p "/tmp/e" then [mk_dirent "d" ft_directory]
    else if String.eqb p "/tmp/e/d" then [mk_dirent "x" (ft_none EACCES)]
    else [];
  inotify_rm_watch := fun _ _ => 0;
  poll := fun _ _ => poll_timeout;
  usleep := fun _ _ => usleep_ok;
  sys_read := fun _ => read_data [];
  now := fun k => Z.of_nat k * 1000000
|}.

(** ** Notions about read() *)

(** The record at the cursor lies wholly in the filled part of the buffer. *)
Definition next_cursor (st : Inotify) : Z :=
  to_int (to_size_t (bytes_handled st)
          + (sizeof_event + event_len (buffer st) (bytes_handled st))).
Definition complete_event (st : Inotify) : Prop :=
  next_cursor st <= bytes_in_buffer st.

(** The state once the cursor has passed the record: both cursors return to
    zero when the record was the last. *)
Definition advanced (st : Inotify) : Inotify :=
  if next_cursor st >=? bytes_in_buffer st
  then with_bytes_in_buffer 0 (with_bytes_handled 0 st)
  else with_bytes_handled (next_cursor st) st.

(** The event tells of a subdirectory made in, or moved into, a recursive
    watch: read() calls add_watch() for it. *)
Definition announces_subdirectory (m : Z) (watch : Watch.t) : bool :=
  has_bits m (Z.lor IN_CREATE IN_MOVED_TO) && has_bits m IN_ISDIR
  && negb (ends_with_slash (Watch.path watch)).

(** A call that waits or reads: poll(), usleep(), read(). *)
Definition is_wait (c : call) : bool := is_poll c || is_usleep c || is_read c.

(** Calls that unregister watches, and the warnings they may bring. *)
Definition unregisters (c : call) : Prop :=
  match c with
  | c_inotify_rm_watch _ | c_log warn_rm_watch => True
  | _ => False
  end.

(** Calls that the handling of events makes: everything but the clock and
    the three calls that wait or read. *)
Definition handles (c : call) : Prop := is_wait c = false /\ is_now c = false.

(** The records written one after another from offset [off], each taking
    the room that its length field tells. *)
Fixpoint write_events (events : list Event.t) (buf : list ascii) (off : Z)
  : list ascii :=
  match events with
  | [] => buf
  | e :: events' =>
      write_events events' (store_bytes buf off (encode e))
        (off + sizeof_event + Event.len e)
  end.
Definition events_size (events : list Event.t) : Z :=
  fold_right (fun e n => sizeof_event + Event.len e + n) 0 events.

(** An object with the given interest mask and table whose buffer holds
    the given events, none of them handled yet. *)
Definition pending (mask0 : Z) (table : list (Z * Watch.t)) (events : list Event.t)
  : Inotify :=
  mk_Inotify mask0 (list_to_map table)
    (write_events events (replicate (Z.to_nat sizeof_buffer) NUL) 0)
    (events_size events) 0 [].

(** The table once the flag of [key] has been consumed, if it was up, and
    the entry dropped, if the event bears IN_IGNORED. *)
Definition after_self_move (m key : Z) (watch : Watch.t) (table : gmap Z Watch.t)
  : gmap Z Watch.t :=
  let table' :=
    if Watch.in_move watch
    then <[key := Watch.mk (Watch.path watch) false]> table
    else table in
  if has_bits m IN_IGNORED then delete key table' else table'.

(** The moved-in reconciliation of the identifier [wd]: the record at the
    cursor tells of a subdirectory moved into a recursive watch, and [wd] is
    the identifier that the kernel gives to the path of that subdirectory. *)
Definition reconciled (os : OS) (st : Inotify) (wd : Z) : Prop :=
  let off := bytes_handled st in
  let m := event_mask (buffer st) off in
  exists watch,
    watches st !! event_wd (buffer st) off = Some watch
    /\ announces_subdirectory m watch = true
    /\ has_bits m IN_MOVED_TO = true
    /\ wd = assigned_wd os st (path_join (Watch.path watch) (event_name (buffer st) off))
    /\ 0 <= wd.

(** Three directories are watched: [/tmp/a] and its subdirectory [d],
    recursively, and [/tmp/b/]. *)
Definition demo_table : list (Z * Watch.t) :=
  [(1, Watch.mk "/tmp/a" false); (2, Watch.mk "/tmp/a/d" false);
   (3, Watch.mk "/tmp/b/" false)].

(** ** Notions about the time that read() takes *)

(** The milliseconds that read() counts for the round that takes the
    readings number [k] and [k + 1] of the clock, and for the [n] rounds
    that follow one another from the reading number [k] on. *)
Definition time_elapsed (os : OS) (k : nat) : Z :=
  to_int (Z.quot (now os (S k) - now os k) 1000000).
Fixpoint spent (os : OS) (k n : nat) : Z :=
  match n with
  | O => 0
  | S n' => time_elapsed os k + spent os (S (S k)) n'
  end.

(** What is left of the time allowed [timeout] when [n] rounds have been
    made, each having handled its records with none to return, the first
    of them having begun with the reading [k] of the clock: the statement
    [timeout -= time_elapsed] of read(), a negative [timeout] being passed
    on as it is. *)
Fixpoint budget (os : OS) (k n : nat) (timeout : Z) : Z :=
  match n with
  | O => timeout
  | S n' =>
      budget os (S (S k)) n'
        (if timeout <? 0 then timeout else to_int (timeout - time_elapsed os k))
  end.

(** The clock does not go back, nor leap by 2^31 milliseconds or more
    between two readings. *)
Definition steady_clock (os : OS) : Prop :=
  forall k, 0 <= now os (S k) - now os k < 2 ^ 31 * 1000000.

(** poll() told to wait for ever does not time out. *)
Definition patient_poll (os : OS) : Prop :=
  forall k timeout, timeout < 0 -> poll os k timeout <> poll_timeout.

(** The microseconds of sleep asked for in the calls of a trace. *)
Definition slept (tr : list call) : Z :=
  fold_right (fun c n => match c with c_usleep usec => usec + n | _ => n end) 0 tr.

(** A world where something is always readable: each read() of the kernel
    brings the creation of the file [x] in the watch 1, and the clock
    advances by 1005 milliseconds at each reading. *)
Definition busy_os : OS := {|
  inotify_add_watch := fun p _ => if String.eqb p "/tmp/a" then 1 else -1;
  directory_iterator := fun _ => [];
  inotify_rm_watch := fun _ _ => 0;
  poll := fun _ _ => poll_ready;
  usleep := fun _ _ => usleep_ok;
  sys_read := fun _ => read_data (encode (Event.mk 1 IN_CREATE 0 4 "x") ++ [NUL; NUL]);
  now := fun k => Z.of_nat k * 1005000000
|}.

(** The trace grows and the table loses no entry. *)
Definition grows : Inotify -> Inotify -> Prop :=
  both (calls_between (fun _ _ => True)) keeps_watches.

(** The subdirectory [subdir] of [path] has been registered and, if the
    kernel accepted it, is in the table. *)
Definition installed (os : OS) (st : Inotify) (path : string) (subdir : dirent)
  (st' : Inotify) : Prop :=
  directory_entry subdir = true ->
  let p := path_join path (d_name subdir) in
  In (registration st p) (trace st')
  /\ (assigned_wd os st p <> -1 -> is_Some (watches st' !! assigned_wd os st p)).

(** Only calls that the handling of events makes were made; the mask is
    kept. *)
Definition handling : Inotify -> Inotify -> Prop :=
  calls_between (fun _ => handles).

(** Unfolding the operations of the monad in a goal. *)
Ltac run_monad :=
  unfold log, emit, modify, get, ret, throw, out_of_fuel, bind; cbn beta iota.

(** ** The accessor [path()] *)

(** [path(wd)], that is [watches.at(wd).path]: [std::out_of_range] for an
    identifier that the table does not hold. *)
Definition path (wd : Z) : M string :=
  let* st := get in
  match watches st !! wd with
  | Some it => ret (Watch.path it)
  | None => throw out_of_range
  end.

(** ** The logger of [src/syslog.hpp] *)

Module Syslog.

(** <syslog.h>: [LOG_PRI(p)] is [p & LOG_PRIMASK], the level of a priority;
    the facility lies in the bits above the three of the level. *)
Definition LOG_PRIMASK : Z := 0x07.
Definition LOG_PRI (p : Z) : Z := Z.land p LOG_PRIMASK.

(** What is handed to [vsyslog()]. *)
Record vsyslog_call := mk_vsyslog { priority : Z; format : string }.

(** [operator()(int priority, const char* format...)] of
    [Syslog<Priority>]. *)
Definition call_with (Priority priority : Z) (format : string) : vsyslog_call :=
  let priority :=
    if LOG_PRI priority =? 0 then Z.lor priority (LOG_PRI Priority) else priority in
  mk_vsyslog priority format.

(** [operator()(const char* format, Args...)]: "uses the default
    Priority". *)
Definition call (Priority : Z) (format : string) : vsyslog_call :=
  call_with Priority Priority format.

End Syslog.

(** ** More notions used in the statements *)

(** A call by which a watch is registered, or a message logged. *)
Definition registers (c : call) : Prop :=
  match c with
  | c_inotify_add_watch _ _ | c_log _ => True
  | _ => False
  end.

(** A name as a directory gives it to a child: not empty, and with no
    slash at its end. *)
Definition child_name (s : string) : Prop :=
  s <> EmptyString /\ ends_with_slash s = false.

(** A registration, if [c] is one, is that of a recursive path that begins
    with the letters of [p]. *)
Definition registers_below (p : string) (c : call) : Prop :=
  forall p' m, c = c_inotify_add_watch p' m ->
    starts_with p p' = true /\ recursive_path p' = true.

(** The calls made between two states, the latest first. *)
Definition calls_since (st st' : Inotify) (tr : list call) : Prop :=
  trace st' = tr ++ trace st.

(** A world where the kernel finds something readable and then fails to
    hand it over: read() of the descriptor answers the error 11 (EAGAIN). *)
Definition failing_os : OS := {|
  inotify_add_watch := fun _ _ => -1;
  directory_iterator := fun _ => [];
  inotify_rm_watch := fun _ _ => -1;
  poll := fun _ _ => poll_ready;
  usleep := fun _ _ => usleep_ok;
  sys_read := fun _ => read_error 11;
  now := fun k => Z.of_nat k * 1000000
|}.

(** The table is the same in both states. *)
Definition same_watches (st st' : Inotify) : Prop := watches st' = watches st.

(** The buffer is not empty and the record at the cursor does not lie
    wholly in its filled part: read() will find it incomplete. *)
Definition wedged (st : Inotify) : Prop :=
  bytes_in_buffer st <> 0 /\ ~ complete_event st.

(** A record as the kernel writes it: the fields in their ranges and no
    NUL in the name. *)
Definition kernel_event (e : Event.t) : Prop :=
  - 2 ^ 31 <= Event.wd e < 2 ^ 31
  /\ 0 <= Event.mask e < 2 ^ 32
  /\ 0 <= Event.cookie e < 2 ^ 32
  /\ 0 <= Event.len e
  /\ NUL_free (Event.name e).

(** The record at the cursor is one that read() only passes, or returns:
    it is complete, names a watch of the table, tells of no new
    subdirectory of a recursive watch, and bears neither IN_MOVE_SELF nor
    IN_IGNORED. *)
Definition plain_record (st : Inotify) : Prop :=
  let off := bytes_handled st in
  let m := event_mask (buffer st) off in
  complete_event st
  /\ (exists watch,
         watches st !! event_wd (buffer st) off = Some watch
         /\ announces_subdirectory m watch = false)
  /\ has_bits m IN_MOVE_SELF = false
  /\ has_bits m IN_IGNORED = false.

(** The record at the cursor meets the interest mask. *)
Definition of_interest (st : Inotify) : bool :=
  has_bits (event_mask (buffer st) (bytes_handled st)) (mask st).

(** The state once the cursor has passed [n] records. *)
Fixpoint passed (n : nat) (st : Inotify) : Inotify :=
  match n with
  | O => st
  | S n' => passed n' (advanced st)
  end.

(** The cursors are where read() leaves them: [bytes_in_buffer] within
    the buffer, and [bytes_handled] before it, or both at zero. *)
Definition cursors_in_bounds (st : Inotify) : Prop :=
  0 <= bytes_handled st
  /\ bytes_in_buffer st <= sizeof_buffer
  /\ (bytes_handled st < bytes_in_buffer st
      \/ (bytes_handled st = 0 /\ bytes_in_buffer st = 0)).

(** No directory of the world gives a name longer than NAME_MAX. *)
Definition short_names (os : OS) : Prop :=
  forall q child,
    In child (directory_iterator os q) ->
    (String.length (d_name child) <= NAME_MAX)%nat.

(** ** Notions about the descent of add_watch() *)

(** Every directory of the world gives its children names that are not
    empty and do not end with a slash. *)
Definition child_names (os : OS) : Prop :=
  forall q child, In child (directory_iterator os q) -> child_name (d_name child).

(** [q] is [p] itself or a directory found below it, at any depth. *)
Inductive below (os : OS) (p : string) : string -> Prop :=
  | below_self : below os p p
  | below_child q subdir :
      below os p q ->
      In subdir (directory_iterator os q) ->
      directory_entry subdir = true ->
      below os p (path_join q (d_name subdir)).

(** The identifier that the kernel gives to [q] when the interest mask is
    [m]; [q] has been registered and is in the table; so are [p] and all
    the directories below it. *)
Definition kernel_wd (os : OS) (m : Z) (q : string) : Z :=
  inotify_add_watch os q (registration_mask m (recursive_path q)).
Definition watched (os : OS) (m : Z) (st : Inotify) (q : string) : Prop :=
  In (c_inotify_add_watch q (registration_mask m (recursive_path q))) (trace st)
  /\ is_Some (watches st !! kernel_wd os m q).
Definition settled (os : OS) (m : Z) (st : Inotify) (p : string) : Prop :=
  forall q, below os p q -> watched os m st q.

(** Every directory from [p] down is accepted by the kernel and either is
    not a duplicate of what the table holds, or is settled already. *)
Definition awaited (os : OS) (m : Z) (st : Inotify) (p : string) : Prop :=
  forall q, below os p q ->
    kernel_wd os m q <> -1
    /\ (not_duplicate st (kernel_wd os m q) q \/ settled os m st q).

(** Every entry of the table in [st'] was in [st] as it is, or bears a
    path that is settled in [st']. *)
Definition table_from (os : OS) (m : Z) (st st' : Inotify) : Prop :=
  forall k it, watches st' !! k = Some it ->
    watches st !! k = Some it \/ settled os m st' (Watch.path it).

(** The calls that the removal of the watches [wds], one after the other,
    makes when the kernel has been asked [k] removals before, the newest
    call first: each removal, and after it a warning exactly when the
    kernel refuses it. *)
Fixpoint unregistering (os : OS) (k : nat) (wds : list Z) : list call :=
  match wds with
  | [] => []
  | wd :: wds' =>
      unregistering os (S k) wds'
      ++ (if inotify_rm_watch os k wd =? 0 then [c_inotify_rm_watch wd]
          else [c_log warn_rm_watch; c_inotify_rm_watch wd])
  end.

(** Every entry of the table in [st'] was in [st] as it is, or bears a
    recursive path that begins with the letters of [p]. *)
Definition enters_below (p : string) (st st' : Inotify) : Prop :=
  forall k it, watches st' !! k = Some it ->
    watches st !! k = Some it
    \/ (starts_with p (Watch.path it) = true
        /\ recursive_path (Watch.path it) = true).
(** * Proofs *)

(** ** Reasoning about the monad *)

Lemma bind_Done {A B} (m : M A) (k : A -> M B) st a st' :
  m st = (Done a, st') -> bind m k st = k a st'.
Proof. intros H. unfold bind. now rewrite H. Qed.

Lemma bind_Throw {A B} (m : M A) (k : A -> M B) st e st' :
  m st = (Throw e, st') -> bind m k st = (Throw e, st').
Proof. intros H. unfold bind. now rewrite H. Qed.

Lemma bind_OutOfFuel {A B} (m : M A) (k : A -> M B) st st' :
  m st = (OutOfFuel, st') -> bind m k st = (OutOfFuel, st').
Proof. intros H. unfold bind. now rewrite H. Qed.

(** A relation between the state before and the state after that every
    step of a computation respects is respected by the computation. *)
Section Preservation.

Variable R : Inotify -> Inotify -> Prop.
Hypothesis R_refl : forall st, R st st.
Hypothesis R_trans : forall a b c, R a b -> R b c -> R a c.

Lemma preserves_ret {A} (a : A) : preserves R (ret a).
Proof. intros st. apply R_refl. Qed.

Lemma preserves_throw {A} e : preserves R (@throw A e).
Proof. intros st. apply R_refl. Qed.

Lemma preserves_out_of_fuel {A} : preserves R (@out_of_fuel A).
Proof. intros st. apply R_refl. Qed.

Lemma preserves_get : preserves R get.
Proof. intros st. apply R_refl. Qed.

Lemma preserves_modify f : (forall st, R st (f st)) -> preserves R (modify f).
Proof. intros H st. apply H. Qed.

Lemma preserves_bind {A B} (m : M A) (k : A -> M B) :
  preserves R m -> (forall a, preserves R (k a)) -> preserves R (bind m k).
Proof.
  intros Hm Hk st. unfold bind. specialize (Hm st).
  destruct (m st) as [[a|e|] st']; cbn in *; auto.
  eapply R_trans; [exact Hm | apply Hk].
Qed.

Lemma preserves_for_each {A} (l : list A) (body : A -> M unit) :
  (forall x, In x l -> preserves R (body x)) -> preserves R (for_each l body).
Proof.
  induction l as [|x l IH]; intros H; cbn.
  - apply preserves_ret.
  - apply preserves_bind; [apply H; now left|].
    intros _. apply IH. intros y Hy. apply H. now right.
Qed.

Lemma preserves_is_directory child : preserves R (is_directory child).
Proof.
  intros st. unfold is_directory, status. run_monad.
  destruct (d_type child); apply R_refl.
Qed.

Lemma preserves_is_other child : preserves R (is_other child).
Proof.
  intros st. unfold is_other, status. run_monad.
  destruct (d_type child); apply R_refl.
Qed.

Lemma preserves_synthesize wd recursive child :
  (forall isdir, preserves R (make_event wd recursive isdir child)) ->
  preserves R (synthesize wd recursive child).
Proof.
  intros H. unfold synthesize.
  apply preserves_bind; [apply preserves_is_other|]. intros other.
  destruct (negb other); [|apply preserves_ret].
  apply preserves_bind; [apply preserves_is_directory|]. intros isdir.
  apply H.
Qed.

End Preservation.

(** ** Bytes and fields of the buffer *)

Lemma byte_val_of z : byte_val (byte_of z) = z mod 256.
Proof.
  unfold byte_val, byte_of.
  assert (0 <= z mod 256 < 256) as H by (apply Z.mod_pos_bound; lia).
  rewrite N_ascii_embedding by lia. lia.
Qed.

Lemma byte_val_bounds c : 0 <= byte_val c < 256.
Proof.
  unfold byte_val. pose proof (N_ascii_bounded c). lia.
Qed.

Lemma u32_of_bytes v :
  byte_val (byte_of v) + 2 ^ 8 * byte_val (byte_of (v / 2 ^ 8))
  + 2 ^ 16 * byte_val (byte_of (v / 2 ^ 16))
  + 2 ^ 24 * byte_val (byte_of (v / 2 ^ 24))
  = v mod 2 ^ 32.
Proof.
  rewrite !byte_val_of.
  change (2 ^ 32) with (256 * (256 * (256 * 256))).
  rewrite (Z.rem_mul_r v 256 (256 * (256 * 256))) by lia.
  rewrite (Z.rem_mul_r (v / 256) 256 (256 * 256)) by lia.
  rewrite (Z.rem_mul_r (v / 256 / 256) 256 256) by lia.
  rewrite !Z.div_div by lia.
  change (2 ^ 8) with 256. change (2 ^ 16) with (256 * 256).
  change (2 ^ 24) with (256 * 256 * 256). lia.
Qed.

Lemma to_int_id z : - 2 ^ 31 <= z < 2 ^ 31 -> to_int z = z.
Proof. intros H. unfold to_int. rewrite Z.mod_small; lia. Qed.

Lemma to_int_range z : - 2 ^ 31 <= to_int z < 2 ^ 31.
Proof.
  unfold to_int. pose proof (Z.mod_pos_bound (z + 2 ^ 31) (2 ^ 32)). lia.
Qed.

Lemma to_int_mod z : to_int (z mod 2 ^ 32) = to_int z.
Proof.
  unfold to_int. rewrite <- (Zplus_mod_idemp_l z). reflexivity.
Qed.

Lemma length_store8 buf off c : List.length (store8 buf off c) = List.length buf.
Proof. unfold store8. destruct (off <? 0); [reflexivity|]. apply length_insert. Qed.

Lemma length_store_bytes cs : forall buf off,
  List.length (store_bytes buf off cs) = List.length buf.
Proof.
  induction cs as [|c cs IH]; intros buf off; cbn; [reflexivity|].
  now rewrite IH, length_store8.
Qed.

Lemma peek_store8 buf off c i :
  peek (store8 buf off c) i
  = if (i =? off) && (0 <=? off) && (off <? Z.of_nat (List.length buf))
    then c else peek buf i.
Proof.
  unfold peek, store8.
  destruct (Z.ltb_spec off 0) as [Ho|Ho].
  - destruct (Z.eqb_spec i off) as [->|_]; cbn [andb]; [|reflexivity].
    destruct (Z.leb_spec 0 off); [lia|reflexivity].
  - destruct (Z.ltb_spec i 0) as [Hi|Hi].
    + destruct (Z.eqb_spec i off); [lia|reflexivity].
    + rewrite !nth_lookup.
      destruct (Z.eqb_spec i off) as [->|Hne]; cbn [andb].
      * destruct (Z.leb_spec 0 off); [|lia]. cbn [andb].
        destruct (Z.ltb_spec off (Z.of_nat (List.length buf))) as [Hl|Hl].
        -- rewrite list_lookup_insert_eq by lia. reflexivity.
        -- rewrite list_insert_ge by lia. reflexivity.
      * rewrite list_lookup_insert_ne by lia. reflexivity.
Qed.

(** Reading after a store of several bytes that fits in the region. *)
Lemma peek_store_bytes cs : forall buf off i,
  0 <= off -> off + Z.of_nat (List.length cs) <= Z.of_nat (List.length buf) ->
  peek (store_bytes buf off cs) i
  = if (off <=? i) && (i <? off + Z.of_nat (List.length cs))
    then nth (Z.to_nat (i - off)) cs NUL else peek buf i.
Proof.
  induction cs as [|c cs IH]; intros buf off i Hoff Hfit; cbn [store_bytes].
  - destruct (Z.leb_spec off i), (Z.ltb_spec i (off + Z.of_nat (@List.length ascii [])));
      cbn [andb]; try reflexivity; cbn in *; lia.
  - cbn [List.length] in *. rewrite IH by (rewrite ?length_store8; lia).
    rewrite peek_store8.
    destruct (Z.leb_spec (off + 1) i), (Z.ltb_spec i (off + 1 + Z.of_nat (List.length cs)));
      cbn [andb].
    + destruct (Z.leb_spec off i); [|lia].
      destruct (Z.ltb_spec i (off + Z.of_nat (S (List.length cs)))); [|lia].
      cbn [andb]. replace (Z.to_nat (i - off)) with (S (Z.to_nat (i - (off + 1)))) by lia.
      reflexivity.
    + destruct (Z.ltb_spec i (off + Z.of_nat (S (List.length cs)))); [lia|].
      rewrite andb_false_r.
      destruct (Z.eqb_spec i off); [lia|reflexivity].
    + destruct (Z.eqb_spec i off) as [->|Hne]; cbn [andb].
      * destruct (Z.leb_spec 0 off); [|lia].
        destruct (Z.ltb_spec off (Z.of_nat (List.length buf))); [|lia].
        destruct (Z.leb_spec off off); [|lia].
        destruct (Z.ltb_spec off (off + Z.of_nat (S (List.length cs)))); [|lia].
        cbn [andb]. now rewrite Z.sub_diag.
      * destruct (Z.leb_spec off i); [lia|reflexivity].
    + lia.
Qed.

Lemma store_bytes_app cs1 : forall cs2 buf off,
  store_bytes buf off (cs1 ++ cs2)
  = store_bytes (store_bytes buf off cs1) (off + Z.of_nat (List.length cs1)) cs2.
Proof.
  induction cs1 as [|c cs1 IH]; intros cs2 buf off; cbn [store_bytes app List.length].
  - now rewrite Z.add_0_r.
  - rewrite IH. f_equal. lia.
Qed.

(** A store into [off, off + length cs) holds there and leaves the rest. *)
Lemma store_bytes_holds cs buf off :
  0 <= off -> off + Z.of_nat (List.length cs) <= Z.of_nat (List.length buf) ->
  holds (store_bytes buf off cs) off cs.
Proof.
  intros Hoff Hfit k Hk. rewrite peek_store_bytes by assumption.
  destruct (Z.leb_spec off (off + Z.of_nat k)); [|lia].
  destruct (Z.ltb_spec (off + Z.of_nat k) (off + Z.of_nat (List.length cs))); [|lia].
  cbn [andb]. f_equal. lia.
Qed.

Lemma store_bytes_elsewhere cs buf off i :
  0 <= off -> off + Z.of_nat (List.length cs) <= Z.of_nat (List.length buf) ->
  i < off \/ off + Z.of_nat (List.length cs) <= i ->
  peek (store_bytes buf off cs) i = peek buf i.
Proof.
  intros Hoff Hfit Hi. rewrite peek_store_bytes by assumption.
  destruct (Z.leb_spec off i), (Z.ltb_spec i (off + Z.of_nat (List.length cs)));
    cbn [andb]; try reflexivity; lia.
Qed.

Lemma holds_app buf off cs1 cs2 :
  holds buf off (cs1 ++ cs2)
  <-> holds buf off cs1 /\ holds buf (off + Z.of_nat (List.length cs1)) cs2.
Proof.
  unfold holds. split.
  - intros H. split.
    + intros k Hk. rewrite H by (rewrite length_app; lia).
      now rewrite app_nth1.
    + intros k Hk.
      replace (off + Z.of_nat (List.length cs1) + Z.of_nat k)
        with (off + Z.of_nat (List.length cs1 + k)) by lia.
      rewrite H by (rewrite length_app; lia).
      rewrite app_nth2 by lia. f_equal. lia.
  - intros [H1 H2] k Hk. rewrite length_app in Hk.
    destruct (Nat.lt_ge_cases k (List.length cs1)) as [Hlt|Hge].
    + rewrite app_nth1 by assumption. now apply H1.
    + rewrite app_nth2 by assumption.
      replace (off + Z.of_nat k)
        with (off + Z.of_nat (List.length cs1) + Z.of_nat (k - List.length cs1)) by lia.
      apply H2. lia.
Qed.

Lemma holds_u32 buf off v : holds buf off (u32_bytes v) -> load_u32 buf off = v mod 2 ^ 32.
Proof.
  intros H. unfold load_u32, load8.
  assert (forall k, (k < 4)%nat ->
            peek buf (off + Z.of_nat k) = nth k (u32_bytes v) NUL) as H'
    by (intros k Hk; now apply H).
  pose proof (H' 0%nat ltac:(lia)) as H0. pose proof (H' 1%nat ltac:(lia)) as H1.
  pose proof (H' 2%nat ltac:(lia)) as H2. pose proof (H' 3%nat ltac:(lia)) as H3.
  change (Z.of_nat 0) with 0 in H0. change (Z.of_nat 1) with 1 in H1.
  change (Z.of_nat 2) with 2 in H2. change (Z.of_nat 3) with 3 in H3.
  rewrite Z.add_0_r in H0. rewrite H0, H1, H2, H3. apply u32_of_bytes.
Qed.

(** The C string read where the region holds a NUL-free string and a NUL. *)
Lemma holds_cstring s : forall buf off,
  0 <= off -> NUL_free s -> holds buf off (chars s ++ [NUL]) ->
  load_cstring buf off = s.
Proof.
  unfold load_cstring.
  induction s as [|c s IH]; intros buf off Hoff Hfree H;
    (destruct (Z.ltb_spec off 0) as [|_]; [lia|]);
    pose proof (H 0%nat) as H0; cbn in H0; rewrite Z.add_0_r in H0;
    specialize (H0 ltac:(lia)); unfold peek in H0;
    (destruct (Z.ltb_spec off 0) as [|_]; [lia|]); rewrite nth_lookup in H0.
  - destruct (buf !! Z.to_nat off) as [x|] eqn:E; cbn in H0.
    + rewrite (drop_S _ _ _ E). cbn. subst x. reflexivity.
    + rewrite drop_ge; [reflexivity|]. now apply lookup_ge_None.
  - assert (c <> NUL) as Hc.
    { intros ->. apply Hfree. now left. }
    destruct (buf !! Z.to_nat off) as [x|] eqn:E; cbn in H0; [|congruence].
    subst x. rewrite (drop_S _ _ _ E). cbn [cstring].
    destruct (Ascii.eqb_spec c NUL) as [|_]; [contradiction|].
    f_equal. specialize (IH buf (off + 1)).
    destruct (Z.ltb_spec (off + 1) 0) as [|_]; [lia|].
    replace (Z.to_nat (off + 1)) with (S (Z.to_nat off)) in IH by lia.
    apply IH; [lia | |].
    + intros Hin. apply Hfree. now right.
    + intros k Hk. specialize (H (S k)). cbn [chars list_ascii_of_string app List.length nth] in H.
      replace (off + 1 + Z.of_nat k) with (off + Z.of_nat (S k)) by lia.
      apply H. unfold chars in Hk. lia.
Qed.

Lemma length_chars s : List.length (chars s) = String.length s.
Proof.
  unfold chars. induction s as [|c s IH]; cbn; [reflexivity | now rewrite IH].
Qed.

Lemma length_encode e :
  Z.of_nat (List.length (encode e))
  = sizeof_event + Z.of_nat (String.length (Event.name e)) + 1.
Proof.
  unfold encode, u32_bytes, sizeof_event.
  rewrite !length_app, length_chars. cbn [List.length]. lia.
Qed.

Lemma length_encode_created wd child :
  Z.of_nat (List.length (encode (created wd child)))
  = sizeof_event + Z.of_nat (String.length (d_name child)) + 1.
Proof. apply length_encode. Qed.

(** A record read back from the bytes that encode it. *)
Lemma holds_event buf off e :
  0 <= off ->
  holds buf off (encode e) ->
  - 2 ^ 31 <= Event.wd e < 2 ^ 31 ->
  0 <= Event.mask e < 2 ^ 32 ->
  0 <= Event.cookie e < 2 ^ 32 ->
  0 <= Event.len e < 2 ^ 32 ->
  NUL_free (Event.name e) ->
  event_at buf off = e.
Proof.
  intros Hoff H Hwd Hmask Hcookie Hlen Hname.
  unfold encode in H.
  apply holds_app in H as [H1 H]. apply holds_app in H as [H2 H].
  apply holds_app in H as [H3 H]. apply holds_app in H as [H4 H].
  change (Z.of_nat (List.length (u32_bytes _))) with 4 in *.
  apply holds_u32 in H1, H2, H3, H4.
  destruct e as [wd m cookie len name]. cbn [Event.wd Event.mask Event.cookie
    Event.len Event.name] in *.
  unfold event_at, event_wd, event_mask, event_cookie, event_len, event_name,
    load_i32, sizeof_event.
  replace (off + 4 + 4) with (off + 8) in * by lia.
  replace (off + 8 + 4) with (off + 12) in * by lia.
  replace (off + 12 + 4) with (off + 16) in * by lia.
  rewrite H1, H2, H3, H4, to_int_mod, to_int_id by assumption.
  rewrite !Z.mod_small by assumption.
  f_equal. apply holds_cstring; [lia | assumption | assumption].
Qed.

(** ** The record that synthesize() writes *)

Lemma sizeof_buffer_eq : sizeof_buffer = 4096.
Proof. reflexivity. Qed.

Lemma padded_len_bounds name :
  (String.length name <= NAME_MAX)%nat ->
  padded_len name = (Z.of_nat (String.length name) + 4) / 4 * 4
  /\ Z.of_nat (String.length name) + 1 <= padded_len name
     <= Z.of_nat (String.length name) + 4.
Proof.
  unfold NAME_MAX. intros H. unfold padded_len, to_uint32, to_size_t.
  set (n := Z.of_nat (String.length name)).
  assert (0 <= n <= 255) as Hn by lia.
  rewrite (Z.mod_small (n + 4)) by lia.
  pose proof (Z.div_mod (n + 4) 4 ltac:(lia)) as Hd.
  pose proof (Z.mod_pos_bound (n + 4) 4 ltac:(lia)) as Hm.
  rewrite Z.mod_small by lia. split; [reflexivity | lia].
Qed.

Lemma record_size_bounds child :
  (String.length (d_name child) <= NAME_MAX)%nat ->
  sizeof_event + Z.of_nat (String.length (d_name child)) + 1 <= record_size child
  /\ record_size child <= sizeof_event + Z.of_nat NAME_MAX + 4.
Proof.
  intros H. destruct (padded_len_bounds _ H) as [_ Hb].
  unfold record_size, NAME_MAX, sizeof_event in *. lia.
Qed.

(** The two tests of the status: they answer when the status can be taken
    and throw the error of stat() when it cannot. *)
Lemma is_directory_eq child st :
  is_directory child st
  = if has_status child then (Done (directory_entry child), st)
    else (Throw (system_error (status_errno child)), st).
Proof.
  unfold is_directory, status, has_status, status_errno, directory_entry.
  run_monad. now destruct (d_type child).
Qed.

Lemma is_other_eq child st :
  is_other child st
  = if has_status child then (Done (other_entry child), st)
    else (Throw (system_error (status_errno child)), st).
Proof.
  unfold is_other, status, has_status, status_errno, other_entry.
  run_monad. now destruct (d_type child).
Qed.

(** A step of the descent of add_watch(). *)
Lemma descend_step (self : M Z) subdir st :
  (let* isdir := is_directory subdir in
   if isdir then self;; ret tt else ret tt) st
  = if has_status subdir
    then if directory_entry subdir then (self;; ret tt) st else (Done tt, st)
    else (Throw (system_error (status_errno subdir)), st).
Proof.
  unfold bind at 1. rewrite is_directory_eq.
  destruct (has_status subdir); [|reflexivity].
  now destruct (directory_entry subdir).
Qed.

Lemma synthesize_eq wd recursive child st :
  synthesize wd recursive child st
  = if has_status child then synthesize_known wd recursive child st
    else (Throw (system_error (status_errno child)), st).
Proof.
  unfold synthesize, synthesize_known. unfold bind at 1. rewrite is_other_eq.
  destruct (has_status child) eqn:E; [|reflexivity].
  destruct (negb (other_entry child)); [|reflexivity].
  unfold bind. now rewrite is_directory_eq, E.
Qed.

Lemma synthesize_skips wd recursive child st :
  has_status child = true ->
  reported st recursive child = false ->
  synthesize wd recursive child st = (Done tt, st).
Proof.
  intros Hstatus. rewrite synthesize_eq, Hstatus.
  unfold reported, synthesize_known, make_event. run_monad.
  destruct (negb (other_entry child)); [|reflexivity].
  cbn [andb]. now intros ->.
Qed.

(** The state after a child has been reported, when its record fits. *)
Lemma synthesize_writes wd recursive child st :
  has_status child = true ->
  reported st recursive child = true ->
  (String.length (d_name child) <= NAME_MAX)%nat ->
  0 <= bytes_in_buffer st ->
  bytes_in_buffer st + record_size child <= sizeof_buffer ->
  synthesize wd recursive child st
  = (Done tt,
     with_buffer (fun b => store_bytes b (bytes_in_buffer st) (encode (created wd child)))
       (with_bytes_in_buffer (bytes_in_buffer st + record_size child) st)).
Proof.
  unfold reported. intros Hstatus Hrep Hname Hb Hfit.
  apply andb_true_iff in Hrep as [Hother Hgate].
  destruct (padded_len_bounds _ Hname) as [_ Hlen].
  rewrite synthesize_eq, Hstatus.
  unfold synthesize_known, make_event. rewrite Hother. run_monad. rewrite Hgate.
  cbn [bytes_in_buffer with_bytes_in_buffer].
  assert (to_int (to_size_t (bytes_in_buffer st)
                  + (sizeof_event + padded_len (d_name child)))
          = bytes_in_buffer st + record_size child) as ->.
  { rewrite sizeof_buffer_eq in *. unfold record_size, sizeof_event, NAME_MAX in *.
    unfold to_size_t. rewrite Z.mod_small by lia.
    rewrite to_int_id; lia. }
  assert ((to_size_t (bytes_in_buffer st + record_size child) >? sizeof_buffer) = false)
    as ->.
  { rewrite sizeof_buffer_eq in *.
    unfold to_size_t, record_size, sizeof_event, NAME_MAX in *.
    rewrite Z.mod_small by lia. lia. }
  f_equal. unfold with_buffer, with_bytes_in_buffer.
  cbn [mask watches buffer bytes_in_buffer bytes_handled trace].
  f_equal.
  unfold encode, created, store_u32.
  cbn [Event.wd Event.mask Event.cookie Event.len Event.name].
  rewrite take_ge by (rewrite length_chars; lia).
  rewrite !store_bytes_app. cbn [u32_bytes List.length].
  rewrite length_chars. unfold sizeof_event. change (Z.of_nat 4) with 4.
  replace (bytes_in_buffer st + 4 + 4) with (bytes_in_buffer st + 8) by lia.
  replace (bytes_in_buffer st + 8 + 4) with (bytes_in_buffer st + 12) by lia.
  replace (bytes_in_buffer st + 12 + 4) with (bytes_in_buffer st + 16) by lia.
  reflexivity.
Qed.

(** The state after a child has been reported, when its record does not
    fit: the cursor has moved past the end and the exception is thrown. *)
Lemma synthesize_overflows wd recursive child st :
  has_status child = true ->
  reported st recursive child = true ->
  (String.length (d_name child) <= NAME_MAX)%nat ->
  0 <= bytes_in_buffer st <= sizeof_buffer ->
  sizeof_buffer < bytes_in_buffer st + record_size child ->
  synthesize wd recursive child st
  = (Throw (system_error EINVAL),
     with_call (c_log err_buffer_underruns)
       (with_bytes_in_buffer (bytes_in_buffer st + record_size child) st)).
Proof.
  unfold reported. intros Hstatus Hrep Hname Hb Hfit.
  apply andb_true_iff in Hrep as [Hother Hgate].
  destruct (padded_len_bounds _ Hname) as [_ Hlen].
  rewrite synthesize_eq, Hstatus.
  unfold synthesize_known, make_event. rewrite Hother. run_monad. rewrite Hgate.
  cbn [bytes_in_buffer with_bytes_in_buffer].
  assert (to_int (to_size_t (bytes_in_buffer st)
                  + (sizeof_event + padded_len (d_name child)))
          = bytes_in_buffer st + record_size child) as ->.
  { rewrite sizeof_buffer_eq in *. unfold record_size, sizeof_event, NAME_MAX in *.
    unfold to_size_t. rewrite Z.mod_small by lia.
    rewrite to_int_id; lia. }
  assert ((to_size_t (bytes_in_buffer st + record_size child) >? sizeof_buffer) = true)
    as ->.
  { rewrite sizeof_buffer_eq in *.
    unfold to_size_t, record_size, sizeof_event, NAME_MAX in *.
    rewrite Z.mod_small by lia. lia. }
  reflexivity.
Qed.

(** ** The loop over the children *)

Lemma records_size_cons child children :
  records_size (child :: children) = record_size child + records_size children.
Proof. reflexivity. Qed.

Lemma records_size_nonneg children :
  Forall (fun child => (String.length (d_name child) <= NAME_MAX)%nat) children ->
  0 <= records_size children.
Proof.
  induction 1 as [|child children H _ IH]; [cbn; lia|].
  rewrite records_size_cons.
  pose proof (record_size_bounds child H). unfold sizeof_event in *. lia.
Qed.

Lemma length_append_records wd children : forall buf off,
  List.length (append_records wd children buf off) = List.length buf.
Proof.
  induction children as [|child children IH]; intros buf off; cbn [append_records];
    [reflexivity|].
  now rewrite IH, length_store_bytes.
Qed.

(** The records are written upwards: what lies below stays. *)
Lemma append_records_below wd children : forall buf off i,
  Forall (fun child => (String.length (d_name child) <= NAME_MAX)%nat) children ->
  0 <= off ->
  off + records_size children <= Z.of_nat (List.length buf) ->
  i < off ->
  peek (append_records wd children buf off) i = peek buf i.
Proof.
  induction children as [|child children IH]; intros buf off i Hnames Hoff Hfit Hi;
    cbn [append_records]; [reflexivity|].
  inversion Hnames as [|? ? Hname Hnames']; subst.
  rewrite records_size_cons in Hfit.
  pose proof (record_size_bounds child Hname) as [Hlo _].
  pose proof (records_size_nonneg children Hnames') as Hpos.
  pose proof (length_encode_created wd child) as Hlen.
  rewrite IH; [| assumption | unfold sizeof_event in *; lia
               | rewrite length_store_bytes; lia | unfold sizeof_event in *; lia].
  apply store_bytes_elsewhere; lia.
Qed.

Lemma created_mask_range child :
  0 <= (if directory_entry child then Z.lor IN_ISDIR IN_CREATE else IN_CREATE) < 2 ^ 32.
Proof.
  destruct (directory_entry child); vm_compute; (split; [discriminate | reflexivity]).
Qed.

(** The records read back, one after another, are the ones written. *)
Lemma append_records_events wd children : forall buf off,
  - 2 ^ 31 <= wd < 2 ^ 31 ->
  Forall (fun child => file_name (d_name child)) children ->
  0 <= off ->
  off + records_size children <= Z.of_nat (List.length buf) ->
  events_from (List.length children) (append_records wd children buf off) off
  = map (created wd) children.
Proof.
  intros buf off Hwd. revert buf off.
  induction children as [|child children IH]; intros buf off Hnames Hoff Hfit;
    [reflexivity|].
  inversion Hnames as [|? ? [Hfree Hname] Hnames']; subst.
  assert (Forall (fun child => (String.length (d_name child) <= NAME_MAX)%nat) children)
    as Hbounds.
  { eapply Forall_impl; [exact Hnames'|]. now intros c [_ H]. }
  rewrite records_size_cons in Hfit.
  pose proof (record_size_bounds child Hname) as [Hlo _].
  pose proof (padded_len_bounds _ Hname) as [_ Hpad].
  pose proof (records_size_nonneg children Hbounds) as Hpos.
  pose proof (length_encode_created wd child) as Hlen.
  cbn [List.length events_from append_records map].
  set (buf1 := store_bytes buf off (encode (created wd child))).
  assert (event_at (append_records wd children buf1 (off + record_size child)) off
          = created wd child) as Hev.
  { apply holds_event; try assumption.
    - intros k Hk.
      rewrite append_records_below;
        [| assumption | unfold sizeof_event in *; lia
         | unfold buf1; rewrite length_store_bytes; lia
         | lia].
      apply store_bytes_holds; [assumption | lia | exact Hk].
    - apply created_mask_range.
    - cbn; lia.
    - cbn [created Event.len]. unfold NAME_MAX in *. lia. }
  rewrite Hev. f_equal.
  assert (event_len (append_records wd children buf1 (off + record_size child)) off
          = padded_len (d_name child)) as ->.
  { change (event_len ?b off) with (Event.len (event_at b off)). now rewrite Hev. }
  rewrite <- Z.add_assoc. fold (record_size child).
  apply IH; [assumption | unfold sizeof_event in *; lia |].
  unfold buf1. rewrite length_store_bytes. lia.
Qed.

Section Synthesize_loop.

Variables (wd : Z) (recursive : bool).

Lemma reported_with_buffer f n st child :
  reported (with_buffer f (with_bytes_in_buffer n st)) recursive child
  = reported st recursive child.
Proof. reflexivity. Qed.

(** When the records fit, the loop writes them all and throws nothing. *)
Lemma synthesize_loop_fits children : forall st,
  let kids := List.filter (reported st recursive) children in
  Forall (fun child => has_status child = true) children ->
  Forall (fun child => (String.length (d_name child) <= NAME_MAX)%nat) kids ->
  0 <= bytes_in_buffer st ->
  bytes_in_buffer st + records_size kids <= sizeof_buffer ->
  for_each children (synthesize wd recursive) st
  = (Done tt,
     with_buffer (fun b => append_records wd kids b (bytes_in_buffer st))
       (with_bytes_in_buffer (bytes_in_buffer st + records_size kids) st)).
Proof.
  induction children as [|child children IH]; intros st kids Hstatus Hnames Hb Hfit.
  - cbn. unfold ret. f_equal. destruct st. unfold with_buffer, with_bytes_in_buffer.
    cbn. f_equal. lia.
  - cbn [for_each]. subst kids. cbn [List.filter] in *.
    inversion Hstatus as [|? ? Hchild Hstatus']; subst.
    destruct (reported st recursive child) eqn:Hrep.
    + inversion Hnames as [|? ? Hname Hnames']; subst.
      rewrite records_size_cons in Hfit.
      pose proof (record_size_bounds child Hname) as [Hlo _].
      pose proof (records_size_nonneg _ Hnames') as Hpos.
      unfold sizeof_event in Hlo.
      erewrite bind_Done; [|apply synthesize_writes; auto; lia].
      set (st1 := with_buffer _ _).
      assert (reported st1 recursive = reported st recursive) as Hsame
        by reflexivity.
      rewrite IH; rewrite ?Hsame.
      * f_equal. unfold st1, with_buffer, with_bytes_in_buffer.
        cbn [mask watches buffer bytes_in_buffer bytes_handled trace
               append_records].
        rewrite records_size_cons. f_equal. lia.
      * exact Hstatus'.
      * exact Hnames'.
      * cbn. lia.
      * cbn [st1 bytes_in_buffer with_buffer with_bytes_in_buffer]. lia.
    + erewrite bind_Done; [|now apply synthesize_skips].
      now apply IH.
Qed.

(** When they do not, the loop ends with the exception, the failure
    having been logged last; the table is as it was. *)
Lemma synthesize_loop_overflows children : forall st,
  let kids := List.filter (reported st recursive) children in
  Forall (fun child => has_status child = true) children ->
  Forall (fun child => (String.length (d_name child) <= NAME_MAX)%nat) kids ->
  0 <= bytes_in_buffer st <= sizeof_buffer ->
  sizeof_buffer < bytes_in_buffer st + records_size kids ->
  exists st',
    for_each children (synthesize wd recursive) st
    = (Throw (system_error EINVAL), st')
    /\ trace st' = c_log err_buffer_underruns :: trace st
    /\ watches st' = watches st.
Proof.
  induction children as [|child children IH]; intros st kids Hstatus Hnames Hb Hfit.
  - cbn in *. lia.
  - cbn [for_each]. subst kids. cbn [List.filter] in *.
    inversion Hstatus as [|? ? Hchild Hstatus']; subst.
    destruct (reported st recursive child) eqn:Hrep.
    + inversion Hnames as [|? ? Hname Hnames']; subst.
      rewrite records_size_cons in Hfit.
      pose proof (record_size_bounds child Hname) as [Hlo _].
      unfold sizeof_event in Hlo.
      destruct (Z.le_gt_cases (bytes_in_buffer st + record_size child) sizeof_buffer)
        as [Hle|Hgt].
      * erewrite bind_Done; [|apply synthesize_writes; auto; lia].
        set (st1 := with_buffer _ _).
        assert (reported st1 recursive = reported st recursive) as Hsame
          by reflexivity.
        destruct (IH st1) as (st' & H1 & H2 & H3); rewrite ?Hsame.
        -- exact Hstatus'.
        -- exact Hnames'.
        -- cbn. lia.
        -- cbn [st1 bytes_in_buffer with_buffer with_bytes_in_buffer]. lia.
        -- exists st'. now repeat split.
      * erewrite bind_Throw; [|apply synthesize_overflows; auto; lia].
        eexists. now repeat split.
    + erewrite bind_Done; [|now apply synthesize_skips].
      now apply IH.
Qed.

End Synthesize_loop.
(** ** add_watch(): the shape of a call *)

Section Add_watch_facts.

Variable os : OS.

Lemma record_watch_eq wd path recursive st :
record_watch wd path recursive st =
match watches st !! wd with
| None => (Done false, with_watches (insert wd (Watch.mk path false)) st)
| Some it =>
    if is_duplicate (Watch.path it) path recursive then (Done true, st)
    else (Done false,
          with_watches (insert wd (Watch.mk path (Watch.in_move it))) st)
end.
Proof.
unfold record_watch. run_monad.
destruct (watches st !! wd) as [it|]; [|reflexivity].
destruct (is_duplicate _ _ _); reflexivity.
Qed.

Lemma add_watch_eq fuel path in_move st :
add_watch os (S fuel) path in_move st =
let st1 := with_call (registration st path) st in
let wd := assigned_wd os st path in
if wd =? -1 then (Done wd, with_call (c_log (warn_cannot_watch path)) st1)
else
  match record_watch wd path (recursive_path path) st1 with
  | (Done true, st2) => (Done wd, st2)
  | (Done false, st2) =>
      match backfill os fuel path in_move wd st2 with
      | (Done _, st3) => (Done wd, st3)
      | (Throw e, st3) => (Throw e, st3)
      | (OutOfFuel, st3) => (OutOfFuel, st3)
      end
  | (Throw e, st2) => (Throw e, st2)
  | (OutOfFuel, st2) => (OutOfFuel, st2)
  end.
Proof.
cbn [add_watch]. unfold assigned_wd, registration, recursive_path, backfill.
run_monad.
destruct (_ =? -1); [reflexivity|].
destruct (record_watch _ _ _ _) as [[[|]|e|] st2]; try reflexivity.
Qed.

End Add_watch_facts.

(** ** add_watch(): what every call respects *)

Section Add_watch_preserves.

Variable os : OS.
Variable R : Inotify -> Inotify -> Prop.
Hypothesis R_refl : forall st, R st st.
Hypothesis R_trans : forall a b c, R a b -> R b c -> R a c.
Hypothesis R_registration :
  forall st path, R st (with_call (registration st path) st).
Hypothesis R_log : forall m, preserves R (log m).
Hypothesis R_record :
  forall wd path recursive st, R st (record_watch wd path recursive st).2.

Lemma descend_preserves self path :
  (forall p, preserves R (self p)) -> preserves R (descend os self path).
Proof.
  intros H. unfold descend. apply preserves_for_each; auto.
  intros subdir _.
  apply preserves_bind; [exact R_trans | now apply preserves_is_directory |].
  intros [|].
  - apply preserves_bind; [exact R_trans | apply H |].
    intros _. now apply preserves_ret.
  - now apply preserves_ret.
Qed.

Lemma add_watch_preserves_when (synth : bool) :
  (synth = true -> forall wd recursive child,
      preserves R (synthesize wd recursive child)) ->
  forall fuel path in_move,
    (in_move = false -> synth = true) ->
    preserves R (add_watch os fuel path in_move).
Proof.
  intros Hsyn fuel. induction fuel as [|fuel IH]; intros path in_move Him st.
  - apply R_refl.
  - rewrite add_watch_eq. cbn zeta.
    pose proof (R_registration st path) as H1.
    destruct (_ =? -1).
    + cbn. eapply R_trans; [exact H1|]. apply (R_log _ _).
    + pose proof (R_record (assigned_wd os st path) path (recursive_path path)
                    (with_call (registration st path) st)) as H2.
      destruct (record_watch _ _ _ _) as [[[|]|e|] st2]; cbn in *;
        try (eapply R_trans; [exact H1 | exact H2]).
      assert (R st2 (backfill os fuel path in_move (assigned_wd os st path) st2).2)
        as H3.
      { unfold backfill. destruct in_move.
        - destruct (recursive_path path); [|apply R_refl].
          apply descend_preserves. intros p. now apply IH.
        - apply preserves_for_each; [exact R_refl | exact R_trans |].
          intros child _. apply Hsyn. now apply Him. }
      destruct (backfill _ _ _ _ _ _) as [[[]|e|] st3]; cbn in *;
        (eapply R_trans; [exact H1 | eapply R_trans; [exact H2 | exact H3]]).
Qed.

(** With [in_move] true nothing is synthesized. *)
Lemma add_watch_silent_preserves fuel path :
  preserves R (add_watch os fuel path true).
Proof.
  apply (add_watch_preserves_when false); [discriminate | discriminate].
Qed.

Lemma add_watch_preserves fuel path in_move :
  (forall wd recursive child, preserves R (synthesize wd recursive child)) ->
  preserves R (add_watch os fuel path in_move).
Proof.
  intros H. apply (add_watch_preserves_when true); auto.
Qed.

End Add_watch_preserves.
(** ** The relations are preorders that the elementary steps respect *)

Lemma same_buffer_refl st : same_buffer st st.
Proof. now repeat split. Qed.

Lemma same_buffer_trans a b c : same_buffer a b -> same_buffer b c -> same_buffer a c.
Proof. unfold same_buffer. intuition congruence. Qed.

Lemma calls_between_refl P st : calls_between P st st.
Proof. split; [reflexivity|]. exists []. now split. Qed.

Lemma calls_between_trans P a b c :
  calls_between P a b -> calls_between P b c -> calls_between P a c.
Proof.
  intros [Hm1 (tr1 & Ht1 & Hf1)] [Hm2 (tr2 & Ht2 & Hf2)].
  split; [congruence|]. exists (tr2 ++ tr1). split.
  - rewrite Ht2, Ht1. now rewrite app_assoc.
  - apply Forall_app. split; [now rewrite <- Hm1 | exact Hf1].
Qed.

Lemma calls_between_call P c st : P (mask st) c -> calls_between P st (with_call c st).
Proof. intros H. split; [reflexivity|]. exists [c]. split; [reflexivity|]. now constructor. Qed.

(** A step that touches neither the mask nor the trace. *)
Lemma calls_between_quiet P st st' :
  mask st' = mask st -> trace st' = trace st -> calls_between P st st'.
Proof. intros Hm Ht. split; [exact Hm|]. exists []. now split. Qed.

Lemma calls_between_weaken (P Q : Z -> call -> Prop) st st' :
  (forall m c, P m c -> Q m c) -> calls_between P st st' -> calls_between Q st st'.
Proof.
  intros H [Hm (tr & Ht & Hf)]. split; [exact Hm|]. exists tr. split; [exact Ht|].
  eapply Forall_impl; [exact Hf | apply H].
Qed.

Lemma keeps_watches_refl st : keeps_watches st st.
Proof. now intros wd H. Qed.

Lemma keeps_watches_trans a b c :
  keeps_watches a b -> keeps_watches b c -> keeps_watches a c.
Proof. intros H1 H2 wd H. now apply H2, H1. Qed.

Lemma raises_no_in_move_refl st : raises_no_in_move st st.
Proof. now intros wd H. Qed.

Lemma raises_no_in_move_trans a b c :
  raises_no_in_move a b -> raises_no_in_move b c -> raises_no_in_move a c.
Proof. intros H1 H2 wd H. now apply H1, H2. Qed.

(** What synthesize() leaves alone: the mask and the table; it makes no
    call but to the logger. *)
Lemma synthesize_calls P wd recursive child :
  (forall m msg, P m (c_log msg)) ->
  preserves (calls_between P) (synthesize wd recursive child).
Proof.
  intros HP.
  pose proof (calls_between_refl P) as Hr.
  pose proof (calls_between_trans P) as Ht.
  assert (forall f, (forall st, mask (f st) = mask st) ->
                    (forall st, trace (f st) = trace st) ->
                    preserves (calls_between P) (modify f)) as Hq.
  { intros f H1 H2. apply preserves_modify. intros st.
    now apply calls_between_quiet. }
  apply preserves_synthesize; [exact Hr | exact Ht |]. intros isdir.
  unfold make_event.
  apply preserves_bind; [exact Ht | now apply preserves_get |]. intros st0.
  destruct (_ || _); [|now apply preserves_ret].
  apply preserves_bind; [exact Ht | now apply Hq |]. intros _.
  apply preserves_bind; [exact Ht | now apply preserves_get |]. intros st1.
  destruct (_ >? _).
  - apply preserves_bind; [exact Ht | | intros _; now apply preserves_throw].
    apply preserves_modify. intros st. apply calls_between_call, HP.
  - repeat (apply preserves_bind; [exact Ht | now apply Hq | intros _]).
    now apply Hq.
Qed.

Lemma synthesize_keeps_table wd recursive child st :
  watches (synthesize wd recursive child st).2 = watches st
  /\ mask (synthesize wd recursive child st).2 = mask st.
Proof.
  rewrite synthesize_eq. destruct (has_status child); [|now split].
  unfold synthesize_known, make_event. run_monad.
  destruct (negb (other_entry child)); [|now split].
  destruct (_ || _); [|now split].
  cbn. destruct (_ >? _); now split.
Qed.

Section Add_watch_calls.

Variable os : OS.

Lemma add_watch_calls P fuel path in_move :
  (forall m p, P m (c_inotify_add_watch p (registration_mask m (recursive_path p)))) ->
  (forall m msg, P m (c_log msg)) ->
  preserves (calls_between P) (add_watch os fuel path in_move).
Proof.
  intros Hreg Hlog. apply add_watch_preserves.
  - apply calls_between_refl.
  - apply calls_between_trans.
  - intros st p. apply calls_between_call. apply Hreg.
  - intros m. apply preserves_modify. intros st. apply calls_between_call, Hlog.
  - intros wd p r st. rewrite record_watch_eq.
    destruct (watches st !! wd) as [it|]; [destruct (is_duplicate _ _ _)|];
      now apply calls_between_quiet.
  - intros wd r child. now apply synthesize_calls.
Qed.

(** The first call of add_watch() is the registration of its path. *)
Lemma add_watch_registers_first fuel path in_move st :
  exists tr,
    trace (add_watch os (S fuel) path in_move st).2
    = tr ++ registration st path :: trace st.
Proof.
  rewrite add_watch_eq. cbn zeta.
  set (st1 := with_call (registration st path) st).
  destruct (_ =? -1).
  - now exists [c_log (warn_cannot_watch path)].
  - assert (trace (record_watch (assigned_wd os st path) path
                     (recursive_path path) st1).2 = trace st1) as H2.
    { rewrite record_watch_eq.
      destruct (watches st1 !! _) as [it|]; [destruct (is_duplicate _ _ _)|];
        reflexivity. }
    destruct (record_watch _ _ _ _) as [[[|]|e|] st2]; cbn in H2;
      try (exists []; cbn; now rewrite H2).
    assert (exists tr, trace (backfill os fuel path in_move
                (assigned_wd os st path) st2).2 = tr ++ trace st2) as (tr & H3).
    { assert (preserves (calls_between (fun _ _ => True))
                (backfill os fuel path in_move (assigned_wd os st path))) as H.
      { unfold backfill. destruct in_move.
        - destruct (recursive_path path);
            [|apply preserves_ret, calls_between_refl].
          apply descend_preserves;
            [apply calls_between_refl | apply calls_between_trans |].
          intros p. now apply add_watch_calls.
        - apply preserves_for_each;
            [apply calls_between_refl | apply calls_between_trans |].
          intros child _. now apply synthesize_calls. }
      destruct (H st2) as [_ (tr & Htr & _)]. now exists tr. }
    exists tr.
    destruct (backfill _ _ _ _ _ _) as [[[]|e|] st3]; cbn in *;
      now rewrite H3, H2.
Qed.

End Add_watch_calls.

(** ** C7: the registration mask *)

(** C7, as stated, fails: with the interest mask IN_MODIFY the mask that
    add_watch() registers [/tmp/b/] with is IN_MODIFY | IN_ONLYDIR |
    IN_MOVE_SELF, which holds no watch-deleted flag, be it IN_DELETE_SELF or
    IN_IGNORED, and so differs from the mask of the statement. *)
Lemma C7_counterexample :
  trace (add_watch demo_os 1 "/tmp/b/" true (Inotify_new IN_MODIFY zeroed)).2
    = [c_inotify_add_watch "/tmp/b/" 0x1000802]
  /\ Z.land 0x1000802 IN_DELETE_SELF = 0
  /\ Z.land 0x1000802 IN_IGNORED = 0
  /\ 0x1000802 <> spec_registration_mask IN_DELETE_SELF IN_MODIFY false
  /\ 0x1000802 <> spec_registration_mask IN_IGNORED IN_MODIFY false.
Proof. repeat split; discriminate. Qed.

(** C7 (amended): every registration that a call of add_watch() makes, for
    its path and for the subdirectories it descends into, carries the
    interest mask united with IN_ONLYDIR and IN_MOVE_SELF, and with
    IN_CREATE and IN_MOVED_TO when the path registered is recursive; the
    first call made is the registration of the path itself; bit by bit, the
    mask holds nothing else (no watch-deleted flag is added). *)
Theorem C7_registration_mask os fuel path in_move st :
  (exists tr,
      trace (add_watch os (S fuel) path in_move st).2 = tr ++ trace st
      /\ Forall (well_masked (mask st)) tr
      /\ last tr = Some (c_inotify_add_watch path
                           (registration_mask (mask st) (recursive_path path))))
  /\ forall mask0 recursive n,
      Z.testbit (registration_mask mask0 recursive) n
      = Z.testbit mask0 n || Z.testbit IN_ONLYDIR n || Z.testbit IN_MOVE_SELF n
        || (recursive && (Z.testbit IN_CREATE n || Z.testbit IN_MOVED_TO n)).
Proof.
  split.
  - destruct (add_watch_calls os well_masked (S fuel) path in_move) with (st := st)
      as [_ (tr & Htr & Hf)].
    + intros m p p' m' [= <- <-]. reflexivity.
    + intros m msg p m' [=].
    + destruct (add_watch_registers_first os fuel path in_move st) as (tr' & Htr').
      exists tr. repeat split; [exact Htr | exact Hf |].
      assert (tr = tr' ++ [registration st path]) as ->.
      { apply (app_inv_tail (trace st)). rewrite <- Htr, Htr'.
        now rewrite <- app_assoc. }
      now rewrite last_snoc.
  - intros mask0 recursive n. unfold registration_mask.
    rewrite !Z.lor_spec. destruct recursive; cbn [andb].
    + now rewrite Z.lor_spec.
    + now rewrite Z.bits_0, orb_false_r.
Qed.

(** ** C9: a path that cannot be watched *)

(** C9: when the kernel refuses the path (it answers -1, as it does for an
    empty path, a path that is not a directory, a missing path, a directory
    that cannot be read), add_watch() logs the warning, returns -1, throws
    nothing, and leaves the table and the buffer as they were. *)
Theorem C9_unwatchable_path os fuel path in_move st :
  assigned_wd os st path = -1 ->
  let r := add_watch os (S fuel) path in_move st in
  r.1 = Done (-1)
  /\ watches r.2 = watches st
  /\ same_buffer st r.2
  /\ trace r.2 = c_log (warn_cannot_watch path) :: registration st path :: trace st.
Proof.
  intros H. cbn zeta. rewrite add_watch_eq. cbn zeta. rewrite H. cbn.
  repeat split.
Qed.

Lemma C9_unwatchable_path_witness :
  let r := add_watch demo_os 1 "" false (Inotify_new IN_ALL_EVENTS zeroed) in
  r.1 = Done (-1)
  /\ watches r.2 = watches (Inotify_new IN_ALL_EVENTS zeroed)
  /\ same_buffer (Inotify_new IN_ALL_EVENTS zeroed) r.2
  /\ trace r.2 = c_log (warn_cannot_watch "")
                  :: registration (Inotify_new IN_ALL_EVENTS zeroed) ""
                  :: trace (Inotify_new IN_ALL_EVENTS zeroed).
Proof.
  apply (C9_unwatchable_path demo_os 0 "" false (Inotify_new IN_ALL_EVENTS zeroed)).
  reflexivity.
Defined.

(** ** C2: adding a watched path again *)

Lemma mismatch_app path0 rest : mismatch path0 (path0 +:+ rest) = (EmptyString, rest).
Proof.
  induction path0 as [|c path0 IH].
  - now destruct rest.
  - change (String c path0 +:+ rest) with (String c (path0 +:+ rest)).
    cbn [mismatch]. now rewrite Ascii.eqb_refl.
Qed.

Lemma mismatch_same path0 : mismatch path0 path0 = (EmptyString, EmptyString).
Proof.
  induction path0 as [|c path0 IH]; cbn [mismatch]; [reflexivity|].
  now rewrite Ascii.eqb_refl.
Qed.

Lemma back_app_slash path0 : back (path0 +:+ "/") = "/"%char.
Proof.
  induction path0 as [|c path0 IH]; [reflexivity|].
  change (String c path0 +:+ "/") with (String c (path0 +:+ "/")).
  cbn [back]. rewrite IH. now destruct path0.
Qed.

Lemma is_duplicate_same path0 recursive : is_duplicate path0 path0 recursive = true.
Proof. unfold is_duplicate. now rewrite mismatch_same. Qed.

Lemma is_duplicate_slash path0 :
  is_duplicate path0 (path0 +:+ "/") (recursive_path (path0 +:+ "/")) = true.
Proof.
  unfold is_duplicate, recursive_path, ends_with_slash.
  now rewrite mismatch_app, back_app_slash.
Qed.

(** C2: when the identifier that the kernel gives to [path] is in the table
    with the very same path, or with the path less its one trailing slash,
    add_watch() returns that identifier, leaves the table and the buffer as
    they are, and makes no call but the registration itself: no descent, no
    synthesized event; and so does any further such call. *)
Theorem C2_add_watch_idempotent os fuel path in_move st it :
  assigned_wd os st path <> -1 ->
  watches st !! assigned_wd os st path = Some it ->
  path = Watch.path it \/ path = Watch.path it +:+ "/" ->
  let r := add_watch os (S fuel) path in_move st in
  r.1 = Done (assigned_wd os st path)
  /\ watches r.2 = watches st
  /\ same_buffer st r.2
  /\ trace r.2 = registration st path :: trace st
  /\ forall fuel' in_move',
      add_watch os (S fuel') path in_move' r.2
      = (Done (assigned_wd os st path), with_call (registration st path) r.2).
Proof.
  intros Hwd Hit Hpath.
  assert (is_duplicate (Watch.path it) path (recursive_path path) = true) as Hdup.
  { destruct Hpath as [->| ->]; [apply is_duplicate_same | apply is_duplicate_slash]. }
  assert (forall fuel0 in_move0 st0,
             mask st0 = mask st -> watches st0 = watches st ->
             add_watch os (S fuel0) path in_move0 st0
             = (Done (assigned_wd os st path), with_call (registration st path) st0))
    as Hcall.
  { intros fuel0 in_move0 st0 Hm Hw. rewrite add_watch_eq. cbn zeta.
    unfold assigned_wd, registration in *. rewrite Hm.
    destruct (Z.eqb_spec (inotify_add_watch os path
                (registration_mask (mask st) (recursive_path path))) (-1))
      as [E|_]; [contradiction|].
    rewrite record_watch_eq. cbn [watches with_call]. rewrite Hw, Hit, Hdup.
    reflexivity. }
  cbn zeta. rewrite (Hcall fuel in_move st eq_refl eq_refl). cbn.
  repeat split. intros fuel' in_move'. now apply Hcall.
Qed.

Lemma C2_add_watch_idempotent_witness :
  let st := (add_watch demo_os 2 "/tmp/b" true (Inotify_new IN_ALL_EVENTS zeroed)).2 in
  let r := add_watch demo_os 1 "/tmp/b/" false st in
  r.1 = Done 3
  /\ watches r.2 = watches st
  /\ same_buffer st r.2
  /\ trace r.2 = registration st "/tmp/b/" :: trace st
  /\ forall fuel' in_move',
      add_watch demo_os (S fuel') "/tmp/b/" in_move' r.2
      = (Done 3, with_call (registration st "/tmp/b/") r.2).
Proof.
  cbn zeta.
  apply (C2_add_watch_idempotent demo_os 0 "/tmp/b/" false _
           (Watch.mk "/tmp/b" false)).
  - discriminate.
  - reflexivity.
  - right. reflexivity.
Defined.

(** ** C5: the silent backfill *)

Lemma both_refl (R1 R2 : Inotify -> Inotify -> Prop) :
  (forall st, R1 st st) -> (forall st, R2 st st) -> forall st, both R1 R2 st st.
Proof. intros H1 H2 st. now split. Qed.

Lemma both_trans (R1 R2 : Inotify -> Inotify -> Prop) :
  (forall a b c, R1 a b -> R1 b c -> R1 a c) ->
  (forall a b c, R2 a b -> R2 b c -> R2 a c) ->
  forall a b c, both R1 R2 a b -> both R1 R2 b c -> both R1 R2 a c.
Proof. intros H1 H2 a b c [? ?] [? ?]. split; eauto. Qed.

Lemma preserves_both (R1 R2 : Inotify -> Inotify -> Prop) {A} (m : M A) :
  preserves R1 m -> preserves R2 m -> preserves (both R1 R2) m.
Proof. intros H1 H2 st. split; [apply H1 | apply H2]. Qed.

(** A loop whose rounds all end normally ends normally, and what a round
    establishes for its element still holds at the end when the later
    rounds respect a relation under which it is stable. *)
Section For_each.

Context {A : Type} (body : A -> M unit).

Lemma for_each_Done (l : list A) :
  (forall x st, In x l -> (body x st).1 = Done tt) ->
  forall st, (for_each l body st).1 = Done tt.
Proof.
  induction l as [|x l IH]; intros H st; cbn; [reflexivity|].
  unfold bind. pose proof (H x st (or_introl eq_refl)) as Hx.
  destruct (body x st) as [[[]|e|] st']; cbn in Hx; try discriminate.
  apply IH. intros y st0 Hy. apply H. now right.
Qed.

Variable R : Inotify -> Inotify -> Prop.
Hypothesis R_refl : forall st, R st st.
Hypothesis R_trans : forall a b c, R a b -> R b c -> R a c.

Lemma for_each_each (l : list A) (Q : A -> Inotify -> Prop) st0 :
  (forall x, In x l -> preserves R (body x)) ->
  (forall x st, In x l -> R st0 st ->
      (body x st).1 = Done tt /\ Q x (body x st).2) ->
  (forall x st st', Q x st -> R st st' -> Q x st') ->
  forall st, R st0 st ->
    forall x, In x l -> Q x (for_each l body st).2.
Proof.
  intros HR HQ Hstable. induction l as [|y l IH]; intros st Hst x Hx.
  - destruct Hx.
  - cbn. unfold bind.
    destruct (HQ y st (or_introl eq_refl) Hst) as [Hy1 Hy2].
    pose proof (HR y (or_introl eq_refl) st) as Hy3.
    destruct (body y st) as [[[]|e|] st'] eqn:E; cbn in Hy1; try discriminate.
    cbn in Hy2, Hy3.
    assert (preserves R (for_each l body)) as Hl.
    { apply preserves_for_each; auto. intros z Hz. apply HR. now right. }
    destruct Hx as [<-|Hx].
    + eapply Hstable; [exact Hy2 | apply Hl].
    + apply IH; auto.
      * intros z Hz. apply HR. now right.
      * intros z st1 Hz. apply HQ. now right.
      * eapply R_trans; [exact Hst | exact Hy3].
Qed.

End For_each.

Section Silent_backfill.

Variable os : OS.

Lemma add_watch_silent_frame fuel path :
  preserves same_buffer (add_watch os fuel path true).
Proof.
  apply add_watch_silent_preserves.
  - apply same_buffer_refl.
  - apply same_buffer_trans.
  - intros st p. now repeat split.
  - intros m st. now repeat split.
  - intros wd p r st. rewrite record_watch_eq.
    destruct (watches st !! wd) as [it|]; [destruct (is_duplicate _ _ _)|];
      now repeat split.
Qed.

Lemma record_watch_keeps wd path recursive st :
  keeps_watches st (record_watch wd path recursive st).2.
Proof.
  rewrite record_watch_eq. intros k Hk.
  destruct (watches st !! wd) as [it|] eqn:E; [destruct (is_duplicate _ _ _)|];
    cbn; auto.
  - destruct (decide (wd = k)) as [->|Hne];
      [rewrite lookup_insert_eq; eauto | now rewrite lookup_insert_ne].
  - destruct (decide (wd = k)) as [->|Hne];
      [rewrite lookup_insert_eq; eauto | now rewrite lookup_insert_ne].
Qed.

Lemma add_watch_keeps_watches fuel path in_move :
  preserves keeps_watches (add_watch os fuel path in_move).
Proof.
  apply add_watch_preserves.
  - apply keeps_watches_refl.
  - apply keeps_watches_trans.
  - now intros st p k Hk.
  - now intros m st k Hk.
  - apply record_watch_keeps.
  - intros wd r child st k Hk.
    now rewrite (proj1 (synthesize_keeps_table wd r child st)).
Qed.

Lemma add_watch_mask fuel path in_move st :
  mask (add_watch os fuel path in_move st).2 = mask st.
Proof.
  now destruct (add_watch_calls os (fun _ _ => True) fuel path in_move) with (st := st).
Qed.

(** What add_watch() returns, when it returns, is the identifier that the
    kernel gave to the path; unless it is -1 the table holds it. *)
Lemma add_watch_returns fuel path in_move st wd :
  (add_watch os fuel path in_move st).1 = Done wd ->
  wd = assigned_wd os st path
  /\ (wd <> -1 -> is_Some (watches (add_watch os fuel path in_move st).2 !! wd)).
Proof.
  destruct fuel as [|fuel]; [discriminate|].
  rewrite add_watch_eq. cbn zeta.
  set (st1 := with_call (registration st path) st).
  destruct (Z.eqb_spec (assigned_wd os st path) (-1)) as [E|E].
  - cbn. intros [= <-]. split; [reflexivity | contradiction].
  - pose proof (record_watch_eq (assigned_wd os st path) path
                  (recursive_path path) st1) as Hrec.
    assert (is_Some (watches (record_watch (assigned_wd os st path) path
              (recursive_path path) st1).2 !! assigned_wd os st path)) as Hin.
    { rewrite Hrec.
      destruct (watches st1 !! _) as [it|] eqn:Eit;
        [destruct (is_duplicate _ _ _)|]; cbn [snd with_watches watches].
      - rewrite Eit. eauto.
      - rewrite lookup_insert_eq. eauto.
      - rewrite lookup_insert_eq. eauto. }
    destruct (record_watch _ _ _ _) as [[[|]|e|] st2]; cbn in Hin |- *;
      try discriminate.
    + intros [= <-]. split; [reflexivity | now intros _].
    + assert (keeps_watches st2
                (backfill os fuel path in_move (assigned_wd os st path) st2).2)
        as Hk.
      { unfold backfill. destruct in_move.
        - destruct (recursive_path path); [|apply keeps_watches_refl].
          apply descend_preserves;
            [apply keeps_watches_refl | apply keeps_watches_trans |].
          intros p. apply add_watch_keeps_watches.
        - apply preserves_for_each;
            [apply keeps_watches_refl | apply keeps_watches_trans |].
          intros child _ st0 k Hk.
          now rewrite (proj1 (synthesize_keeps_table _ _ child st0)). }
      destruct (backfill _ _ _ _ _ _) as [[[]|e|] st3]; cbn in Hk |- *;
        try discriminate.
      intros [= <-]. split; [reflexivity | intros _; now apply Hk].
Qed.

(** With enough fuel a silent call ends normally. *)
Lemma add_watch_silent_Done fuel : forall path st,
  known_statuses os ->
  deep_enough os fuel path ->
  (add_watch os fuel path true st).1 = Done (assigned_wd os st path).
Proof.
  induction fuel as [|fuel IH]; intros path st Hknown Hdeep; [destruct Hdeep|].
  rewrite add_watch_eq. cbn zeta.
  destruct (_ =? -1); [reflexivity|].
  rewrite record_watch_eq.
  set (st1 := with_call (registration st path) st).
  assert (forall st2, (backfill os fuel path true (assigned_wd os st path) st2).1
                      = Done tt) as Hb.
  { intros st2. unfold backfill. destruct (recursive_path path); [|reflexivity].
    unfold descend. apply for_each_Done. intros subdir st3 Hin.
    rewrite descend_step, (Hknown _ _ Hin).
    destruct (directory_entry subdir) eqn:Ed; [|reflexivity].
    unfold bind. rewrite (surjective_pairing (add_watch _ _ _ _ _)).
    rewrite IH; [reflexivity | exact Hknown |]. now apply Hdeep. }
  destruct (watches st1 !! _) as [it|]; [destruct (is_duplicate _ _ _)|];
    try reflexivity.
  - specialize (Hb (with_watches (insert (assigned_wd os st path)
                      (Watch.mk path (Watch.in_move it))) st1)).
    now destruct (backfill _ _ _ _ _ _) as [[[]|e|] st3].
  - specialize (Hb (with_watches (insert (assigned_wd os st path)
                      (Watch.mk path false)) st1)).
    now destruct (backfill _ _ _ _ _ _) as [[[]|e|] st3].
Qed.

End Silent_backfill.

Section Silent_backfill_claim.

Variable os : OS.

Lemma grows_refl st : grows st st.
Proof. apply both_refl; [apply calls_between_refl | apply keeps_watches_refl]. Qed.

Lemma grows_trans a b c : grows a b -> grows b c -> grows a c.
Proof. apply both_trans; [apply calls_between_trans | apply keeps_watches_trans]. Qed.

Lemma add_watch_grows fuel path in_move : preserves grows (add_watch os fuel path in_move).
Proof.
  apply preserves_both; [now apply add_watch_calls | apply add_watch_keeps_watches].
Qed.

Lemma descend_installs fuel path st st2 :
  known_statuses os ->
  deep_enough os (S fuel) path ->
  grows st st2 ->
  let r := descend os (fun p => add_watch os fuel p true) path st2 in
  r.1 = Done tt
  /\ forall subdir, In subdir (directory_iterator os path) ->
       installed os st path subdir r.2.
Proof.
  intros Hknown Hdeep Hst2. cbn zeta. unfold descend.
  set (body := fun subdir : dirent => _).
  assert (forall subdir st3, In subdir (directory_iterator os path) ->
            (body subdir st3).1 = Done tt) as Hdone.
  { intros subdir st3 Hin. unfold body.
    rewrite descend_step, (Hknown _ _ Hin).
    destruct (directory_entry subdir) eqn:Ed; [|reflexivity].
    unfold bind. rewrite (surjective_pairing (add_watch _ _ _ _ _)).
    rewrite add_watch_silent_Done; [reflexivity | exact Hknown |].
    now apply Hdeep. }
  split; [apply for_each_Done; auto|].
  apply (for_each_each body grows grows_refl grows_trans _
           (installed os st path) st2).
  - intros subdir _. unfold body.
    apply preserves_bind;
      [apply grows_trans | apply preserves_is_directory, grows_refl |].
    intros [|].
    + apply preserves_bind; [apply grows_trans | apply add_watch_grows |].
      intros _. apply preserves_ret, grows_refl.
    + apply preserves_ret, grows_refl.
  - intros subdir st3 Hin Hst3. split; [now apply Hdone|].
    intros Hdir. cbn zeta.
    assert (mask st3 = mask st) as Hmask.
    { destruct Hst2 as [[H2 _] _], Hst3 as [[H3 _] _]. congruence. }
    unfold body. rewrite descend_step, (Hknown _ _ Hin), Hdir. unfold bind.
    pose proof (Hdeep subdir Hin Hdir) as Hdeep'.
    pose proof (add_watch_silent_Done os fuel _ st3 Hknown Hdeep') as Hret.
    destruct (add_watch_returns os fuel _ true st3 _ Hret) as [_ Hinst].
    destruct fuel as [|fuel]; [destruct Hdeep'|].
    destruct (add_watch_registers_first os fuel
                (path_join path (d_name subdir)) true st3) as (tr & Htr).
    destruct (add_watch os (S fuel) _ true st3) as [[wd'|e|] st4];
      cbn in Hret, Hinst, Htr |- *; try discriminate.
    unfold registration, assigned_wd in *. rewrite <- Hmask. split.
    + rewrite Htr. apply in_or_app. right. now left.
    + exact Hinst.
  - intros subdir st3 st4 HQ [[_ (tr & Htr & _)] Hkeep] Hdir.
    destruct (HQ Hdir) as [H1 H2]. split.
    + rewrite Htr. apply in_or_app. now right.
    + intros Hne. apply Hkeep. now apply H2.
  - apply grows_refl.
Qed.

End Silent_backfill_claim.

(** ** Duplicates and joined paths *)

Lemma mismatch_end path0 : forall p d1 d2,
  mismatch path0 p = (d1, d2) -> is_end d1 = true -> p = path0 +:+ d2.
Proof.
  induction path0 as [|c0 r0 IH]; intros p d1 d2 H Hend.
  - destruct p; cbn in H; injection H as <- <-; reflexivity.
  - destruct p as [|c r].
    + cbn in H. injection H as <- <-. discriminate.
    + cbn [mismatch] in H. destruct (Ascii.eqb_spec c0 c) as [->|Hne].
      * change (String c r0 +:+ d2) with (String c (r0 +:+ d2)).
        f_equal. now apply (IH r d1 d2).
      * injection H as <- <-. discriminate.
Qed.

Lemma app_empty_r s : s +:+ EmptyString = s.
Proof.
  induction s as [|c s IH]; [reflexivity|].
  change (String c s +:+ EmptyString) with (String c (s +:+ EmptyString)).
  now rewrite IH.
Qed.

Lemma back_app_char s c : back (s +:+ String c EmptyString) = c.
Proof.
  induction s as [|a s IH]; [reflexivity|].
  change (String a s +:+ String c EmptyString)
    with (String a (s +:+ String c EmptyString)).
  cbn [back]. destruct (s +:+ String c EmptyString) eqn:E; [|exact IH].
  destruct s; discriminate.
Qed.

Lemma is_duplicate_true path0 p :
  is_duplicate path0 p (recursive_path p) = true ->
  p = path0 \/ p = path0 +:+ "/".
Proof.
  unfold is_duplicate. destruct (mismatch path0 p) as [d1 d2] eqn:Hm. cbn [fst snd].
  intros H. apply andb_true_iff in H as [Hend H].
  pose proof (mismatch_end _ _ _ _ Hm Hend) as Hp.
  apply orb_true_iff in H as [H|H].
  - left. destruct d2; [|discriminate]. now rewrite app_empty_r in Hp.
  - right. apply andb_true_iff in H as [Hrec Hlen].
    destruct d2 as [|c [|]]; try discriminate.
    unfold recursive_path in Hrec. rewrite negb_involutive in Hrec.
    unfold ends_with_slash in Hrec. rewrite Hp, back_app_char in Hrec.
    apply Ascii.eqb_eq in Hrec. now subst c.
Qed.

Lemma back_app a : forall b, b <> EmptyString -> back (a +:+ b) = back b.
Proof.
  induction a as [|x a IH]; intros b Hb; [reflexivity|].
  change (String x a +:+ b) with (String x (a +:+ b)).
  cbn [back]. destruct (a +:+ b) eqn:E; [|rewrite <- E; now apply IH].
  destruct a, b; try discriminate. contradiction.
Qed.

Lemma recursive_path_join p name :
  child_name name -> recursive_path (path_join p name) = true.
Proof.
  intros [Hname Hslash]. unfold recursive_path, ends_with_slash in *.
  assert (back (path_join p name) = back name) as ->; [|now rewrite Hslash].
  unfold path_join. destruct p as [|x p]; [reflexivity|].
  destruct name as [|c r]; [contradiction|].
  destruct (_ || _); [now apply back_app|].
  rewrite back_app by discriminate.
  change ("/" +:+ String c r) with (String "/" (String c r)). reflexivity.
Qed.


Lemma string_length_app a b :
  String.length (a +:+ b) = (String.length a + String.length b)%nat.
Proof.
  induction a as [|x a IH]; [reflexivity|].
  change (String x a +:+ b) with (String x (a +:+ b)). cbn. now rewrite IH.
Qed.

Lemma path_join_longer p name :
  name <> EmptyString ->
  (String.length p < String.length (path_join p name))%nat.
Proof.
  intros Hne. unfold path_join. destruct p as [|x p].
  - destruct name; [contradiction | cbn; lia].
  - destruct name as [|c r]; [contradiction|].
    destruct (_ || _); rewrite !string_length_app; cbn; lia.
Qed.

(** ** The descent, at every depth *)

(** A loop whose body keeps an invariant [I] and establishes [Q] of the
    element it handles. *)
Lemma for_each_inv {A} (body : A -> M unit) (I : Inotify -> Prop)
  (Q : A -> Inotify -> Prop) (l : list A) :
  (forall x st, In x l -> I st ->
      (body x st).1 = Done tt /\ I (body x st).2 /\ Q x (body x st).2) ->
  (forall x y st, In y l -> I st -> Q x st -> Q x (body y st).2) ->
  forall st, I st ->
    (for_each l body st).1 = Done tt
    /\ I (for_each l body st).2
    /\ (forall x, Q x st -> Q x (for_each l body st).2)
    /\ (forall x, In x l -> Q x (for_each l body st).2).
Proof.
  induction l as [|a l IH]; intros Hstep Hstable st Hst.
  - cbn. repeat split; [exact Hst | auto | intros x []].
  - destruct (Hstep a st (or_introl eq_refl) Hst) as (Hdone & HI & HQ).
    cbn [for_each]. unfold bind.
    destruct (body a st) as [[[]|e|] st1] eqn:E; cbn [fst snd] in *;
      try discriminate.
    destruct (IH (fun x s Hx => Hstep x s (or_intror Hx))
                 (fun x y s Hy => Hstable x y s (or_intror Hy)) st1 HI)
      as (H1 & H2 & H3 & H4).
    split; [exact H1|]. split; [exact H2|]. split.
    + intros x Hx. apply H3.
      pose proof (Hstable x a st (or_introl eq_refl) Hst Hx) as H.
      now rewrite E in H.
    + intros x [<-|Hx]; [now apply H3 | now apply H4].
Qed.

Section Descent.

Variable os : OS.
Variable m : Z.
Hypothesis Hknown : known_statuses os.
Hypothesis Hnames : child_names os.

Lemma below_trans p q x : below os p q -> below os q x -> below os p x.
Proof.
  intros Hpq Hqx. induction Hqx as [|x subdir _ IH Hin Hdir]; [exact Hpq|].
  now apply below_child.
Qed.

Lemma below_inv p x :
  below os p x ->
  x = p
  \/ exists subdir,
       In subdir (directory_iterator os p)
       /\ directory_entry subdir = true
       /\ below os (path_join p (d_name subdir)) x.
Proof.
  intros H. induction H as [|q subdir _ IH Hin Hdir]; [now left|].
  right. destruct IH as [->|(c & Hc & Hd & Hbelow)].
  - exists subdir. repeat split; auto. apply below_self.
  - exists c. repeat split; auto. now apply below_child.
Qed.

Lemma below_length p q :
  below os p q -> (String.length p <= String.length q)%nat.
Proof.
  intros H. induction H as [|q subdir _ IH Hin _]; [lia|].
  destruct (Hnames q subdir Hin) as [Hne _].
  pose proof (path_join_longer q (d_name subdir) Hne). lia.
Qed.

Lemma below_child_neq p subdir q :
  In subdir (directory_iterator os p) ->
  below os (path_join p (d_name subdir)) q -> p <> q.
Proof.
  intros Hin Hq ->. apply below_length in Hq.
  destruct (Hnames q subdir Hin) as [Hne _].
  pose proof (path_join_longer q (d_name subdir) Hne). lia.
Qed.

Lemma below_recursive p q :
  recursive_path p = true -> below os p q -> recursive_path q = true.
Proof.
  intros Hp H. destruct H as [|q subdir _ Hin _]; [exact Hp|].
  apply recursive_path_join. now apply (Hnames q).
Qed.

Lemma watched_grows st st' q :
  grows st st' -> watched os m st q -> watched os m st' q.
Proof.
  intros [[_ (tr & Htr & _)] Hkeep] [Hreg Hin]. split.
  - rewrite Htr. apply in_or_app. now right.
  - now apply Hkeep.
Qed.

Lemma settled_grows st st' p :
  grows st st' -> settled os m st p -> settled os m st' p.
Proof. intros Hg H q Hq. apply (watched_grows st); auto. Qed.

Lemma recursive_not_duplicate x q :
  recursive_path q = true -> x <> q ->
  is_duplicate x q (recursive_path q) = false.
Proof.
  intros Hrec Hne. destruct (is_duplicate x q (recursive_path q)) eqn:E;
    [|reflexivity].
  destruct (is_duplicate_true _ _ E) as [->| ->]; [contradiction|].
  unfold recursive_path, ends_with_slash in Hrec.
  now rewrite back_app_slash in Hrec.
Qed.

Lemma awaited_step st st' p :
  recursive_path p = true ->
  grows st st' -> table_from os m st st' ->
  awaited os m st p -> awaited os m st' p.
Proof.
  intros Hrec Hg Hfrom Hwait q Hq.
  destruct (Hwait q Hq) as [Hwd [Hfresh|Hdone]]; (split; [exact Hwd|]);
    [|right; now apply (settled_grows st)].
  pose proof (below_recursive p q Hrec Hq) as Hq_rec.
  destruct (watches st' !! kernel_wd os m q) as [it'|] eqn:Eit.
  2:{ left. intros it E. congruence. }
  destruct (Hfrom _ _ Eit) as [Hold|Hsettled].
  - left. intros it E. rewrite Eit in E. injection E as <-. now apply Hfresh.
  - destruct (decide (Watch.path it' = q)) as [E|Hne].
    + right. now rewrite <- E.
    + left. intros it E. rewrite Eit in E. injection E as <-.
      now apply recursive_not_duplicate.
Qed.

Lemma table_from_refl st : table_from os m st st.
Proof. intros k it H. now left. Qed.

Lemma table_from_trans a b c :
  grows b c -> table_from os m a b -> table_from os m b c -> table_from os m a c.
Proof.
  intros Hg Hab Hbc k it H. destruct (Hbc k it H) as [Hb|Hs]; [|now right].
  destruct (Hab k it Hb) as [Ha|Hs]; [now left|].
  right. now apply (settled_grows b).
Qed.

(** A step of the descent asks nothing but what add_watch() asks. *)
Lemma descend_body_grows fuel p subdir :
  preserves grows
    (let* isdir := is_directory subdir in
     if isdir then add_watch os fuel (path_join p (d_name subdir)) true;; ret tt
     else ret tt).
Proof.
  apply preserves_bind;
    [apply grows_trans | apply preserves_is_directory, grows_refl |].
  intros [|].
  - apply preserves_bind; [apply grows_trans | apply add_watch_grows |].
    intros _. apply preserves_ret, grows_refl.
  - apply preserves_ret, grows_refl.
Qed.

(** With enough fuel, a silent call on a recursive path whose directories
    are awaited settles the path: the path and every directory below it,
    at any depth, has been registered and is in the table. *)
Lemma descent_settles fuel : forall p st,
  mask st = m ->
  deep_enough os fuel p ->
  recursive_path p = true ->
  awaited os m st p ->
  let r := add_watch os fuel p true st in
  r.1 = Done (kernel_wd os m p)
  /\ settled os m r.2 p
  /\ table_from os m st r.2.
Proof.
  induction fuel as [|fuel IH]; intros p st Hm Hdeep Hrec Hwait;
    [destruct Hdeep|].
  cbn zeta.
  pose proof (add_watch_grows os (S fuel) p true st) as Hgrows.
  destruct (Hwait p (below_self os p)) as [Hwd Hp].
  rewrite add_watch_eq in *. cbn zeta in *.
  unfold assigned_wd, registration in *. rewrite Hm in *.
  fold (kernel_wd os m p) in *.
  destruct (Z.eqb_spec (kernel_wd os m p) (-1)) as [E|_]; [contradiction|].
  set (reg := c_inotify_add_watch p (registration_mask m (recursive_path p))) in *.
  rewrite record_watch_eq in *. cbn [watches with_call] in *.
  assert (forall flag,
             let st2 := with_watches (insert (kernel_wd os m p) (Watch.mk p flag))
                          (with_call reg st) in
             (forall k it, watches st2 !! k = Some it ->
                 k <> kernel_wd os m p -> watches st !! k = Some it) ->
             match backfill os fuel p true (kernel_wd os m p) st2 with
             | (Done _, st3) =>
                 grows st st3 ->
                 settled os m st3 p /\ table_from os m st st3
             | _ => False
             end) as Hdescent.
  { intros flag st2 Hothers. unfold backfill. rewrite Hrec. unfold descend.
    assert (grows st st2) as Hg2.
    { split; [|intros k [it Hk]; cbn;
               destruct (decide (kernel_wd os m p = k)) as [<-|Hne];
               [rewrite lookup_insert_eq | rewrite lookup_insert_ne by exact Hne];
               eauto].
      split; [reflexivity|]. exists [reg]. split; [reflexivity|].
      now repeat constructor. }
    assert (table_from os m st2 st2) as Hfrom2 by apply table_from_refl.
    set (body := fun subdir : dirent => _).
    set (I := fun s => grows st2 s
                       /\ mask s = m
                       /\ table_from os m st2 s
                       /\ forall c, In c (directory_iterator os p) ->
                            directory_entry c = true ->
                            awaited os m s (path_join p (d_name c))).
    set (Q := fun (c : dirent) s =>
                directory_entry c = true ->
                settled os m s (path_join p (d_name c))).
    assert (I st2) as HI2.
    { split; [apply grows_refl|]. split; [exact Hm|]. split; [exact Hfrom2|].
      intros c Hc Hd q Hq.
      assert (below os p q) as Hpq.
      { apply below_trans with (path_join p (d_name c)); [|exact Hq].
        apply below_child; [apply below_self | exact Hc | exact Hd]. }
      destruct (Hwait q Hpq) as [Hwq [Hfresh|Hdone]]; (split; [exact Hwq|]);
        [|right; now apply (settled_grows st)].
      destruct (decide (kernel_wd os m q = kernel_wd os m p)) as [Ek|Hk].
      - destruct (decide (p = q)) as [<-|Hne].
        + exfalso. now apply (below_child_neq p c p Hc).
        + left. intros it Hit. rewrite Ek in Hit. cbn in Hit.
          rewrite lookup_insert_eq in Hit. injection Hit as <-. cbn.
          apply recursive_not_duplicate; [|exact Hne].
          now apply (below_recursive p).
      - left. intros it Hit. apply Hfresh. now apply Hothers. }
    assert (forall c s, In c (directory_iterator os p) -> I s ->
               (body c s).1 = Done tt /\ I (body c s).2 /\ Q c (body c s).2)
      as Hstep.
    { intros c s Hc (Hg & Hms & Hfrom & Hwaits).
      pose proof (descend_body_grows fuel p c s) as Hbody. fold body in Hbody.
      unfold body in *. rewrite descend_step, (Hknown _ _ Hc) in *.
      destruct (directory_entry c) eqn:Hd.
      2:{ split; [reflexivity|].
          split; [exact (conj Hg (conj Hms (conj Hfrom Hwaits)))|].
          unfold Q. cbn [snd]. rewrite Hd. discriminate. }
      assert (recursive_path (path_join p (d_name c)) = true) as Hrc
          by (apply recursive_path_join; now apply (Hnames p)).
      destruct (IH (path_join p (d_name c)) s Hms (Hdeep c Hc Hd) Hrc
                  (Hwaits c Hc Hd)) as (Hret & Hset & Hfrom').
      unfold bind in *.
      destruct (add_watch os fuel (path_join p (d_name c)) true s)
        as [[wd|e|] s'] eqn:Ecall; cbn [fst snd] in *; try discriminate.
      split; [reflexivity|]. split; [|intros _; exact Hset].
      split; [now apply grows_trans with s|].
      split; [destruct Hbody as [[Hmask _] _]; congruence|].
      split; [now apply (table_from_trans _ s)|].
      intros c' Hc' Hd'. apply (awaited_step s); auto.
      apply recursive_path_join. now apply (Hnames p). }
    assert (forall x y s, In y (directory_iterator os p) -> I s ->
               Q x s -> Q x (body y s).2) as Hstable.
    { intros x y s _ _ HQ Hd. apply (settled_grows s); [|now apply HQ].
      apply (descend_body_grows fuel p y s). }
    destruct (for_each_inv body I Q (directory_iterator os p) Hstep Hstable st2 HI2)
      as (Hdone & (Hg3 & _ & Hfrom3 & _) & _ & Hall).
    destruct (for_each (directory_iterator os p) body st2) as [[[]|e|] st3];
      cbn [fst snd] in *; try discriminate.
    intros Hg.
    assert (settled os m st3 p) as Hsettled.
    { intros x Hx. destruct (below_inv p x Hx) as [->|(c & Hc & Hd & Hcx)].
      - apply (watched_grows st2); [exact Hg3|]. split.
        + now left.
        + cbn. rewrite lookup_insert_eq. eauto.
      - now apply (Hall c Hc Hd). }
    split; [exact Hsettled|].
    intros k it Hk. destruct (Hfrom3 k it Hk) as [H2|Hs]; [|now right].
    destruct (decide (k = kernel_wd os m p)) as [->|Hne].
    + right. cbn in H2. rewrite lookup_insert_eq in H2. now injection H2 as <-.
    + left. now apply Hothers. }
  assert (forall flag k it,
             watches (with_watches (insert (kernel_wd os m p) (Watch.mk p flag))
                        (with_call reg st)) !! k = Some it ->
             k <> kernel_wd os m p -> watches st !! k = Some it) as Hothers.
  { intros flag k it Hk Hne. cbn in Hk. now rewrite lookup_insert_ne in Hk. }
  destruct (watches st !! kernel_wd os m p) as [it|] eqn:Eit.
  - destruct (is_duplicate (Watch.path it) p (recursive_path p)) eqn:Edup.
    + cbn [fst snd] in *. destruct Hp as [Hfresh|Hdone];
        [now rewrite (Hfresh it Eit) in Edup|].
      split; [reflexivity|]. split; [now apply (settled_grows st)|].
      intros k it' H. now left.
    + specialize (Hdescent (Watch.in_move it) (Hothers _)).
      destruct (backfill _ _ _ _ _ _) as [[[]|e|] st3]; try contradiction.
      cbn [fst snd] in *. split; [reflexivity | now apply Hdescent].
  - specialize (Hdescent false (Hothers _)).
    destruct (backfill _ _ _ _ _ _) as [[[]|e|] st3]; try contradiction.
    cbn [fst snd] in *. split; [reflexivity | now apply Hdescent].
Qed.

End Descent.

(** ** C5: the silent backfill *)



(** The small world: every status can be taken, the names are those of
    files, and [/tmp/a] has one directory below it. *)
Lemma demo_os_known_statuses : known_statuses demo_os.
Proof.
  intros q child. cbn [directory_iterator demo_os].
  repeat (destruct (_ || _);
          [cbn [In]; intros H;
           repeat (destruct H as [<-|H]; [reflexivity|]); destruct H|]).
  intros [].
Qed.

Lemma demo_os_child_names : child_names demo_os.
Proof.
  intros q child. cbn [directory_iterator demo_os].
  repeat (destruct (_ || _);
          [cbn [In]; intros H;
           repeat (destruct H as [<-|H]; [now split|]); destruct H|]).
  intros [].
Qed.

Lemma demo_os_below q :
  below demo_os "/tmp/a" q -> q = "/tmp/a" \/ q = "/tmp/a/d".
Proof.
  intros H. induction H as [|q subdir _ IH Hin Hdir]; [now left|].
  destruct IH as [->| ->]; cbn in Hin.
  - destruct Hin as [<-|[<-|[]]]; [discriminate | now right].
  - destruct Hin as [<-|[]]. discriminate.
Qed.


(** ** add_watch() on a path that is not a duplicate *)

Lemma add_watch_fresh os fuel path in_move st :
  assigned_wd os st path <> -1 ->
  not_duplicate st (assigned_wd os st path) path ->
  add_watch os (S fuel) path in_move st
  = match backfill os fuel path in_move (assigned_wd os st path)
            (registered os st path) with
    | (Done _, st3) => (Done (assigned_wd os st path), st3)
    | (Throw e, st3) => (Throw e, st3)
    | (OutOfFuel, st3) => (OutOfFuel, st3)
    end.
Proof.
  intros Hwd Hdup. rewrite add_watch_eq. cbn zeta.
  destruct (Z.eqb_spec (assigned_wd os st path) (-1)) as [|_]; [contradiction|].
  rewrite record_watch_eq. unfold registered, in_move_of.
  cbn [watches with_call].
  destruct (watches st !! assigned_wd os st path) as [it|] eqn:E; [|reflexivity].
  now rewrite (Hdup it E).
Qed.

(** The state that add_watch(path, false) ends in when it registers a path
    that is not a duplicate and the records of the children fit. *)
Lemma add_watch_reports os fuel path st :
  let wd := assigned_wd os st path in
  let children :=
    List.filter (reported st (recursive_path path)) (directory_iterator os path) in
  wd <> -1 ->
  not_duplicate st wd path ->
  Forall (fun child => has_status child = true) (directory_iterator os path) ->
  Forall (fun child => (String.length (d_name child) <= NAME_MAX)%nat) children ->
  0 <= bytes_in_buffer st ->
  bytes_in_buffer st + records_size children <= sizeof_buffer ->
  add_watch os (S fuel) path false st
  = (Done wd,
     with_buffer (fun b => append_records wd children b (bytes_in_buffer st))
       (with_bytes_in_buffer (bytes_in_buffer st + records_size children)
          (registered os st path))).
Proof.
  intros wd children Hwd Hdup Hstat Hnames Hb Hfit.
  rewrite add_watch_fresh by assumption. unfold backfill.
  now rewrite (synthesize_loop_fits (assigned_wd os st path) (recursive_path path)
                 (directory_iterator os path) (registered os st path)).
Qed.

(** ** C1: the events made for the children *)




(** ** C8: the buffer is too small *)

(** C8, as stated, fails: [/tmp/c] holds 300 files, whose records need
    more bytes than the buffer has.  When the interest mask is IN_MODIFY,
    add_watch("/tmp/c", false) registers the path, makes no record at all
    and returns the identifier.  When the path is in the table already, the
    call is ignored as a duplicate: it returns the identifier likewise.
    Neither call throws. *)
Lemma C8_counterexample :
  sizeof_buffer < records_size (directory_iterator crowded_os "/tmp/c")
  /\ (let r := add_watch crowded_os 1 "/tmp/c" false (Inotify_new IN_MODIFY zeroed) in
      r.1 = Done 4 /\ bytes_in_buffer r.2 = 0
      /\ trace r.2 = [registration (Inotify_new IN_MODIFY zeroed) "/tmp/c"])
  /\ (let st := pending IN_ALL_EVENTS [(4, Watch.mk "/tmp/c" false)] [] in
      let r := add_watch crowded_os 1 "/tmp/c" false st in
      r.1 = Done 4 /\ bytes_in_buffer r.2 = 0
      /\ trace r.2 = [registration st "/tmp/c"]).
Proof. repeat split. Qed.

(** C8 (amended): a call add_watch(path, false) that registers [path], is
    not ignored as a duplicate and can take the status of every child of
    [path] throws the system error EINVAL, the failure having been logged,
    as soon as the records of the children to report (those whose status,
    symbolic links followed, is not that of a device, fifo or socket, and
    for which the interest mask holds IN_CREATE or the status is that of a
    directory and [path] is recursive) do not fit in what is left of the
    buffer, and so whenever they need more than the whole buffer. *)
Theorem C8_buffer_overflow os fuel path st :
  let wd := assigned_wd os st path in
  let children :=
    List.filter (reported st (recursive_path path)) (directory_iterator os path) in
  wd <> -1 ->
  not_duplicate st wd path ->
  Forall (fun child => has_status child = true) (directory_iterator os path) ->
  Forall (fun child => (String.length (d_name child) <= NAME_MAX)%nat) children ->
  0 <= bytes_in_buffer st <= sizeof_buffer ->
  sizeof_buffer < bytes_in_buffer st + records_size children ->
  let r := add_watch os (S fuel) path false st in
  r.1 = Throw (system_error EINVAL)
  /\ head (trace r.2) = Some (c_log err_buffer_underruns).
Proof.
  intros wd children Hwd Hdup Hstat Hnames Hb Hfit. cbn zeta.
  rewrite add_watch_fresh by assumption. unfold backfill.
  destruct (synthesize_loop_overflows (assigned_wd os st path) (recursive_path path)
              (directory_iterator os path) (registered os st path))
    as (st' & H1 & H2 & _); try assumption.
  rewrite H1. cbn. now rewrite H2.
Qed.

Lemma C8_buffer_overflow_witness :
  let st := Inotify_new IN_ALL_EVENTS zeroed in
  sizeof_buffer < records_size (directory_iterator crowded_os "/tmp/c")
  /\ (add_watch crowded_os 1 "/tmp/c" false st).1 = Throw (system_error EINVAL)
  /\ head (trace (add_watch crowded_os 1 "/tmp/c" false st).2)
     = Some (c_log err_buffer_underruns).
Proof.
  cbn zeta. split; [reflexivity|].
  apply (C8_buffer_overflow crowded_os 0 "/tmp/c" (Inotify_new IN_ALL_EVENTS zeroed)).
  - discriminate.
  - intros it. discriminate.
  - apply List.Forall_forall. intros child Hin.
    change (directory_iterator crowded_os "/tmp/c") with crowd in Hin.
    unfold crowd in Hin.
    now apply in_map_iff in Hin as (n & <- & _).
  - apply List.Forall_forall. intros child Hin.
    apply filter_In in Hin as [Hin _].
    change (directory_iterator crowded_os "/tmp/c") with crowd in Hin.
    unfold crowd in Hin.
    apply in_map_iff in Hin as (n & <- & Hn). apply in_seq in Hn.
    cbn [d_name]. unfold NAME_MAX.
    assert (forallb (fun n : nat => Nat.leb (String.length (pretty n)) 255) (seq 0 300)
            = true) as Hall by (vm_compute; reflexivity).
    rewrite forallb_forall in Hall. apply Nat.leb_le, Hall, in_seq. lia.
  - split; [reflexivity | discriminate].
  - reflexivity.
Defined.

(** ** read(): the shape of a round *)

Section Read_facts.

Variable os : OS.

Lemma rm_watch_eq wd st :
  rm_watch os wd st
  = (Done tt,
     if negb (inotify_rm_watch os (count is_rm_watch (trace st)) wd =? 0)
     then with_call (c_log warn_rm_watch) (with_call (c_inotify_rm_watch wd) st)
     else with_call (c_inotify_rm_watch wd) st).
Proof.
  unfold rm_watch. run_monad. now destruct (negb _).
Qed.

(** What a loop of rm_watch() over [l] does: it unregisters exactly the
    elements chosen by [chosen], and touches nothing of the object. *)
Lemma rm_loop (chosen : Z * Watch.t -> bool) (l : list (Z * Watch.t)) : forall st,
  exists tr,
    for_each l (fun it => if chosen it then rm_watch os it.1 else ret tt) st
    = (Done tt,
       mk_Inotify (mask st) (watches st) (buffer st) (bytes_in_buffer st)
         (bytes_handled st) (tr ++ trace st))
    /\ Forall unregisters tr
    /\ forall wd, In (c_inotify_rm_watch wd) tr
                  <-> exists it, In it l /\ chosen it = true /\ it.1 = wd.
Proof.
  induction l as [|it l IH]; intros st.
  - exists []. split; [cbn; now destruct st|]. split; [constructor|].
    intros wd. split; [intros [] | now intros (it & [] & _)].
  - cbn [for_each].
    destruct (chosen it) eqn:Hc.
    + erewrite bind_Done; [|apply rm_watch_eq].
      set (st1 := if negb _ then _ else _).
      destruct (IH st1) as (tr & Hrun & Hun & Hiff).
      assert (exists tr1, trace st1 = tr1 ++ trace st /\ Forall unregisters tr1
                /\ (forall wd, In (c_inotify_rm_watch wd) tr1 <-> wd = it.1)
                /\ mask st1 = mask st /\ watches st1 = watches st
                /\ buffer st1 = buffer st
                /\ bytes_in_buffer st1 = bytes_in_buffer st
                /\ bytes_handled st1 = bytes_handled st)
        as (tr1 & Ht1 & Hun1 & Hiff1 & E1 & E2 & E3 & E4 & E5).
      { unfold st1. destruct (negb _).
        - exists [c_log warn_rm_watch; c_inotify_rm_watch it.1].
          split; [reflexivity|]. split; [now repeat constructor|].
          split; [|now repeat split].
          intros wd. cbn. split; [intros [H|[H|[]]]; congruence | intros ->; auto].
        - exists [c_inotify_rm_watch it.1].
          split; [reflexivity|]. split; [now repeat constructor|].
          split; [|now repeat split].
          intros wd. cbn. split; [intros [H|[]]; congruence | intros ->; auto]. }
      exists (tr ++ tr1). rewrite Hrun, E1, E2, E3, E4, E5, Ht1, app_assoc.
      split; [reflexivity|]. split; [now apply Forall_app|].
      intros wd. rewrite in_app_iff, Hiff, Hiff1. split.
      * intros [(it' & Hin & Hch & <-) | ->].
        -- exists it'. repeat split; auto. now right.
        -- exists it. repeat split; auto. now left.
      * intros (it' & [<-|Hin] & Hch & <-); [now right|].
        left. now exists it'.
    + erewrite bind_Done; [|reflexivity].
      destruct (IH st) as (tr & Hrun & Hun & Hiff).
      exists tr. split; [exact Hrun|]. split; [exact Hun|].
      intros wd. rewrite Hiff. split.
      * intros (it' & Hin & Hch & <-). exists it'. repeat split; auto. now right.
      * intros (it' & [<-|Hin] & Hch & <-); [congruence|]. now exists it'.
Qed.

End Read_facts.

Section Round_facts.

Variable os : OS.

Lemma advanced_fields st :
  mask (advanced st) = mask st /\ watches (advanced st) = watches st
  /\ buffer (advanced st) = buffer st /\ trace (advanced st) = trace st.
Proof. unfold advanced. now destruct (_ >=? _). Qed.

Lemma on_ignored_eq off st :
  on_ignored off st
  = (Done tt,
     if has_bits (event_mask (buffer st) off) IN_IGNORED
     then with_watches (delete (event_wd (buffer st) off)) st
     else st).
Proof. unfold on_ignored. run_monad. now destruct (has_bits _ _). Qed.

Lemma on_new_subdirectory_eq fuel off key st :
  on_new_subdirectory os fuel off key st
  = match watches st !! key with
    | None => (Done tt, st)
    | Some watch =>
        let m := event_mask (buffer st) off in
        if announces_subdirectory m watch then
          let in_move := has_bits m IN_MOVED_TO in
          match add_watch os fuel
                  (path_join (Watch.path watch) (event_name (buffer st) off))
                  in_move st with
          | (Done wd, st2) =>
              if in_move && (wd >=? 0) then
                match watches st2 !! wd with
                | None => (Throw out_of_range, st2)
                | Some w =>
                    (Done tt,
                     with_watches (insert wd (Watch.mk (Watch.path w) true)) st2)
                end
              else (Done tt, st2)
          | (Throw e, st2) => (Throw e, st2)
          | (OutOfFuel, st2) => (OutOfFuel, st2)
          end
        else (Done tt, st)
    end.
Proof.
  unfold on_new_subdirectory, announces_subdirectory. run_monad.
  destruct (watches st !! key) as [watch|]; [|reflexivity].
  cbn zeta. destruct (_ && _ && _); [|reflexivity].
  destruct (add_watch _ _ _ _ _) as [[wd|e|] st2]; try reflexivity.
  destruct (_ && _); [|reflexivity].
  now destruct (watches st2 !! wd).
Qed.

(** The round up to the lookup of the watch, for a complete record. *)
Lemma handle_event_eq fuel st :
  complete_event st ->
  handle_event os fuel st
  = let off := bytes_handled st in
    let key := event_wd (buffer st) off in
    match watches st !! key with
    | None =>
        (Throw (system_error EINVAL),
         with_call (c_log (err_unknown_wd key)) (advanced st))
    | Some _ =>
        (on_new_subdirectory os fuel off key;;
         on_move_self os off key;;
         on_ignored off;;
         let* st := get in
         if has_bits (event_mask (buffer st) off) (mask st)
         then ret (Some off) else ret None) (advanced st)
    end.
Proof.
  unfold complete_event, handle_event, advanced, next_cursor. intros Hc.
  unfold bind at 1. unfold get at 1. cbn beta iota.
  set (handled := to_int _) in *.
  unfold bind at 1. unfold modify at 1. cbn beta iota.
  destruct (Z.gtb_spec handled (bytes_in_buffer st)) as [|_]; [lia|].
  cbn [bytes_in_buffer with_bytes_handled].
  destruct (Z.geb_spec handled (bytes_in_buffer st)) as [Hge|Hlt].
  - unfold bind at 1. unfold bind at 1. unfold modify at 1 2. cbn beta iota.
    destruct (watches st !! _); reflexivity.
  - unfold bind at 1. unfold ret at 1. cbn beta iota.
    destruct (watches st !! _); reflexivity.
Qed.

(** The round when the record is cut short by the end of the filled
    part: "Incomplete event returned". *)
Lemma handle_event_incomplete fuel st :
  ~ complete_event st ->
  handle_event os fuel st
  = (Throw (system_error EINVAL),
     with_call (c_log err_incomplete_event)
       (with_bytes_handled (next_cursor st) st)).
Proof.
  unfold complete_event, handle_event, next_cursor. intros Hc.
  unfold bind at 1. unfold get at 1. cbn beta iota.
  set (handled := to_int _) in *.
  unfold bind at 1. unfold modify at 1. cbn beta iota.
  cbn [bytes_in_buffer with_bytes_handled].
  destruct (Z.geb_spec handled (bytes_in_buffer st)) as [Hge|Hlt]; [|lia].
  destruct (Z.gtb_spec handled (bytes_in_buffer st)) as [_|]; [|lia].
  reflexivity.
Qed.

End Round_facts.

Section Self_move.

Variable os : OS.

Lemma on_move_self_eq off key st :
  on_move_self os off key st
  = match watches st !! key with
    | None => (Done tt, st)
    | Some watch =>
        if has_bits (event_mask (buffer st) off) IN_MOVE_SELF then
          if Watch.in_move watch then
            (Done tt,
             with_watches (insert key (Watch.mk (Watch.path watch) false)) st)
          else if ends_with_slash (Watch.path watch) then
            rm_watch os (event_wd (buffer st) off) st
          else
            for_each (map_to_list (watches st)) (fun it =>
              if starts_with (Watch.path watch) (Watch.path it.2)
              then rm_watch os it.1
              else ret tt) st
        else (Done tt, st)
    end.
Proof.
  unfold on_move_self. run_monad.
  destruct (watches st !! key) as [watch|]; [|reflexivity].
  destruct (has_bits _ _); [|reflexivity].
  destruct (Watch.in_move watch); [reflexivity|].
  now destruct (ends_with_slash _).
Qed.

(** What "delete a watch recursively unless in move" does to a watch whose
    flag is down: it unregisters the watch alone when its path ends with a
    slash, and otherwise every watch whose path starts with its path; the
    object is left as it was. *)
Lemma on_move_self_unregisters off key st watch :
  watches st !! key = Some watch ->
  event_wd (buffer st) off = key ->
  has_bits (event_mask (buffer st) off) IN_MOVE_SELF = true ->
  Watch.in_move watch = false ->
  exists tr,
    on_move_self os off key st
    = (Done tt,
       mk_Inotify (mask st) (watches st) (buffer st) (bytes_in_buffer st)
         (bytes_handled st) (tr ++ trace st))
    /\ Forall unregisters tr
    /\ forall wd, In (c_inotify_rm_watch wd) tr
         <-> if ends_with_slash (Watch.path watch) then wd = key
             else exists it, watches st !! wd = Some it
                  /\ starts_with (Watch.path watch) (Watch.path it) = true.
Proof.
  intros Hw Hkey Hm Hflag. rewrite on_move_self_eq, Hw, Hm, Hflag, Hkey.
  destruct (ends_with_slash (Watch.path watch)).
  - rewrite rm_watch_eq. destruct (negb _).
    + exists [c_log warn_rm_watch; c_inotify_rm_watch key].
      split; [reflexivity|]. split; [now repeat constructor|].
      intros wd. cbn. split; [intros [H|[H|[]]]; congruence | intros ->; auto].
    + exists [c_inotify_rm_watch key].
      split; [reflexivity|]. split; [now repeat constructor|].
      intros wd. cbn. split; [intros [H|[]]; congruence | intros ->; auto].
  - destruct (rm_loop os
                (fun it => starts_with (Watch.path watch) (Watch.path it.2))
                (map_to_list (watches st)) st) as (tr & Hrun & Hun & Hiff).
    exists tr. split; [exact Hrun|]. split; [exact Hun|].
    intros wd. rewrite Hiff. split.
    + intros ([k it] & Hin & Hch & <-). exists it. split; [|exact Hch].
      apply elem_of_map_to_list. now apply list_elem_of_In.
    + intros (it & Hit & Hch). exists (wd, it). repeat split; [|exact Hch].
      apply list_elem_of_In. now apply elem_of_map_to_list.
Qed.

(** A round of the loop on a self-move event that does not announce a
    subdirectory. *)
Lemma self_move_round fuel st watch :
  let off := bytes_handled st in
  let key := event_wd (buffer st) off in
  let m := event_mask (buffer st) off in
  complete_event st ->
  watches st !! key = Some watch ->
  announces_subdirectory m watch = false ->
  has_bits m IN_MOVE_SELF = true ->
  exists tr st',
    handle_event os fuel st
    = (Done (if has_bits m (mask st) then Some off else None), st')
    /\ trace st' = tr ++ trace st
    /\ mask st' = mask st
    /\ same_buffer (advanced st) st'
    /\ watches st' = after_self_move m key watch (watches st)
    /\ if Watch.in_move watch then tr = []
       else Forall unregisters tr
            /\ forall wd, In (c_inotify_rm_watch wd) tr
                 <-> if ends_with_slash (Watch.path watch) then wd = key
                     else exists it, watches st !! wd = Some it
                          /\ starts_with (Watch.path watch) (Watch.path it) = true.
Proof.
  intros off key m Hc Hw Hann Hself.
  rewrite handle_event_eq by assumption. cbn zeta. fold off key. rewrite Hw.
  destruct (advanced_fields st) as (E1 & E2 & E3 & E4).
  set (st1 := advanced st) in *.
  erewrite bind_Done;
    [|rewrite on_new_subdirectory_eq, E2, Hw; cbn zeta; rewrite E3; fold m;
      rewrite Hann; reflexivity].
  unfold after_self_move. destruct (Watch.in_move watch) eqn:Hflag.
  - erewrite bind_Done;
      [|rewrite on_move_self_eq, E2, Hw, E3; fold m; rewrite Hself, Hflag;
        reflexivity].
    erewrite bind_Done; [|apply on_ignored_eq].
    cbn [buffer with_watches]. rewrite E3. fold m key.
    exists [], (if has_bits m IN_IGNORED
                then with_watches (delete key)
                       (with_watches (insert key (Watch.mk (Watch.path watch) false)) st1)
                else with_watches (insert key (Watch.mk (Watch.path watch) false)) st1).
    run_monad.
    destruct (has_bits m IN_IGNORED), (has_bits m (mask st)) eqn:Hret;
      cbn; rewrite ?E1, ?E2, ?E3, ?E4; fold m; rewrite ?Hret; repeat split.
  - destruct (on_move_self_unregisters off key st1 watch)
      as (tr & Hrun & Hun & Hiff); rewrite ?E2, ?E3; auto.
    erewrite bind_Done; [|exact Hrun].
    erewrite bind_Done; [|apply on_ignored_eq].
    cbn [buffer]. rewrite E3. fold m key.
    set (st2 := mk_Inotify _ _ _ _ _ _).
    exists tr, (if has_bits m IN_IGNORED then with_watches (delete key) st2 else st2).
    run_monad. rewrite E2 in Hiff.
    destruct (has_bits m IN_IGNORED), (has_bits m (mask st)) eqn:Hret;
      cbn; rewrite ?E1, ?E2, ?E3, ?E4; fold m; rewrite ?Hret;
      repeat split; auto; apply Hiff.
Qed.

End Self_move.

(** ** read(): the calls of a round, the shape of a call *)

Lemma calls_between_count P p st st' :
  (forall m c, P m c -> p c = false) ->
  calls_between P st st' -> count p (trace st') = count p (trace st).
Proof.
  intros HP [_ (tr & -> & Hf)]. unfold count. rewrite List.filter_app, length_app.
  assert (List.filter p tr = []) as ->; [|reflexivity].
  induction Hf as [|c tr Hc _ IH]; cbn; [reflexivity|]. now rewrite (HP _ _ Hc).
Qed.

Section Read_calls.

Variable os : OS.

Lemma handles_quiet f :
  (forall st, mask (f st) = mask st) -> (forall st, trace (f st) = trace st) ->
  preserves handling (modify f).
Proof.
  intros H1 H2. apply preserves_modify. intros st. now apply calls_between_quiet.
Qed.

Lemma handles_log msg : preserves handling (log msg).
Proof. intros st. now apply calls_between_call. Qed.

Lemma add_watch_handles fuel path in_move : preserves handling (add_watch os fuel path in_move).
Proof. now apply add_watch_calls. Qed.

Lemma rm_watch_handles wd : preserves handling (rm_watch os wd).
Proof.
  intros st. rewrite rm_watch_eq. destruct (negb _); cbn [snd].
  - apply calls_between_trans with (with_call (c_inotify_rm_watch wd) st);
      now apply calls_between_call.
  - now apply calls_between_call.
Qed.

Lemma handle_event_handles fuel : preserves handling (handle_event os fuel).
Proof.
  pose proof (calls_between_refl (fun _ => handles)) as Hr.
  pose proof (calls_between_trans (fun _ => handles)) as Ht.
  unfold handle_event.
  apply preserves_bind; [exact Ht | now apply preserves_get |]. intros st.
  apply preserves_bind; [exact Ht | now apply handles_quiet |]. intros _.
  apply preserves_bind; [exact Ht | |].
  { destruct (_ >=? _); [|now apply preserves_ret].
    destruct (_ >? _).
    - apply preserves_bind; [exact Ht | apply handles_log |].
      intros _. now apply preserves_throw.
    - apply preserves_bind; [exact Ht | now apply handles_quiet |].
      intros _. now apply handles_quiet. }
  intros _. destruct (watches st !! _).
  2:{ apply preserves_bind; [exact Ht | apply handles_log |].
      intros _. now apply preserves_throw. }
  apply preserves_bind; [exact Ht | |].
  { unfold on_new_subdirectory.
    apply preserves_bind; [exact Ht | now apply preserves_get |]. intros st1.
    destruct (watches st1 !! _); [|now apply preserves_ret].
    destruct (_ && _ && _); [|now apply preserves_ret].
    apply preserves_bind; [exact Ht | apply add_watch_handles |]. intros wd.
    destruct (_ && _); [|now apply preserves_ret].
    apply preserves_bind; [exact Ht | now apply preserves_get |]. intros st2.
    destruct (watches st2 !! wd); [now apply handles_quiet | now apply preserves_throw]. }
  intros _. apply preserves_bind; [exact Ht | |].
  { unfold on_move_self.
    apply preserves_bind; [exact Ht | now apply preserves_get |]. intros st1.
    destruct (watches st1 !! _); [|now apply preserves_ret].
    destruct (has_bits _ _); [|now apply preserves_ret].
    destruct (Watch.in_move _); [now apply handles_quiet|].
    destruct (ends_with_slash _); [apply rm_watch_handles|].
    apply preserves_for_each; [exact Hr | exact Ht |]. intros it _.
    destruct (starts_with _ _); [apply rm_watch_handles | now apply preserves_ret]. }
  intros _. apply preserves_bind; [exact Ht | |].
  { unfold on_ignored.
    apply preserves_bind; [exact Ht | now apply preserves_get |]. intros st1.
    destruct (has_bits _ _); [now apply handles_quiet | now apply preserves_ret]. }
  intros _. apply preserves_bind; [exact Ht | now apply preserves_get |].
  intros st1. destruct (has_bits _ _); now apply preserves_ret.
Qed.

(** The loop that handles the events neither waits nor reads the clock. *)
Lemma drain_handles fuel : preserves handling (drain os fuel).
Proof.
  pose proof (calls_between_refl (fun _ => handles)) as Hr.
  pose proof (calls_between_trans (fun _ => handles)) as Ht.
  induction fuel as [|fuel IH]; [now apply preserves_out_of_fuel|].
  cbn [drain].
  apply preserves_bind; [exact Ht | apply handle_event_handles |].
  intros [off|]; [now apply preserves_ret|].
  apply preserves_bind; [exact Ht | now apply preserves_get |]. intros st.
  destruct (_ >? _); [exact IH | now apply preserves_ret].
Qed.

Lemma refill_pending timeout read_delay st :
  bytes_in_buffer st <> 0 -> refill os timeout read_delay st = (Done true, st).
Proof.
  intros H. unfold refill. run_monad.
  destruct (Z.eqb_spec (bytes_in_buffer st) 0); [contradiction | reflexivity].
Qed.

(** The refill does not read the clock. *)
Lemma refill_no_clock timeout read_delay :
  preserves (calls_between (fun _ c => is_now c = false))
    (refill os timeout read_delay).
Proof.
  set (P := fun (_ : Z) c => is_now c = false).
  pose proof (calls_between_refl P) as Hr.
  pose proof (calls_between_trans P) as Ht.
  assert (forall c, is_now c = false -> preserves (calls_between P) (emit c)) as He.
  { intros c Hc st. now apply calls_between_call. }
  assert (forall f, (forall st, mask (f st) = mask st) ->
                    (forall st, trace (f st) = trace st) ->
                    preserves (calls_between P) (modify f)) as Hq.
  { intros f H1 H2. apply preserves_modify. intros st.
    now apply calls_between_quiet. }
  unfold refill.
  apply preserves_bind; [exact Ht | now apply preserves_get |]. intros st.
  destruct (_ =? 0); [|now apply preserves_ret].
  apply preserves_bind; [exact Ht | now apply He |]. intros _.
  destruct (poll _ _ _).
  - now apply preserves_ret.
  - apply preserves_bind; [exact Ht | now apply He |]. intros _.
    destruct (usleep _ _ _).
    + apply preserves_bind; [exact Ht | now apply He |]. intros _.
      destruct (sys_read _ _).
      * apply preserves_bind; [exact Ht | now apply Hq |]. intros _.
        apply preserves_bind; [exact Ht | now apply Hq |]. intros _.
        destruct (_ >? 0); [now apply preserves_ret|].
        apply preserves_bind; [exact Ht | now apply He |]. intros _.
        now apply preserves_throw.
      * apply preserves_bind; [exact Ht | now apply Hq |]. intros _.
        apply preserves_bind; [exact Ht | now apply He |]. intros _.
        now apply preserves_throw.
    + apply preserves_bind; [exact Ht | now apply He |]. intros _.
      now apply preserves_throw.
  - apply preserves_bind; [exact Ht | now apply He |]. intros _.
    now apply preserves_throw.
Qed.

(** One level of read(). *)
Lemma read_eq fuel timeout read_delay st :
  read os (S fuel) timeout read_delay st
  = let then_ := now os (count is_now (trace st)) in
    match refill os timeout read_delay (with_call c_now st) with
    | (Done true, st1) =>
        match drain os fuel st1 with
        | (Done (Some off), st2) => (Done (Some off), st2)
        | (Done None, st2) =>
            let t := now os (count is_now (trace st2)) in
            let time_elapsed := to_int (Z.quot (t - then_) 1000000) in
            if timeout <? 0
            then read os fuel timeout read_delay (with_call c_now st2)
            else if to_int (timeout - time_elapsed) >? 0
            then read os fuel (to_int (timeout - time_elapsed)) read_delay
                   (with_call c_now st2)
            else (Done None, with_call c_now st2)
        | (Throw e, st2) => (Throw e, st2)
        | (OutOfFuel, st2) => (OutOfFuel, st2)
        end
    | (Done false, st1) => (Done None, st1)
    | (Throw e, st1) => (Throw e, st1)
    | (OutOfFuel, st1) => (OutOfFuel, st1)
    end.
Proof.
  cbn [read]. unfold clock. run_monad.
  destruct (refill _ _ _ _) as [[[|]|e|] st1]; try reflexivity.
  cbn [negb]. destruct (drain _ _ _) as [[[off|]|e|] st2]; try reflexivity.
  cbn zeta. destruct (timeout <? 0); [reflexivity|].
  now destruct (_ >? 0).
Qed.

End Read_calls.

(** ** C3: a watch that was moved away *)

(** C3: when a round of read() handles a self-move event (one that does not
    tell of a new subdirectory) for a watch whose [in_move] flag is down,
    it unregisters that watch alone if the path of the watch ends with a
    slash, and otherwise that watch and every watch of the table whose path
    starts with its path; it makes no other call, and it erases no entry of
    the table: the entry of the watch goes only if the event itself bears
    IN_IGNORED. *)
Theorem C3_self_move_teardown os fuel st watch :
  let off := bytes_handled st in
  let key := event_wd (buffer st) off in
  let m := event_mask (buffer st) off in
  complete_event st ->
  watches st !! key = Some watch ->
  announces_subdirectory m watch = false ->
  has_bits m IN_MOVE_SELF = true ->
  Watch.in_move watch = false ->
  let r := handle_event os fuel st in
  r.1 = Done (if has_bits m (mask st) then Some off else None)
  /\ watches r.2
     = (if has_bits m IN_IGNORED then delete key (watches st) else watches st)
  /\ exists tr,
      trace r.2 = tr ++ trace st
      /\ Forall unregisters tr
      /\ forall wd, In (c_inotify_rm_watch wd) tr
           <-> if ends_with_slash (Watch.path watch) then wd = key
               else exists it, watches st !! wd = Some it
                    /\ starts_with (Watch.path watch) (Watch.path it) = true.
Proof.
  intros off key m Hc Hw Hann Hself Hflag. cbn zeta.
  destruct (self_move_round os fuel st watch Hc Hw Hann Hself)
    as (tr & st' & Hrun & Htr & _ & _ & Hwatches & Hcalls).
  fold off key m in Hrun, Hwatches, Hcalls.
  rewrite Hrun. cbn [fst snd]. unfold after_self_move in Hwatches.
  rewrite Hflag in Hwatches, Hcalls.
  split; [reflexivity|]. split; [exact Hwatches|].
  exists tr. split; [exact Htr|]. exact Hcalls.
Qed.

Lemma C3_self_move_teardown_witness :
  let st := pending IN_ALL_EVENTS demo_table [Event.mk 1 IN_MOVE_SELF 0 0 ""] in
  let r := handle_event demo_os 0 st in
  r.1 = Done (Some 0)
  /\ watches r.2 = watches st
  /\ exists tr,
      trace r.2 = tr ++ trace st
      /\ Forall unregisters tr
      /\ forall wd, In (c_inotify_rm_watch wd) tr
           <-> exists it, watches st !! wd = Some it
               /\ starts_with "/tmp/a" (Watch.path it) = true.
Proof.
  cbn zeta.
  apply (C3_self_move_teardown demo_os 0
           (pending IN_ALL_EVENTS demo_table [Event.mk 1 IN_MOVE_SELF 0 0 ""])
           (Watch.mk "/tmp/a" false)).
  - unfold complete_event. vm_compute. discriminate.
  - reflexivity.
  - reflexivity.
  - reflexivity.
  - reflexivity.
Defined.

(** ** C4: the [in_move] flag *)

Section In_move.

Variable os : OS.

Lemma in_move_of_insert st wd it x :
  in_move_of (with_watches (insert wd it) st) x
  = if decide (wd = x) then Watch.in_move it else in_move_of st x.
Proof.
  unfold in_move_of. cbn [watches with_watches].
  destruct (decide (wd = x)) as [->|Hne];
    [now rewrite lookup_insert_eq | now rewrite lookup_insert_ne].
Qed.

Lemma record_watch_raises_no_in_move wd path recursive st :
  raises_no_in_move st (record_watch wd path recursive st).2.
Proof.
  rewrite record_watch_eq. intros x.
  destruct (watches st !! wd) as [it|] eqn:E; [destruct (is_duplicate _ _ _)|];
    cbn [snd]; auto; rewrite in_move_of_insert;
    destruct (decide (wd = x)) as [<-|_]; auto; cbn [Watch.in_move].
  - unfold in_move_of. now rewrite E.
  - discriminate.
Qed.

(** add_watch() raises no flag: the entries it makes have it down, the
    entries it brings up to date keep theirs. *)
Lemma add_watch_raises_no_in_move fuel path in_move :
  preserves raises_no_in_move (add_watch os fuel path in_move).
Proof.
  apply add_watch_preserves.
  - apply raises_no_in_move_refl.
  - apply raises_no_in_move_trans.
  - now intros st p x Hx.
  - now intros m st x Hx.
  - apply record_watch_raises_no_in_move.
  - intros wd r child st x. unfold in_move_of.
    now rewrite (proj1 (synthesize_keeps_table wd r child st)).
Qed.

Lemma on_move_self_raises_no_in_move off key :
  preserves raises_no_in_move (on_move_self os off key).
Proof.
  intros st. rewrite on_move_self_eq.
  destruct (watches st !! key) as [watch|] eqn:E; [|apply raises_no_in_move_refl].
  destruct (has_bits _ _); [|apply raises_no_in_move_refl].
  destruct (Watch.in_move watch) eqn:Hflag.
  - intros x. cbn [snd]. rewrite in_move_of_insert.
    destruct (decide (key = x)); [discriminate | auto].
  - destruct (ends_with_slash _).
    + rewrite rm_watch_eq. now destruct (negb _).
    + destruct (rm_loop os (fun it => starts_with (Watch.path watch) (Watch.path it.2))
                  (map_to_list (watches st)) st) as (tr & -> & _).
      now intros x.
Qed.

Lemma on_ignored_raises_no_in_move off :
  preserves raises_no_in_move (on_ignored off).
Proof.
  intros st. rewrite on_ignored_eq. destruct (has_bits _ _);
    [|apply raises_no_in_move_refl].
  intros x. unfold in_move_of. cbn [snd watches with_watches].
  destruct (decide (event_wd (buffer st) off = x)) as [->|Hne];
    [now rewrite lookup_delete_eq | now rewrite lookup_delete_ne].
Qed.

(** What follows the call of add_watch() in a round raises no flag. *)
Lemma round_tail_raises_no_in_move off key :
  preserves raises_no_in_move
    (on_move_self os off key;;
     on_ignored off;;
     let* st := get in
     if has_bits (event_mask (buffer st) off) (mask st)
     then ret (Some off) else ret None).
Proof.
  pose proof raises_no_in_move_refl as Hr.
  pose proof raises_no_in_move_trans as Ht.
  apply preserves_bind; [exact Ht | apply on_move_self_raises_no_in_move |].
  intros _. apply preserves_bind; [exact Ht | apply on_ignored_raises_no_in_move |].
  intros _. apply preserves_bind; [exact Ht | now apply preserves_get |].
  intros st. destruct (has_bits _ _); now apply preserves_ret.
Qed.

(** A round raises the flag of an identifier only as the moved-in
    reconciliation of that identifier. *)
Lemma round_in_move fuel st x :
  in_move_of (handle_event os fuel st).2 x = true ->
  in_move_of st x = true \/ reconciled os st x.
Proof.
  destruct (Z.le_gt_cases (next_cursor st) (bytes_in_buffer st)) as [Hc|Hc].
  2:{ rewrite handle_event_incomplete by (unfold complete_event; lia).
      intros H. now left. }
  rewrite handle_event_eq by exact Hc. cbn zeta.
  destruct (advanced_fields st) as (E1 & E2 & E3 & E4).
  assert (forall y, in_move_of (advanced st) y = in_move_of st y) as Eflag.
  { intros y. unfold in_move_of. now rewrite E2. }
  destruct (watches st !! _) as [watch|] eqn:Hw.
  2:{ cbn [snd]. intros H. left. now rewrite <- Eflag. }
  set (off := bytes_handled st) in *.
  set (key := event_wd (buffer st) off) in *.
  set (st1 := advanced st) in *.
  set (tail := on_move_self os off key;; _).
  assert (forall s, in_move_of (tail s).2 x = true -> in_move_of s x = true)
    as Htail.
  { intros s. apply (round_tail_raises_no_in_move off key s). }
  unfold bind at 1. rewrite on_new_subdirectory_eq, E2, Hw. cbn zeta. rewrite E3.
  set (m := event_mask (buffer st) off).
  destruct (announces_subdirectory m watch) eqn:Hann.
  2:{ intros H. left. rewrite <- Eflag. now apply Htail. }
  set (p := path_join (Watch.path watch) (event_name (buffer st) off)).
  pose proof (add_watch_raises_no_in_move fuel p (has_bits m IN_MOVED_TO) st1 x)
    as Hadd.
  pose proof (add_watch_returns os fuel p (has_bits m IN_MOVED_TO) st1) as Hret.
  destruct (add_watch os fuel p (has_bits m IN_MOVED_TO) st1) as [[wd|e|] st2];
    cbn [fst snd] in Hadd, Hret |- *;
    try (intros H; left; rewrite <- Eflag; now apply Hadd).
  destruct (has_bits m IN_MOVED_TO && (wd >=? 0)) eqn:Hin.
  2:{ intros H. left. rewrite <- Eflag. now apply Hadd, Htail. }
  apply andb_true_iff in Hin as [Hmoved Hpos].
  destruct (watches st2 !! wd) as [w|] eqn:Hw2.
  2:{ cbn [snd]. intros H. left. rewrite <- Eflag. now apply Hadd. }
  intros H. apply Htail in H. rewrite in_move_of_insert in H.
  destruct (decide (wd = x)) as [<-|Hne].
  - right. exists watch. fold off key m p. repeat split; auto.
    + destruct (Hret wd eq_refl) as [-> _]. unfold assigned_wd. now rewrite E1.
    + lia.
  - left. rewrite <- Eflag. now apply Hadd.
Qed.

End In_move.

Lemma starts_with_refl s : starts_with s s = true.
Proof.
  unfold starts_with. induction s as [|c s IH]; cbn; [reflexivity|].
  now destruct (ascii_dec c c).
Qed.

Section Reconciliation.

Variable os : OS.

(** A round on an event that tells of a subdirectory moved into a
    recursive watch, and of nothing else, raises the flag of the
    identifier of that subdirectory. *)
Lemma reconciliation_round fuel st watch :
  let off := bytes_handled st in
  let key := event_wd (buffer st) off in
  let m := event_mask (buffer st) off in
  let p := path_join (Watch.path watch) (event_name (buffer st) off) in
  complete_event st ->
  watches st !! key = Some watch ->
  announces_subdirectory m watch = true ->
  has_bits m IN_MOVED_TO = true ->
  has_bits m IN_MOVE_SELF = false ->
  has_bits m IN_IGNORED = false ->
  known_statuses os ->
  deep_enough os fuel p ->
  0 <= assigned_wd os st p ->
  (handle_event os fuel st).1
  = Done (if has_bits m (mask st) then Some off else None)
  /\ in_move_of (handle_event os fuel st).2 (assigned_wd os st p) = true.
Proof.
  intros off key m p Hc Hw Hann Hmoved Hself Hign Hknown Hdeep Hwd.
  enough (exists st',
             handle_event os fuel st
             = (Done (if has_bits m (mask st) then Some off else None), st')
             /\ in_move_of st' (assigned_wd os st p) = true)
    as (st' & -> & H) by now split.
  rewrite handle_event_eq by exact Hc. cbn zeta. fold off key. rewrite Hw.
  destruct (advanced_fields st) as (E1 & E2 & E3 & E4).
  set (st1 := advanced st) in *.
  unfold bind at 1. rewrite on_new_subdirectory_eq, E2, Hw. cbn zeta.
  rewrite E3. fold m p. rewrite Hann, Hmoved.
  assert (assigned_wd os st1 p = assigned_wd os st p) as Ewd
    by (unfold assigned_wd; now rewrite E1).
  pose proof (add_watch_silent_Done os fuel p st1 Hknown Hdeep) as Hdone.
  pose proof (add_watch_returns os fuel p true st1 _ Hdone) as [_ Hinst].
  pose proof (add_watch_silent_frame os fuel p st1) as (Hbuf & _).
  pose proof (add_watch_mask os fuel p true st1) as Hmask.
  rewrite Ewd in *.
  destruct (add_watch os fuel p true st1) as [[wd|e|] st2];
    cbn [fst snd] in Hdone, Hinst, Hbuf, Hmask |- *; try discriminate.
  injection Hdone as ->.
  destruct (Z.geb_spec (assigned_wd os st p) 0) as [_|]; [|lia]. cbn [andb].
  destruct Hinst as [w Hw2]; [lia|]. rewrite Hw2.
  set (st3 := with_watches _ st2).
  assert (buffer st3 = buffer st) as Ebuf by (cbn; congruence).
  unfold bind at 1. rewrite on_move_self_eq, Ebuf. fold off m. rewrite Hself.
  assert ((match watches st3 !! key with
           | Some _ => (Done tt, st3)
           | None => (Done tt, st3)
           end) = (Done tt, st3)) as -> by now destruct (watches st3 !! key).
  unfold bind at 1. rewrite on_ignored_eq, Ebuf. fold off m. rewrite Hign.
  run_monad. rewrite Ebuf. fold off m.
  assert (mask st3 = mask st) as -> by (cbn; congruence).
  exists st3. split; [now destruct (has_bits m (mask st))|].
  unfold st3. rewrite in_move_of_insert. now destruct (decide _).
Qed.

(** C4: the [in_move] flag is one-shot.  In a round of read() on a
    complete record that names a watch of the table:
    - a self-move event for a watch whose flag is up lowers the flag,
      keeps the path, and makes no call at all: the watch is not
      unregistered;
    - a self-move event for a watch whose flag is down unregisters it;
    - an event that tells of a subdirectory moved into a recursive watch
      (the moved-in reconciliation) raises the flag of the identifier of
      that subdirectory, when the status of every child that the
      directories list can be taken;
    - no round raises the flag of an identifier otherwise, and no call of
      add_watch() raises a flag.
    So the flag of an identifier is up only from its moved-in
    reconciliation to the next self-move event for it. *)
Theorem C4_in_move_one_shot fuel st watch :
  let off := bytes_handled st in
  let key := event_wd (buffer st) off in
  let m := event_mask (buffer st) off in
  let p := path_join (Watch.path watch) (event_name (buffer st) off) in
  complete_event st ->
  watches st !! key = Some watch ->
  let r := handle_event os fuel st in
  (announces_subdirectory m watch = false ->
   has_bits m IN_MOVE_SELF = true ->
   Watch.in_move watch = true ->
   r.1 = Done (if has_bits m (mask st) then Some off else None)
   /\ trace r.2 = trace st
   /\ watches r.2
      = (if has_bits m IN_IGNORED
         then delete key (<[key := Watch.mk (Watch.path watch) false]> (watches st))
         else <[key := Watch.mk (Watch.path watch) false]> (watches st))
   /\ in_move_of r.2 key = false)
  /\ (announces_subdirectory m watch = false ->
      has_bits m IN_MOVE_SELF = true ->
      Watch.in_move watch = false ->
      exists tr, trace r.2 = tr ++ trace st /\ In (c_inotify_rm_watch key) tr)
  /\ (announces_subdirectory m watch = true ->
      has_bits m IN_MOVED_TO = true ->
      has_bits m IN_MOVE_SELF = false ->
      has_bits m IN_IGNORED = false ->
      known_statuses os ->
      deep_enough os fuel p ->
      0 <= assigned_wd os st p ->
      in_move_of r.2 (assigned_wd os st p) = true)
  /\ (forall wd, in_move_of r.2 wd = true ->
                 in_move_of st wd = true \/ reconciled os st wd)
  /\ (forall fuel' path in_move,
         raises_no_in_move st (add_watch os fuel' path in_move st).2).
Proof.
  intros off key m p Hc Hw. cbn zeta. repeat split.
  - destruct (self_move_round os fuel st watch Hc Hw H H0)
      as (tr & st' & Hrun & _). fold off key m in Hrun. now rewrite Hrun.
  - destruct (self_move_round os fuel st watch Hc Hw H H0)
      as (tr & st' & Hrun & Htr & _ & _ & _ & Hcalls).
    rewrite H1 in Hcalls. subst tr. now rewrite Hrun.
  - destruct (self_move_round os fuel st watch Hc Hw H H0)
      as (tr & st' & Hrun & _ & _ & _ & Hwatches & _).
    fold off key m in Hwatches. unfold after_self_move in Hwatches.
    rewrite H1 in Hwatches. now rewrite Hrun.
  - destruct (self_move_round os fuel st watch Hc Hw H H0)
      as (tr & st' & Hrun & _ & _ & _ & Hwatches & _).
    fold off key m in Hwatches. unfold after_self_move in Hwatches.
    rewrite H1 in Hwatches. rewrite Hrun. cbn [snd]. unfold in_move_of.
    rewrite Hwatches. destruct (has_bits m IN_IGNORED).
    + now rewrite lookup_delete_eq.
    + now rewrite lookup_insert_eq.
  - intros Hann Hself Hflag.
    destruct (self_move_round os fuel st watch Hc Hw Hann Hself)
      as (tr & st' & Hrun & Htr & _ & _ & _ & Hcalls).
    fold off key m in Hcalls. rewrite Hflag in Hcalls. destruct Hcalls as [_ Hiff].
    exists tr. rewrite Hrun. split; [exact Htr|]. apply Hiff.
    destruct (ends_with_slash _); [reflexivity|].
    exists watch. split; [exact Hw | apply starts_with_refl].
  - intros Hann Hmoved Hself Hign Hknown Hdeep Hwd.
    now apply reconciliation_round.
  - apply round_in_move.
  - intros fuel' path in_move. apply add_watch_raises_no_in_move.
Qed.

End Reconciliation.

Lemma C4_in_move_one_shot_witness :
  (* the flag of 2 is up: the self-move event lowers it and unregisters nothing *)
  (let st := pending IN_ALL_EVENTS
               [(1, Watch.mk "/tmp/a" false); (2, Watch.mk "/tmp/a/d" true)]
               [Event.mk 2 IN_MOVE_SELF 0 0 ""] in
   let r := handle_event demo_os 0 st in
   r.1 = Done (Some 0) /\ trace r.2 = trace st /\ in_move_of r.2 2 = false)
  (* the flag of 2 is down: the self-move event unregisters 2 *)
  /\ (let st := pending IN_ALL_EVENTS demo_table [Event.mk 2 IN_MOVE_SELF 0 0 ""] in
      let r := handle_event demo_os 0 st in
      exists tr, trace r.2 = tr ++ trace st /\ In (c_inotify_rm_watch 2) tr)
  (* [d] is moved into [/tmp/a]: the flag of its identifier, 2, goes up *)
  /\ (let st := pending IN_ALL_EVENTS [(1, Watch.mk "/tmp/a" false)]
                  [Event.mk 1 (Z.lor IN_MOVED_TO IN_ISDIR) 7 16 "d"] in
      in_move_of (handle_event demo_os 1 st).2 2 = true).
Proof.
  split; [|split].
  - cbn zeta.
    destruct (C4_in_move_one_shot demo_os 0
                (pending IN_ALL_EVENTS
                   [(1, Watch.mk "/tmp/a" false); (2, Watch.mk "/tmp/a/d" true)]
                   [Event.mk 2 IN_MOVE_SELF 0 0 ""])
                (Watch.mk "/tmp/a/d" true)) as [H _].
    + unfold complete_event. vm_compute. discriminate.
    + reflexivity.
    + destruct H as (H1 & H2 & _ & H4); try reflexivity. now repeat split.
  - cbn zeta.
    destruct (C4_in_move_one_shot demo_os 0
                (pending IN_ALL_EVENTS demo_table [Event.mk 2 IN_MOVE_SELF 0 0 ""])
                (Watch.mk "/tmp/a/d" false)) as (_ & H & _).
    + unfold complete_event. vm_compute. discriminate.
    + reflexivity.
    + apply H; reflexivity.
  - cbn zeta.
    destruct (C4_in_move_one_shot demo_os 1
                (pending IN_ALL_EVENTS [(1, Watch.mk "/tmp/a" false)]
                   [Event.mk 1 (Z.lor IN_MOVED_TO IN_ISDIR) 7 16 "d"])
                (Watch.mk "/tmp/a" false)) as (_ & _ & H & _).
    + unfold complete_event. vm_compute. discriminate.
    + reflexivity.
    + apply H; try reflexivity.
      * exact demo_os_known_statuses.
      * intros subdir [<-|[]]. discriminate.
      * vm_compute. discriminate.
Defined.

(** ** C10: the pending events come first *)

Section Pending_first.

Variable os : OS.

Lemma on_move_self_Done off key st :
  exists st',
    on_move_self os off key st = (Done tt, st')
    /\ buffer st' = buffer st /\ mask st' = mask st.
Proof.
  rewrite on_move_self_eq.
  destruct (watches st !! key) as [watch|]; [|now exists st].
  destruct (has_bits _ _); [|now exists st].
  destruct (Watch.in_move watch); [now eexists|].
  destruct (ends_with_slash _).
  - rewrite rm_watch_eq. destruct (negb _); now eexists.
  - destruct (rm_loop os (fun it => starts_with (Watch.path watch) (Watch.path it.2))
                (map_to_list (watches st)) st) as (tr & -> & _).
    now eexists.
Qed.

(** A round on a complete record of a known watch that does not tell of
    a new subdirectory ends normally; the buffer is as it was. *)
Lemma plain_round fuel st watch :
  let off := bytes_handled st in
  let m := event_mask (buffer st) off in
  complete_event st ->
  watches st !! event_wd (buffer st) off = Some watch ->
  announces_subdirectory m watch = false ->
  exists st',
    handle_event os fuel st
    = (Done (if has_bits m (mask st) then Some off else None), st')
    /\ buffer st' = buffer st /\ mask st' = mask st.
Proof.
  intros off m Hc Hw Hann.
  rewrite handle_event_eq by exact Hc. cbn zeta. fold off. rewrite Hw.
  destruct (advanced_fields st) as (E1 & E2 & E3 & E4).
  set (st1 := advanced st) in *.
  erewrite bind_Done;
    [|rewrite on_new_subdirectory_eq, E2, Hw; cbn zeta; rewrite E3; fold m;
      rewrite Hann; reflexivity].
  destruct (on_move_self_Done off (event_wd (buffer st) off) st1)
    as (st2 & Hrun & Eb2 & Em2).
  erewrite bind_Done; [|exact Hrun].
  erewrite bind_Done; [|apply on_ignored_eq].
  set (st3 := if has_bits _ _ then _ else st2).
  assert (buffer st3 = buffer st /\ mask st3 = mask st) as [Eb3 Em3].
  { unfold st3. destruct (has_bits _ _); cbn; split; congruence. }
  exists st3. run_monad. rewrite Eb3, Em3. fold m.
  now destruct (has_bits m (mask st)).
Qed.

Lemma handles_no_wait c : handles c -> is_wait c = false.
Proof. now intros [H _]. Qed.


End Pending_first.



(** ** C6: the time that read() takes *)

Section Timeout.

Variable os : OS.

(** read() returns [nullptr] from the refill only when poll() timed out. *)
Lemma refill_timeout timeout read_delay st st' :
  refill os timeout read_delay st = (Done false, st') ->
  st' = with_call (c_poll timeout) st
  /\ poll os (count is_poll (trace st)) timeout = poll_timeout.
Proof.
  unfold refill. run_monad.
  destruct (_ =? 0); [|discriminate].
  destruct (poll _ _ _); [now intros [= <-] | | discriminate].
  destruct (usleep _ _ _); [|discriminate].
  destruct (sys_read _ _); [|discriminate].
  cbn. destruct (_ >? 0); discriminate.
Qed.

(** The clock has been read once more when the pending records have been
    handled. *)
Lemma clock_after_round timeout read_delay fuel st st1 st2 r :
  refill os timeout read_delay (with_call c_now st) = (Done true, st1) ->
  drain os fuel st1 = (r, st2) ->
  count is_now (trace st2) = S (count is_now (trace st)).
Proof.
  intros H1 H2.
  pose proof (refill_no_clock os timeout read_delay (with_call c_now st)) as Hr.
  pose proof (drain_handles os fuel st1) as Hd.
  rewrite H1 in Hr. rewrite H2 in Hd. cbn [snd] in Hr, Hd.
  rewrite (calls_between_count _ is_now _ _ (fun _ c (H : handles c) => proj2 H) Hd).
  now rewrite (calls_between_count _ is_now _ _ (fun _ c H => H) Hr).
Qed.

Lemma time_elapsed_steady k :
  steady_clock os -> 0 <= time_elapsed os k < 2 ^ 31.
Proof.
  intros H. specialize (H k). unfold time_elapsed.
  set (d := now os (S k) - now os k) in *.
  assert (0 <= d ÷ 1000000 < 2 ^ 31) as Hq.
  { rewrite Z.quot_div_nonneg by lia. split.
    - apply Z.div_pos; lia.
    - apply Z.div_lt_upper_bound; lia. }
  rewrite to_int_id; lia.
Qed.

(** A retry is given what is left of the time allowed. *)
Lemma read_retry fuel timeout read_delay st st1 st2 :
  refill os timeout read_delay (with_call c_now st) = (Done true, st1) ->
  drain os fuel st1 = (Done None, st2) ->
  let e := time_elapsed os (count is_now (trace st)) in
  read os (S fuel) timeout read_delay st
  = if timeout <? 0
    then read os fuel timeout read_delay (with_call c_now st2)
    else if to_int (timeout - e) >? 0
    then read os fuel (to_int (timeout - e)) read_delay (with_call c_now st2)
    else (Done None, with_call c_now st2).
Proof.
  intros H1 H2. cbn zeta. rewrite read_eq. cbn zeta. rewrite H1, H2.
  now rewrite (clock_after_round _ _ _ _ _ _ _ H1 H2).
Qed.

(** read() times out only after rounds that each left something of the
    time allowed but the last, or on a poll() that was given what was left
    of it and timed out; the rounds are told by the readings of the clock,
    two for each. *)
Lemma read_times_out fuel : forall timeout read_delay st st',
  0 <= timeout ->
  read os fuel timeout read_delay st = (Done None, st') ->
  let k := count is_now (trace st) in
  exists n : nat,
    (forall i : nat, (0 < i < n)%nat -> 0 < budget os k i timeout)
    /\ (((0 < n)%nat
         /\ count is_now (trace st') = (k + 2 * n)%nat
         /\ budget os k n timeout <= 0)
        \/ (((0 < n)%nat -> 0 < budget os k n timeout)
            /\ count is_now (trace st') = (k + 2 * n + 1)%nat
            /\ head (trace st') = Some (c_poll (budget os k n timeout))
            /\ poll os (count is_poll (List.tail (trace st')))
                 (budget os k n timeout) = poll_timeout)).
Proof.
  induction fuel as [|fuel IH]; intros timeout read_delay st st' Ht Hrun;
    [discriminate|].
  cbn zeta.
  destruct (refill os timeout read_delay (with_call c_now st))
    as [[[|]|e|] st1] eqn:Hrefill.
  - destruct (drain os fuel st1) as [[[off|]|e|] st2] eqn:Hdrain.
    + rewrite read_eq in Hrun. cbn zeta in Hrun. now rewrite Hrefill, Hdrain in Hrun.
    + rewrite (read_retry _ _ _ _ _ _ Hrefill Hdrain) in Hrun. cbn zeta in Hrun.
      pose proof (clock_after_round _ _ _ _ _ _ _ Hrefill Hdrain) as Hclock.
      set (k := count is_now (trace st)) in *.
      set (e := time_elapsed os k) in *.
      assert (forall n, budget os k (S n) timeout
                        = budget os (S (S k)) n (to_int (timeout - e))) as Hstep.
      { intros n. cbn [budget]. fold e.
        destruct (Z.ltb_spec timeout 0) as [|_]; [lia | reflexivity]. }
      destruct (Z.ltb_spec timeout 0) as [|_]; [lia|].
      destruct (Z.gtb_spec (to_int (timeout - e)) 0) as [Hpos|Hneg].
      * apply IH in Hrun as (n & Hall & Hn); [|lia].
        change (count is_now (trace (with_call c_now st2)))
          with (S (count is_now (trace st2))) in Hall, Hn.
        rewrite Hclock in Hall, Hn.
        exists (S n). split.
        { intros [|i] Hi; [lia|]. rewrite Hstep.
          destruct i as [|i]; [exact Hpos | apply Hall; lia]. }
        rewrite Hstep.
        destruct Hn as [(Hn1 & Hn2 & Hn3)|(Hn1 & Hn2 & Hn3)].
        -- left. split; [lia|]. split; [lia | exact Hn3].
        -- right. split; [|split; [lia | exact Hn3]].
           intros _. destruct n as [|n]; [exact Hpos | apply Hn1; lia].
      * injection Hrun as <-. exists 1%nat. split; [intros i Hi; lia|].
        left. rewrite Hstep. cbn [budget].
        change (count is_now (trace (with_call c_now st2)))
          with (S (count is_now (trace st2))).
        rewrite Hclock. split; [lia|]. split; lia.
    + rewrite read_eq in Hrun. cbn zeta in Hrun. now rewrite Hrefill, Hdrain in Hrun.
    + rewrite read_eq in Hrun. cbn zeta in Hrun. now rewrite Hrefill, Hdrain in Hrun.
  - rewrite read_eq in Hrun. cbn zeta in Hrun. rewrite Hrefill in Hrun.
    injection Hrun as <-.
    apply refill_timeout in Hrefill as [-> Hpoll].
    exists 0%nat. split; [intros i Hi; lia|]. right. cbn [budget].
    split; [intros Hn; lia|]. split; [|split; [reflexivity | exact Hpoll]].
    change (count is_now (trace (with_call (c_poll timeout) (with_call c_now st))))
      with (S (count is_now (trace st))). lia.
  - rewrite read_eq in Hrun. cbn zeta in Hrun. now rewrite Hrefill in Hrun.
  - rewrite read_eq in Hrun. cbn zeta in Hrun. now rewrite Hrefill in Hrun.
Qed.

(** With a steady clock what is left of the time allowed is the time
    allowed less the time counted over the rounds. *)
Lemma budget_steady :
  steady_clock os ->
  forall (n k : nat) timeout,
    0 <= timeout < 2 ^ 31 ->
    (forall i : nat, (0 < i < n)%nat -> 0 < budget os k i timeout) ->
    budget os k n timeout = timeout - spent os k n.
Proof.
  intros Hclock. induction n as [|n IH]; intros k timeout Ht Hall.
  - cbn. lia.
  - pose proof (time_elapsed_steady k Hclock) as He.
    cbn [budget spent]. destruct (Z.ltb_spec timeout 0) as [|_]; [lia|].
    rewrite (to_int_id (timeout - time_elapsed os k)) by lia.
    destruct n as [|n]; [cbn; lia|].
    pose proof (Hall 1%nat ltac:(lia)) as H1. cbn [budget] in H1.
    destruct (Z.ltb_spec timeout 0) as [|_]; [lia|].
    rewrite (to_int_id (timeout - time_elapsed os k)) in H1 by lia.
    rewrite IH; [lia | lia |].
    intros i Hi. specialize (Hall (S i) ltac:(lia)). cbn [budget] in Hall.
    destruct (Z.ltb_spec timeout 0) as [|_]; [lia|].
    now rewrite (to_int_id (timeout - time_elapsed os k)) in Hall by lia.
Qed.

(** Told to wait for ever, read() does not time out. *)
Lemma read_waits_for_ever fuel : forall timeout read_delay st,
  patient_poll os -> timeout < 0 ->
  (read os fuel timeout read_delay st).1 <> Done None.
Proof.
  induction fuel as [|fuel IH]; intros timeout read_delay st Hpoll Ht;
    [discriminate|].
  rewrite read_eq. cbn zeta.
  destruct (refill os timeout read_delay (with_call c_now st))
    as [[[|]|e|] st1] eqn:Hrefill; try discriminate.
  - destruct (drain os fuel st1) as [[[off|]|e|] st2]; try discriminate.
    destruct (Z.ltb_spec timeout 0) as [_|]; [|lia]. now apply IH.
  - apply refill_timeout in Hrefill as [_ H]. now apply Hpoll in H.
Qed.

(** C6 (amended): the time allowed to read() is counted round by round,
    in whole milliseconds read from the system clock:
    - after a round that handled its records with none to return, a
      non-negative [timeout] is lessened by the time that the round took
      and read() goes on with what is left, if any is left, and returns
      [nullptr] if none is; a negative [timeout] is passed on as it is;
    - read() given a non-negative [timeout] returns [nullptr] only after
      some number of such rounds, two readings of the clock each, every
      one of which but the last left something of [timeout]: either
      straight after the last of them, nothing being left, or from a
      poll() that was given what was left and timed out;
    - when the clock does not go back, nor leaps by 2^31 milliseconds
      between two readings, and [timeout] is less than 2^31, what is left
      after such rounds is [timeout] less the time counted over them;
    - with a negative [timeout], and a poll() that then never times out,
      read() never returns [nullptr];
    - with [timeout] zero, an empty buffer and nothing readable, read()
      returns [nullptr] having only read the clock and polled.
    The sleep of [read_delay] milliseconds is not held against what is
    left of the time allowed before it is taken. *)
Theorem C6_timeout_accounting :
  (forall fuel timeout read_delay st st1 st2,
      refill os timeout read_delay (with_call c_now st) = (Done true, st1) ->
      drain os fuel st1 = (Done None, st2) ->
      let e := time_elapsed os (count is_now (trace st)) in
      read os (S fuel) timeout read_delay st
      = if timeout <? 0
        then read os fuel timeout read_delay (with_call c_now st2)
        else if to_int (timeout - e) >? 0
        then read os fuel (to_int (timeout - e)) read_delay (with_call c_now st2)
        else (Done None, with_call c_now st2))
  /\ (forall fuel timeout read_delay st st',
         0 <= timeout ->
         read os fuel timeout read_delay st = (Done None, st') ->
         let k := count is_now (trace st) in
         exists n : nat,
           (forall i : nat, (0 < i < n)%nat -> 0 < budget os k i timeout)
           /\ (((0 < n)%nat
                /\ count is_now (trace st') = (k + 2 * n)%nat
                /\ budget os k n timeout <= 0)
               \/ (((0 < n)%nat -> 0 < budget os k n timeout)
                   /\ count is_now (trace st') = (k + 2 * n + 1)%nat
                   /\ head (trace st') = Some (c_poll (budget os k n timeout))
                   /\ poll os (count is_poll (List.tail (trace st')))
                        (budget os k n timeout) = poll_timeout)))
  /\ (steady_clock os ->
      forall (n k : nat) timeout,
        0 <= timeout < 2 ^ 31 ->
        (forall i : nat, (0 < i < n)%nat -> 0 < budget os k i timeout) ->
        budget os k n timeout = timeout - spent os k n)
  /\ (forall fuel timeout read_delay st,
         patient_poll os -> timeout < 0 ->
         (read os fuel timeout read_delay st).1 <> Done None)
  /\ (forall fuel read_delay st,
         bytes_in_buffer st = 0 ->
         poll os (count is_poll (trace st)) 0 = poll_timeout ->
         read os (S fuel) 0 read_delay st
         = (Done None, with_call (c_poll 0) (with_call c_now st))).
Proof.
  split; [|split; [|split; [|split]]].
  - intros fuel timeout read_delay st st1 st2. apply read_retry.
  - intros fuel. apply read_times_out.
  - apply budget_steady.
  - intros fuel. apply read_waits_for_ever.
  - intros fuel read_delay st Hempty Hpoll. rewrite read_eq. cbn zeta.
    unfold refill. run_monad. cbn [bytes_in_buffer with_call trace].
    rewrite Hempty.
    change (count is_poll (c_now :: trace st)) with (count is_poll (trace st)).
    now rewrite Hpoll.
Qed.

End Timeout.

(** C6, as stated, fails: read(10, 1000) is allowed 10 milliseconds; the
    buffer is empty and poll() finds something readable; read() then sleeps
    for 1000000 microseconds, reads an event that the interest mask does
    not meet, finds that 1005 milliseconds have passed on the clock, and
    returns [nullptr]: it has blocked a hundred times longer than it was
    allowed to. *)
Lemma C6_counterexample :
  let st := pending IN_MODIFY [(1, Watch.mk "/tmp/a" false)] [] in
  let r := read busy_os 3 10 1000 st in
  r.1 = Done None
  /\ trace r.2 = [c_now; c_read; c_usleep 1000000; c_poll 10; c_now]
  /\ 10 * 1000 < slept (trace r.2)
  /\ time_elapsed busy_os 0 = 1005.
Proof. repeat split. Qed.

Lemma C6_timeout_accounting_witness :
  (* nothing is readable: read(0, 0) returns at once *)
  read demo_os 1 0 0 (Inotify_new IN_ALL_EVENTS zeroed)
  = (Done None, with_call (c_poll 0) (with_call c_now (Inotify_new IN_ALL_EVENTS zeroed)))
  (* the time-out of read(10, 1000) in a world where something is always
     readable came after rounds told by the clock *)
  /\ (let r := read busy_os 3 10 1000
                 (pending IN_MODIFY [(1, Watch.mk "/tmp/a" false)] []) in
      exists n : nat,
        (forall i : nat, (0 < i < n)%nat -> 0 < budget busy_os 0 i 10)
        /\ (((0 < n)%nat
             /\ count is_now (trace r.2) = (0 + 2 * n)%nat
             /\ budget busy_os 0 n 10 <= 0)
            \/ (((0 < n)%nat -> 0 < budget busy_os 0 n 10)
                /\ count is_now (trace r.2) = (0 + 2 * n + 1)%nat
                /\ head (trace r.2) = Some (c_poll (budget busy_os 0 n 10))
                /\ poll busy_os (count is_poll (List.tail (trace r.2)))
                     (budget busy_os 0 n 10) = poll_timeout)))
  (* one round of 1005 milliseconds leaves 10 - 1005 of the 10 allowed *)
  /\ budget busy_os 0 1 10 = 10 - spent busy_os 0 1.
Proof.
  destruct (C6_timeout_accounting demo_os) as (_ & _ & _ & _ & Hzero).
  destruct (C6_timeout_accounting busy_os) as (_ & Hout & Hsteady & _).
  split; [|split].
  - apply Hzero; reflexivity.
  - cbn zeta.
    apply (Hout 3%nat 10 1000
             (pending IN_MODIFY [(1, Watch.mk "/tmp/a" false)] [])).
    + lia.
    + reflexivity.
  - apply Hsteady.
    + intros k. cbn [now busy_os]. lia.
    + lia.
    + intros i Hi. lia.
Defined.

(** ** The record being handled can be overwritten *)

Lemma created_is_plain wd child :
  has_bits (Event.mask (created wd child)) IN_MOVE_SELF = false
  /\ has_bits (Event.mask (created wd child)) IN_IGNORED = false.
Proof. unfold created. cbn [Event.mask]. now destruct (directory_entry child). Qed.

(** When the only record of the buffer, at offset zero, tells of a
    subdirectory created in a recursive watch, read() first returns both
    cursors to zero and then calls add_watch(), which, the status of every
    child of that subdirectory being known, writes the records of the
    children from offset zero on, that is over the record being handled.
    The round therefore goes on with the record of the first child: if the
    interest mask meets it, the address that read() returns is that of the
    child's record, and the event for the subdirectory itself is never
    returned; the cursors are left so that the next call handles the
    child's record once more. *)
Theorem last_record_overwritten os fuel st watch kid rest :
  let m := event_mask (buffer st) 0 in
  let p := path_join (Watch.path watch) (event_name (buffer st) 0) in
  let wd := assigned_wd os st p in
  bytes_handled st = 0 ->
  next_cursor st = bytes_in_buffer st ->
  watches st !! event_wd (buffer st) 0 = Some watch ->
  announces_subdirectory m watch = true ->
  has_bits m IN_MOVED_TO = false ->
  wd <> -1 ->
  - 2 ^ 31 <= wd < 2 ^ 31 ->
  not_duplicate st wd p ->
  Forall (fun child => has_status child = true) (directory_iterator os p) ->
  List.filter (reported st (recursive_path p)) (directory_iterator os p)
  = kid :: rest ->
  Forall (fun child => file_name (d_name child)) (kid :: rest) ->
  records_size (kid :: rest) <= sizeof_buffer ->
  sizeof_buffer <= Z.of_nat (List.length (buffer st)) ->
  let r := handle_event os (S fuel) st in
  r.1 = Done (if has_bits (Event.mask (created wd kid)) (mask st)
              then Some 0 else None)
  /\ event_at (buffer r.2) 0 = created wd kid
  /\ bytes_handled r.2 = 0
  /\ bytes_in_buffer r.2 = records_size (kid :: rest).
Proof.
  intros m p wd Hcur Hlast Hw Hann Hmoved Hwd Hint Hdup Hstat Hkids Hnames Hfit Hlen.
  assert (Forall (fun child => (String.length (d_name child) <= NAME_MAX)%nat)
            (kid :: rest)) as Hbounds.
  { eapply Forall_impl; [exact Hnames|]. now intros c [_ H]. }
  enough (exists st',
             handle_event os (S fuel) st
             = (Done (if has_bits (Event.mask (created wd kid)) (mask st)
                      then Some 0 else None), st')
             /\ event_at (buffer st') 0 = created wd kid
             /\ bytes_handled st' = 0
             /\ bytes_in_buffer st' = records_size (kid :: rest))
    as (st' & Heq & H) by (cbn zeta; rewrite Heq; split; [reflexivity | exact H]).
  rewrite handle_event_eq by (unfold complete_event; lia).
  cbn zeta. rewrite Hcur, Hw.
  assert (advanced st = with_bytes_in_buffer 0 (with_bytes_handled 0 st)) as ->.
  { unfold advanced. rewrite Hlast.
    destruct (Z.geb_spec (bytes_in_buffer st) (bytes_in_buffer st)); [reflexivity | lia]. }
  set (st1 := with_bytes_in_buffer 0 (with_bytes_handled 0 st)).
  set (st2 := with_buffer (fun b => append_records wd (kid :: rest) b 0)
                (with_bytes_in_buffer (0 + records_size (kid :: rest))
                   (registered os st1 p))).
  assert (add_watch os (S fuel) p false st1 = (Done wd, st2)) as Hadd.
  { pose proof (add_watch_reports os fuel p st1) as H. cbn zeta in H.
    change (assigned_wd os st1 p) with wd in H.
    change (reported st1 (recursive_path p)) with (reported st (recursive_path p)) in H.
    rewrite Hkids in H.
    rewrite H; [reflexivity | assumption | exact Hdup | exact Hstat | assumption | |].
    - apply Z.le_refl.
    - change (bytes_in_buffer st1) with 0. rewrite Z.add_0_l. exact Hfit. }
  assert (event_at (buffer st2) 0 = created wd kid) as Hev.
  { pose proof (append_records_events wd (kid :: rest) (buffer st) 0 Hint Hnames
                  (Z.le_refl 0)) as H.
    rewrite Z.add_0_l in H. specialize (H (Z.le_trans _ _ _ Hfit Hlen)).
    cbn [List.length events_from map] in H.
    exact (f_equal (fun l => List.hd (created wd kid) l) H). }
  assert (event_mask (buffer st2) 0 = Event.mask (created wd kid)) as Hmask2.
  { change (event_mask (buffer st2) 0) with (Event.mask (event_at (buffer st2) 0)).
    rewrite Hev. reflexivity. }
  destruct (created_is_plain wd kid) as [Hself Hign].
  unfold bind at 1. rewrite on_new_subdirectory_eq.
  change (watches st1) with (watches st). rewrite Hw. cbn zeta.
  change (buffer st1) with (buffer st). fold m p. rewrite Hann, Hmoved, Hadd.
  cbn [andb].
  unfold bind at 1. rewrite on_move_self_eq, Hmask2, Hself.
  assert ((match watches st2 !! event_wd (buffer st) 0 with
           | Some _ => (Done tt, st2)
           | None => (Done tt, st2)
           end) = (Done tt, st2)) as -> by now destruct (watches st2 !! _).
  unfold bind at 1. rewrite on_ignored_eq, Hmask2, Hign.
  run_monad. rewrite Hmask2. change (mask st2) with (mask st).
  exists st2. split; [now destruct (has_bits _ (mask st))|].
  split; [exact Hev|]. split; [reflexivity|].
  change (bytes_in_buffer st2) with (0 + records_size (kid :: rest)).
  apply Z.add_0_l.
Qed.

Lemma last_record_overwritten_witness :
  let st := pending IN_ALL_EVENTS [(1, Watch.mk "/tmp/a" false)]
              [Event.mk 1 (Z.lor IN_CREATE IN_ISDIR) 0 16 "d"] in
  let r := handle_event demo_os 1 st in
  event_at (buffer st) 0 = Event.mk 1 (Z.lor IN_CREATE IN_ISDIR) 0 16 "d"
  /\ r.1 = Done (Some 0)
  /\ event_at (buffer r.2) 0 = Event.mk 2 IN_CREATE 0 4 "e"
  /\ bytes_handled r.2 = 0
  /\ bytes_in_buffer r.2 = 20.
Proof.
  cbn zeta. split; [reflexivity|].
  apply (last_record_overwritten demo_os 0
           (pending IN_ALL_EVENTS [(1, Watch.mk "/tmp/a" false)]
              [Event.mk 1 (Z.lor IN_CREATE IN_ISDIR) 0 16 "d"])
           (Watch.mk "/tmp/a" false) (mk_dirent "e" ft_regular) []);
    try reflexivity; try discriminate.
  - split; [discriminate | reflexivity].
  - vm_compute. repeat constructor.
  - repeat constructor; cbn; try lia. intros [H|[]]. discriminate.
Defined.

(** ** The teardown of a moved watch goes by the letters of the paths *)

Lemma starts_with_app p s : starts_with p (p +:+ s) = true.
Proof.
  unfold starts_with. induction p as [|c p IH].
  { change (EmptyString +:+ s) with s. now destruct s. }
  change (String c p +:+ s) with (String c (p +:+ s)). cbn [String.prefix].
  now destruct (ascii_dec c c).
Qed.

(** When read() handles the self-move event of a recursive watch whose
    [in_move] flag is down, it unregisters every watch of the table whose
    path begins with the letters of the path of the moved watch, whatever
    follows them: not only the watches below the moved directory, but also
    those beside it whose name goes on where its name ends, as [/tmp/ab]
    beside [/tmp/a]. *)
Theorem self_move_unregisters_by_letters os fuel st watch wd it suffix :
  let off := bytes_handled st in
  let key := event_wd (buffer st) off in
  let m := event_mask (buffer st) off in
  complete_event st ->
  watches st !! key = Some watch ->
  announces_subdirectory m watch = false ->
  has_bits m IN_MOVE_SELF = true ->
  Watch.in_move watch = false ->
  ends_with_slash (Watch.path watch) = false ->
  watches st !! wd = Some it ->
  Watch.path it = Watch.path watch +:+ suffix ->
  In (c_inotify_rm_watch wd) (trace (handle_event os fuel st).2).
Proof.
  intros off key m Hc Hw Hann Hself Hflag Hslash Hit Hpath.
  destruct (self_move_round os fuel st watch Hc Hw Hann Hself)
    as (tr & st' & Hrun & Htr & _ & _ & _ & Hcalls).
  fold off key m in Hrun, Hcalls. rewrite Hflag, Hslash in Hcalls.
  destruct Hcalls as [_ Hcalls].
  rewrite Hrun. cbn [snd]. rewrite Htr. apply in_or_app. left.
  apply Hcalls. exists it. split; [exact Hit|].
  rewrite Hpath. apply starts_with_app.
Qed.

Lemma self_move_unregisters_by_letters_witness :
  let st := pending IN_ALL_EVENTS
              [(1, Watch.mk "/tmp/a" false); (5, Watch.mk "/tmp/ab" false)]
              [Event.mk 1 IN_MOVE_SELF 0 0 ""] in
  In (c_inotify_rm_watch 5) (trace (handle_event demo_os 0 st).2).
Proof.
  cbn zeta.
  apply (self_move_unregisters_by_letters demo_os 0
           (pending IN_ALL_EVENTS
              [(1, Watch.mk "/tmp/a" false); (5, Watch.mk "/tmp/ab" false)]
              [Event.mk 1 IN_MOVE_SELF 0 0 ""])
           (Watch.mk "/tmp/a" false) 5 (Watch.mk "/tmp/ab" false) "b");
    try reflexivity.
  unfold complete_event. vm_compute. discriminate.
Defined.

(** * Further properties of the member functions *)

(** ** rm_all_watches() *)

Lemma rm_each_count os (l : list (Z * Watch.t)) : forall st,
  count is_rm_watch (trace (for_each l (fun it => rm_watch os it.1) st).2)
  = (List.length l + count is_rm_watch (trace st))%nat.
Proof.
  induction l as [|it l IH]; intros st; [reflexivity|].
  cbn [for_each]. erewrite bind_Done; [|apply rm_watch_eq].
  rewrite IH. destruct (negb _); unfold count; cbn; lia.
Qed.

Lemma rm_each_trace os (l : list (Z * Watch.t)) : forall st,
  for_each l (fun it => rm_watch os it.1) st
  = (Done tt,
     mk_Inotify (mask st) (watches st) (buffer st) (bytes_in_buffer st)
       (bytes_handled st)
       (unregistering os (count is_rm_watch (trace st)) (map fst l) ++ trace st)).
Proof.
  induction l as [|it l IH]; intros st; [now destruct st|].
  cbn [for_each map unregistering]. erewrite bind_Done; [|apply rm_watch_eq].
  rewrite IH. rewrite <- app_assoc.
  now destruct (Z.eqb_spec (inotify_rm_watch os (count is_rm_watch (trace st)) it.1) 0).
Qed.

(** rm_all_watches() throws nothing and asks the kernel, once for each
    entry of the table and for nothing else, to remove the watch; it warns
    of the removals that the kernel refuses, after each of them, and of
    nothing else; it leaves the table, the interest mask and the buffer as
    they are: the entries go only when read() meets the IN_IGNORED events
    that follow.  The order in which the entries are taken is that of the
    table, of which nothing is said. *)
Theorem rm_all_watches_unregisters_each os st :
  exists tr,
    rm_all_watches os st
    = (Done tt,
       mk_Inotify (mask st) (watches st) (buffer st) (bytes_in_buffer st)
         (bytes_handled st) (tr ++ trace st))
    /\ Forall unregisters tr
    /\ (forall wd, In (c_inotify_rm_watch wd) tr <-> is_Some (watches st !! wd))
    /\ count is_rm_watch tr = size (watches st)
    /\ exists wds,
        Permutation wds (map fst (map_to_list (watches st)))
        /\ tr = unregistering os (count is_rm_watch (trace st)) wds.
Proof.
  destruct (rm_loop os (fun _ => true) (map_to_list (watches st)) st)
    as (tr & Hrun & Hun & Hiff).
  assert (rm_all_watches os st
          = for_each (map_to_list (watches st)) (fun it => rm_watch os it.1) st)
    as Hall by reflexivity.
  exists tr. split; [rewrite Hall; exact Hrun|]. split; [exact Hun|]. split; [|split].
  - intros wd. rewrite Hiff. split.
    + intros ([k it] & Hin & _ & <-). exists it.
      now apply elem_of_map_to_list, list_elem_of_In.
    + intros [it Hit]. exists (wd, it). split; [|now split].
      now apply list_elem_of_In, elem_of_map_to_list.
  - pose proof (rm_each_count os (map_to_list (watches st)) st) as Hcount.
    rewrite <- Hall, (Hrun : rm_all_watches os st = _) in Hcount.
    cbn [snd trace] in Hcount.
    unfold count in *. rewrite List.filter_app, length_app in Hcount.
    rewrite length_map_to_list in Hcount. lia.
  - exists (map fst (map_to_list (watches st))). split; [reflexivity|].
    pose proof (rm_each_trace os (map_to_list (watches st)) st) as Htrace.
    rewrite <- Hall, (Hrun : rm_all_watches os st = _) in Htrace.
    apply (f_equal (fun r => trace r.2)) in Htrace. cbn [snd trace] in Htrace.
    now apply app_inv_tail in Htrace.
Qed.

(** ** The test of a duplicate *)

(** The test by which add_watch() ignores a path as a duplicate, made with
    [std::mismatch] and the distances to the ends of the two strings, holds
    exactly when the new path is the stored one, or the stored one followed
    by one slash, as the comment in the source says of it. *)
Theorem is_duplicate_iff path0 p :
  is_duplicate path0 p (recursive_path p) = true
  <-> p = path0 \/ p = path0 +:+ "/".
Proof.
  split; [apply is_duplicate_true|].
  intros [->| ->]; [apply is_duplicate_same | apply is_duplicate_slash].
Qed.

(** ** add_watch(): what it leaves in the table, and what it throws *)

Lemma path_eq wd st :
  path wd st
  = match watches st !! wd with
    | Some it => (Done (Watch.path it), st)
    | None => (Throw out_of_range, st)
    end.
Proof. unfold path. run_monad. now destruct (watches st !! wd). Qed.

Lemma same_watches_refl st : same_watches st st.
Proof. reflexivity. Qed.

Lemma same_watches_trans a b c :
  same_watches a b -> same_watches b c -> same_watches a c.
Proof. unfold same_watches. congruence. Qed.

Lemma synthesize_same_watches wd recursive child :
  preserves same_watches (synthesize wd recursive child).
Proof. intros st. apply synthesize_keeps_table. Qed.

Lemma synthesize_loop_same_watches wd recursive children :
  preserves same_watches (for_each children (synthesize wd recursive)).
Proof.
  apply preserves_for_each;
    [exact same_watches_refl | exact same_watches_trans |].
  intros child _. apply synthesize_same_watches.
Qed.

(** Without a descent, what follows the registration leaves the table. *)
Lemma backfill_same_watches os fuel p in_move wd st :
  in_move = false \/ recursive_path p = false ->
  watches (backfill os fuel p in_move wd st).2 = watches st.
Proof.
  intros H. unfold backfill. destruct in_move.
  - destruct H as [H|H]; [discriminate|]. now rewrite H.
  - apply synthesize_loop_same_watches.
Qed.

(** The table once add_watch() has returned, when it makes no descent. *)
Lemma add_watch_table os fuel p in_move st :
  let wd := assigned_wd os st p in
  wd <> -1 ->
  in_move = false \/ recursive_path p = false ->
  watches (add_watch os (S fuel) p in_move st).2
  = match watches st !! wd with
    | None => <[wd := Watch.mk p false]> (watches st)
    | Some it =>
        if is_duplicate (Watch.path it) p (recursive_path p) then watches st
        else <[wd := Watch.mk p (Watch.in_move it)]> (watches st)
    end.
Proof.
  intros wd Hwd Hflat. rewrite add_watch_eq. cbn zeta. fold wd.
  destruct (Z.eqb_spec wd (-1)) as [E|_]; [contradiction|].
  rewrite record_watch_eq. cbn [watches with_call].
  destruct (watches st !! wd) as [it|].
  - destruct (is_duplicate _ _ _); [reflexivity|].
    pose proof (backfill_same_watches os fuel p in_move wd
                  (with_watches (insert wd (Watch.mk p (Watch.in_move it)))
                     (with_call (registration st p) st)) Hflat) as H.
    destruct (backfill _ _ _ _ _ _) as [[| |] st3]; exact H.
  - pose proof (backfill_same_watches os fuel p in_move wd
                  (with_watches (insert wd (Watch.mk p false))
                     (with_call (registration st p) st)) Hflat) as H.
    destruct (backfill _ _ _ _ _ _) as [[| |] st3]; exact H.
Qed.

(** After add_watch() has returned an identifier other than -1, path() of
    that identifier does not throw; and when the call made no descent
    (it was given [in_move] false, or a path that ends with a slash),
    path() gives back the path that was given to add_watch(), but for the
    slash at its end when the path was ignored as the duplicate of a
    recursive watch. *)
Theorem add_watch_then_path os fuel p in_move st wd st' :
  add_watch os fuel p in_move st = (Done wd, st') ->
  wd <> -1 ->
  (exists s, path wd st' = (Done s, st'))
  /\ (in_move = false \/ recursive_path p = false ->
      path wd st' = (Done p, st')
      \/ exists s, p = s +:+ "/" /\ path wd st' = (Done s, st')).
Proof.
  intros Hrun Hwd.
  destruct (add_watch_returns os fuel p in_move st wd) as [Hassigned Hsome];
    [now rewrite Hrun|].
  rewrite Hrun in Hsome. cbn [snd] in Hsome.
  destruct (Hsome Hwd) as [it Hit].
  split; [exists (Watch.path it); now rewrite path_eq, Hit|].
  intros Hflat. destruct fuel as [|fuel]; [discriminate|].
  pose proof (add_watch_table os fuel p in_move st) as Htable. cbn zeta in Htable.
  rewrite <- Hassigned, Hrun in Htable. cbn [snd] in Htable.
  specialize (Htable Hwd Hflat). rewrite path_eq.
  destruct (watches st !! wd) as [it0|] eqn:Hold.
  - destruct (is_duplicate _ _ _) eqn:Hdup.
    + rewrite Htable, Hold.
      destruct (is_duplicate_true _ _ Hdup) as [->|Hp]; [now left|].
      right. exists (Watch.path it0). now split.
    + rewrite Htable, lookup_insert_eq. now left.
  - rewrite Htable, lookup_insert_eq. now left.
Qed.

Lemma add_watch_then_path_witness :
  let r := add_watch demo_os 1 "/tmp/b/" false (Inotify_new IN_ALL_EVENTS zeroed) in
  (exists s, path 3 r.2 = (Done s, r.2))
  /\ (false = false \/ recursive_path "/tmp/b/" = false ->
      path 3 r.2 = (Done "/tmp/b/", r.2)
      \/ exists s, "/tmp/b/" = s +:+ "/" /\ path 3 r.2 = (Done s, r.2)).
Proof.
  cbn zeta.
  apply (add_watch_then_path demo_os 1 "/tmp/b/" false (Inotify_new IN_ALL_EVENTS zeroed) 3).
  - vm_compute. reflexivity.
  - discriminate.
Defined.

(** When the kernel answers with an identifier that the table holds under
    another path (the directory was moved, or a watch that was not
    recursive is asked for anew as a recursive one), add_watch() puts the
    new path in the place of the old one and keeps the [in_move] flag of the
    entry; nothing else of the table changes. *)
Theorem add_watch_renames os fuel p in_move st it :
  let wd := assigned_wd os st p in
  wd <> -1 ->
  watches st !! wd = Some it ->
  p <> Watch.path it ->
  p <> Watch.path it +:+ "/" ->
  in_move = false \/ recursive_path p = false ->
  watches (add_watch os (S fuel) p in_move st).2
  = <[wd := Watch.mk p (Watch.in_move it)]> (watches st).
Proof.
  intros wd Hwd Hit Hne Hne' Hflat.
  pose proof (add_watch_table os fuel p in_move st Hwd Hflat) as H.
  cbn zeta in H. fold wd in H. rewrite Hit in H.
  destruct (is_duplicate _ _ _) eqn:Hdup; [|exact H].
  destruct (is_duplicate_true _ _ Hdup); contradiction.
Qed.

Lemma add_watch_renames_witness :
  let st := pending IN_ALL_EVENTS [(3, Watch.mk "/tmp/b/" true)] [] in
  watches (add_watch demo_os 1 "/tmp/b" false st).2
  = <[3 := Watch.mk "/tmp/b" true]> (watches st).
Proof.
  cbn zeta.
  apply (add_watch_renames demo_os 0 "/tmp/b" false
           (pending IN_ALL_EVENTS [(3, Watch.mk "/tmp/b/" true)] [])
           (Watch.mk "/tmp/b/" true)).
  - discriminate.
  - reflexivity.
  - discriminate.
  - discriminate.
  - now left.
Defined.

(** add_watch() only adds: whatever it is given and however it ends, it
    keeps the interest mask, loses no entry of the table, and calls nothing
    but inotify_add_watch() and the logger; it removes no watch and waits
    for nothing. *)
Theorem add_watch_only_adds os fuel p in_move st :
  let st' := (add_watch os fuel p in_move st).2 in
  mask st' = mask st
  /\ (forall wd, is_Some (watches st !! wd) -> is_Some (watches st' !! wd))
  /\ exists tr, calls_since st st' tr /\ Forall registers tr.
Proof.
  cbn zeta. split; [apply add_watch_mask|]. split.
  - apply add_watch_keeps_watches.
  - destruct (add_watch_calls os (fun _ => registers) fuel p in_move
                ltac:(now intros) ltac:(now intros) st) as [_ H].
    exact H.
Qed.

(** ** What add_watch() throws *)

Section For_each_throw.

Context {A : Type} (body : A -> M unit).
Variable R : Inotify -> Inotify -> Prop.
Hypothesis R_refl : forall st, R st st.
Hypothesis R_trans : forall a b c, R a b -> R b c -> R a c.

(** An exception that leaves a loop was thrown by the body on one of the
    elements. *)
Lemma for_each_Throw (l : list A) :
  (forall x, In x l -> preserves R (body x)) ->
  forall st e st',
    for_each l body st = (Throw e, st') ->
    exists x st0, In x l /\ R st st0 /\ body x st0 = (Throw e, st').
Proof.
  induction l as [|a l IH]; intros Hbody st e st' Hrun; [discriminate|].
  cbn [for_each] in Hrun. unfold bind in Hrun.
  pose proof (Hbody a (or_introl eq_refl) st) as Hstep.
  destruct (body a st) as [[[]|e0|] st1] eqn:E; cbn [snd] in Hstep.
  - destruct (IH (fun x Hx => Hbody x (or_intror Hx)) st1 e st' Hrun)
      as (x & st0 & Hin & HR & Hx).
    exists x, st0. split; [now right|]. split; [|exact Hx].
    now apply R_trans with st1.
  - injection Hrun as -> ->. exists a, st. split; [now left|]. now split.
  - discriminate.
Qed.

End For_each_throw.

Lemma no_status child :
  has_status child = false -> d_type child = ft_none (status_errno child).
Proof. unfold has_status, status_errno. now destruct (d_type child). Qed.

(** The two exceptions of the loop that makes the events: the status of
    the child cannot be taken, or its record does not fit. *)
Lemma synthesize_Throw wd recursive child st e st' :
  synthesize wd recursive child st = (Throw e, st') ->
  watches st' = watches st
  /\ ((e = system_error EINVAL
       /\ trace st' = c_log err_buffer_underruns :: trace st
       /\ sizeof_buffer < to_size_t (bytes_in_buffer st'))
      \/ (d_type child = ft_none (status_errno child)
          /\ e = system_error (status_errno child))).
Proof.
  rewrite synthesize_eq. destruct (has_status child) eqn:Hs.
  2:{ intros H. injection H as <- <-. split; [reflexivity|]. right.
      split; [now apply no_status | reflexivity]. }
  unfold synthesize_known. destruct (negb (other_entry child)); [|discriminate].
  unfold make_event. run_monad.
  destruct (has_bits (mask st) IN_CREATE || directory_entry child && recursive);
    [|discriminate].
  cbn [bytes_in_buffer with_bytes_in_buffer].
  destruct (Z.gtb_spec
              (to_size_t (to_int (to_size_t (bytes_in_buffer st)
                                  + (sizeof_event + padded_len (d_name child)))))
              sizeof_buffer) as [Hover|_]; [|discriminate].
  intros H. injection H as <- <-. cbn. split; [reflexivity|]. left.
  repeat split. exact Hover.
Qed.

(** A silent call throws only the error of a child, met on the way down,
    whose status cannot be taken. *)
Lemma add_watch_silent_Throw os fuel : forall p st e,
  (add_watch os fuel p true st).1 = Throw e ->
  exists q child errno,
    below os p q
    /\ In child (directory_iterator os q)
    /\ d_type child = ft_none errno
    /\ e = system_error errno.
Proof.
  induction fuel as [|fuel IH]; intros p st e Hthrow; [discriminate|].
  rewrite add_watch_eq in Hthrow. cbn zeta in Hthrow.
  destruct (_ =? -1); [discriminate|].
  rewrite record_watch_eq in Hthrow.
  assert (forall st2 st3,
             backfill os fuel p true (assigned_wd os st p) st2 = (Throw e, st3) ->
             exists q child errno,
               below os p q
               /\ In child (directory_iterator os q)
               /\ d_type child = ft_none errno
               /\ e = system_error errno) as Hback.
  { intros st2 st3 Hrun. unfold backfill in Hrun.
    destruct (recursive_path p); [|discriminate].
    unfold descend in Hrun.
    destruct (for_each_Throw _ (fun _ _ => True) (fun _ => I) (fun _ _ _ _ _ => I)
                (directory_iterator os p) (fun _ _ _ => I) st2 e st3 Hrun)
      as (subdir & st0 & Hin & _ & Hbody).
    rewrite descend_step in Hbody.
    destruct (has_status subdir) eqn:Hs.
    2:{ injection Hbody as <- <-.
        exists p, subdir, (status_errno subdir).
        split; [apply below_self|]. split; [exact Hin|].
        split; [now apply no_status | reflexivity]. }
    destruct (directory_entry subdir) eqn:Hdir; [|discriminate].
    unfold bind in Hbody.
    pose proof (IH (path_join p (d_name subdir)) st0) as Hsub.
    destruct (add_watch os fuel _ true st0) as [[wd|e1|] st1]; cbn [fst] in *;
      try discriminate.
    injection Hbody as <- <-.
    destruct (Hsub e1 eq_refl) as (q & child & errno & Hq & Hc & Ht & He).
    exists q, child, errno. split; [|now repeat split].
    apply below_trans with (path_join p (d_name subdir)); [|exact Hq].
    now apply (below_child os p p subdir (below_self os p)). }
  destruct (watches _ !! _) as [it|].
  - destruct (is_duplicate _ _ _); [discriminate|].
    match type of Hthrow with context [backfill os fuel p true ?w ?s] =>
      pose proof (Hback s) as H; destruct (backfill os fuel p true w s) as [[| |] st3]
    end; cbn [fst] in *; [discriminate | | discriminate].
    injection Hthrow as ->. now apply (H st3).
  - match type of Hthrow with context [backfill os fuel p true ?w ?s] =>
      pose proof (Hback s) as H; destruct (backfill os fuel p true w s) as [[| |] st3]
    end; cbn [fst] in *; [discriminate | | discriminate].
    injection Hthrow as ->. now apply (H st3).
Qed.

(** What an exception of add_watch() tells. *)
Lemma add_watch_Throw os fuel p in_move st e :
  (add_watch os fuel p in_move st).1 = Throw e ->
  let st' := (add_watch os fuel p in_move st).2 in
  (in_move = false
   /\ e = system_error EINVAL
   /\ head (trace st') = Some (c_log err_buffer_underruns)
   /\ sizeof_buffer < to_size_t (bytes_in_buffer st')
   /\ is_Some (watches st' !! assigned_wd os st p))
  \/ (exists q child errno,
        below os p q
        /\ In child (directory_iterator os q)
        /\ d_type child = ft_none errno
        /\ e = system_error errno
        /\ (in_move = false -> q = p)).
Proof.
  intros Hthrow. cbn zeta.
  destruct in_move.
  { right. destruct (add_watch_silent_Throw os fuel p st e Hthrow)
      as (q & child & errno & H1 & H2 & H3 & H4).
    exists q, child, errno. now repeat split. }
  destruct fuel as [|fuel]; [discriminate|].
  rewrite add_watch_eq in *. cbn zeta in *.
  set (wd := assigned_wd os st p) in *.
  destruct (wd =? -1); [discriminate|].
  rewrite record_watch_eq in *. cbn [watches with_call] in *.
  assert (forall st2,
             is_Some (watches st2 !! wd) ->
             forall st3,
               backfill os fuel p false wd st2 = (Throw e, st3) ->
               (false = false
                /\ e = system_error EINVAL
                /\ head (trace st3) = Some (c_log err_buffer_underruns)
                /\ sizeof_buffer < to_size_t (bytes_in_buffer st3)
                /\ is_Some (watches st3 !! wd))
               \/ (exists q child errno,
                     below os p q
                     /\ In child (directory_iterator os q)
                     /\ d_type child = ft_none errno
                     /\ e = system_error errno
                     /\ (false = false -> q = p))) as Hback.
  { intros st2 Hin st3 Hrun. unfold backfill in Hrun.
    destruct (for_each_Throw (synthesize wd (recursive_path p)) same_watches
                same_watches_refl same_watches_trans (directory_iterator os p)
                (fun child _ => synthesize_same_watches wd _ child) st2 e st3 Hrun)
      as (child & st0 & Hchild_in & Hsame & Hchild).
    destruct (synthesize_Throw _ _ _ _ _ _ Hchild)
      as (Hw & [(-> & Htr & Hover)|(Hnone & ->)]).
    - left. split; [reflexivity|]. split; [reflexivity|].
      split; [now rewrite Htr|]. split; [exact Hover|].
      rewrite Hw, Hsame. exact Hin.
    - right. exists p, child, (status_errno child).
      split; [apply below_self|]. now repeat split. }
  destruct (watches st !! wd) as [it|].
  - destruct (is_duplicate _ _ _); [discriminate|].
    match type of Hthrow with context [backfill os fuel p false wd ?s] =>
      pose proof (Hback s) as H; destruct (backfill os fuel p false wd s)
        as [[| |] st3] eqn:E
    end; cbn [fst snd] in *; [discriminate | | discriminate].
    injection Hthrow as ->. apply H; [|reflexivity].
    cbn. rewrite lookup_insert_eq. now eexists.
  - match type of Hthrow with context [backfill os fuel p false wd ?s] =>
      pose proof (Hback s) as H; destruct (backfill os fuel p false wd s)
        as [[| |] st3] eqn:E
    end; cbn [fst snd] in *; [discriminate | | discriminate].
    injection Hthrow as ->. apply H; [|reflexivity].
    cbn. rewrite lookup_insert_eq. now eexists.
Qed.

(** add_watch() throws in two cases only.  Either it was told to report
    the children ([in_move] false) and the event of one of them did not
    fit in the buffer: it then throws the system error EINVAL, having
    logged the failure last, and the call is not undone: the path stays
    registered and in the table, and [bytes_in_buffer] is left above the
    size of the buffer, since it is advanced before the room is tested.
    Or the status of a child cannot be taken: it then throws the error of
    that status; the child is one of the path itself when the children are
    reported, and one of the path or of a directory below it in a silent
    call ([in_move] true), which throws nothing else. *)
Theorem add_watch_throws os fuel p in_move st e :
  (add_watch os fuel p in_move st).1 = Throw e ->
  let st' := (add_watch os fuel p in_move st).2 in
  (in_move = false
   /\ e = system_error EINVAL
   /\ head (trace st') = Some (c_log err_buffer_underruns)
   /\ sizeof_buffer < to_size_t (bytes_in_buffer st')
   /\ is_Some (watches st' !! assigned_wd os st p))
  \/ (exists q child errno,
        below os p q
        /\ In child (directory_iterator os q)
        /\ d_type child = ft_none errno
        /\ e = system_error errno
        /\ (in_move = false -> q = p)).
Proof.
  intros Hthrow st'. subst st'.
  exact (add_watch_Throw os fuel p in_move st e Hthrow).
Qed.

Lemma add_watch_throws_witness :
  (* the records of the 300 files of [/tmp/c] do not fit *)
  (let st := Inotify_new IN_ALL_EVENTS zeroed in
   let st' := (add_watch crowded_os 1 "/tmp/c" false st).2 in
   (false = false
    /\ system_error EINVAL = system_error EINVAL
    /\ head (trace st') = Some (c_log err_buffer_underruns)
    /\ sizeof_buffer < to_size_t (bytes_in_buffer st')
    /\ is_Some (watches st' !! assigned_wd crowded_os st "/tmp/c"))
   \/ (exists q child errno,
         below crowded_os "/tmp/c" q
         /\ In child (directory_iterator crowded_os q)
         /\ d_type child = ft_none errno
         /\ system_error EINVAL = system_error errno
         /\ (false = false -> q = "/tmp/c")))
  (* the status of [/tmp/e/d/x] cannot be taken *)
  /\ (let st := Inotify_new IN_ALL_EVENTS zeroed in
      let st' := (add_watch locked_os 2 "/tmp/e" true st).2 in
      (true = false
       /\ system_error EACCES = system_error EINVAL
       /\ head (trace st') = Some (c_log err_buffer_underruns)
       /\ sizeof_buffer < to_size_t (bytes_in_buffer st')
       /\ is_Some (watches st' !! assigned_wd locked_os st "/tmp/e"))
      \/ (exists q child errno,
            below locked_os "/tmp/e" q
            /\ In child (directory_iterator locked_os q)
            /\ d_type child = ft_none errno
            /\ system_error EACCES = system_error errno
            /\ (true = false -> q = "/tmp/e"))).
Proof.
  split.
  - apply (add_watch_throws crowded_os 1 "/tmp/c" false
             (Inotify_new IN_ALL_EVENTS zeroed) (system_error EINVAL)).
    vm_compute. reflexivity.
  - apply (add_watch_throws locked_os 2 "/tmp/e" true
             (Inotify_new IN_ALL_EVENTS zeroed) (system_error EACCES)).
    vm_compute. reflexivity.
Defined.

(** ** What read() returns and what it throws *)

(** The result of a computation: an event that it returns meets the
    interest mask, as the buffer and the mask stand when it returns; an
    exception that it throws is a system error. *)
Lemma on_new_subdirectory_Throw os fuel off key st e st' :
  on_new_subdirectory os fuel off key st = (Throw e, st') ->
  exists errno, e = system_error errno.
Proof.
  rewrite on_new_subdirectory_eq.
  destruct (watches st !! key) as [watch|]; [|discriminate]. cbn zeta.
  destruct (announces_subdirectory _ _); [|discriminate].
  destruct (add_watch os fuel _ _ st) as [[wd|e1|] st2] eqn:Hadd.
  - destruct (has_bits _ IN_MOVED_TO && (wd >=? 0)) eqn:Hflag; [|discriminate].
    destruct (add_watch_returns os fuel _ _ st wd ltac:(now rewrite Hadd))
      as [_ Hsome].
    rewrite Hadd in Hsome. cbn [snd] in Hsome.
    apply andb_true_iff in Hflag as [_ Hwd].
    destruct Hsome as [w Hw]; [lia|]. now rewrite Hw.
  - intros H. injection H as <- <-.
    destruct (add_watch_Throw os fuel _ _ st e1 ltac:(now rewrite Hadd))
      as [(_ & -> & _)|(q & child & errno & _ & _ & _ & -> & _)]; now eexists.
  - discriminate.
Qed.

Lemma handle_event_outcome os fuel st r st' :
  handle_event os fuel st = (r, st') ->
  match r with
  | Done (Some off) =>
      off = bytes_handled st
      /\ has_bits (event_mask (buffer st') off) (mask st') = true
  | Throw e => exists errno, e = system_error errno
  | _ => True
  end.
Proof.
  intros Hrun.
  destruct (Z_le_gt_dec (next_cursor st) (bytes_in_buffer st)) as [Hc|Hc].
  2:{ rewrite handle_event_incomplete in Hrun by (unfold complete_event; lia).
      injection Hrun as <- <-. now eexists. }
  rewrite handle_event_eq in Hrun by exact Hc. cbn zeta in Hrun.
  destruct (watches st !! _) as [w|] eqn:Hw.
  2:{ injection Hrun as <- <-. now eexists. }
  unfold bind at 1 in Hrun.
  destruct (on_new_subdirectory os fuel _ _ (advanced st)) as [[[]|e|] st1] eqn:Hnew.
  - unfold bind at 1 in Hrun.
    destruct (on_move_self_Done os (bytes_handled st)
                (event_wd (buffer st) (bytes_handled st)) st1) as (st2 & Hms & _).
    rewrite Hms in Hrun.
    unfold bind at 1 in Hrun. rewrite on_ignored_eq in Hrun.
    set (st3 := if has_bits _ IN_IGNORED then _ else st2) in Hrun.
    unfold bind, get, ret in Hrun.
    destruct (has_bits (event_mask (buffer st3) (bytes_handled st)) (mask st3))
      eqn:Hmeet; injection Hrun as <- <-; [now split | exact I].
  - injection Hrun as <- <-. now apply on_new_subdirectory_Throw in Hnew.
  - injection Hrun as <- <-. exact I.
Qed.

Lemma drain_outcome os fuel : forall st r st',
  drain os fuel st = (r, st') ->
  match r with
  | Done (Some off) => has_bits (event_mask (buffer st') off) (mask st') = true
  | Throw e => exists errno, e = system_error errno
  | _ => True
  end.
Proof.
  induction fuel as [|fuel IH]; intros st r st' Hrun.
  - injection Hrun as <- <-. exact I.
  - cbn [drain] in Hrun. unfold bind at 1 in Hrun.
    destruct (handle_event os fuel st) as [[[off|]|e|] st1] eqn:Hround.
    + injection Hrun as <- <-.
      now apply handle_event_outcome in Hround as [_ H].
    + unfold bind, get in Hrun.
      destruct (bytes_handled st1 >? 0); [now apply IH in Hrun|].
      injection Hrun as <- <-. exact I.
    + injection Hrun as <- <-. now apply handle_event_outcome in Hround.
    + injection Hrun as <- <-. exact I.
Qed.

Lemma refill_Throw os timeout read_delay st e st' :
  refill os timeout read_delay st = (Throw e, st') ->
  exists errno, e = system_error errno.
Proof.
  unfold refill. run_monad. destruct (bytes_in_buffer st =? 0); [|discriminate].
  destruct (poll os _ timeout); [discriminate | |].
  - destruct (usleep os _ _).
    + destruct (sys_read os _) as [data|errno].
      * cbn. destruct (_ >? 0); [discriminate|].
        intros H. injection H as <- <-. now eexists.
      * intros H. injection H as <- <-. now eexists.
    + intros H. injection H as <- <-. now eexists.
  - intros H. injection H as <- <-. now eexists.
Qed.

Lemma read_outcome os fuel : forall timeout read_delay st r st',
  read os fuel timeout read_delay st = (r, st') ->
  match r with
  | Done (Some off) => has_bits (event_mask (buffer st') off) (mask st') = true
  | Throw e => exists errno, e = system_error errno
  | _ => True
  end.
Proof.
  induction fuel as [|fuel IH]; intros timeout read_delay st r st' Hrun.
  - injection Hrun as <- <-. exact I.
  - rewrite read_eq in Hrun. cbn zeta in Hrun.
    destruct (refill os timeout read_delay (with_call c_now st))
      as [[[|]|e|] st1] eqn:Hfill.
    + destruct (drain os fuel st1) as [[[off|]|e|] st2] eqn:Hdrain.
      * injection Hrun as <- <-. now apply drain_outcome in Hdrain.
      * destruct (timeout <? 0); [now apply IH in Hrun|].
        destruct (_ >? 0); [now apply IH in Hrun|].
        injection Hrun as <- <-. exact I.
      * injection Hrun as <- <-. now apply drain_outcome in Hdrain.
      * injection Hrun as <- <-. exact I.
    + injection Hrun as <- <-. exact I.
    + injection Hrun as <- <-. now apply refill_Throw in Hfill.
    + injection Hrun as <- <-. exact I.
Qed.

Lemma refill_mask os timeout read_delay st :
  mask (refill os timeout read_delay st).2 = mask st.
Proof. now destruct (refill_no_clock os timeout read_delay st) as [H _]. Qed.

Lemma drain_mask os fuel st : mask (drain os fuel st).2 = mask st.
Proof. now destruct (drain_handles os fuel st) as [H _]. Qed.

Lemma read_mask os fuel : forall timeout read_delay st,
  mask (read os fuel timeout read_delay st).2 = mask st.
Proof.
  induction fuel as [|fuel IH]; intros timeout read_delay st; [reflexivity|].
  rewrite read_eq. cbn zeta.
  pose proof (refill_mask os timeout read_delay (with_call c_now st)) as Hfill.
  change (mask (with_call c_now st)) with (mask st) in Hfill.
  destruct (refill os timeout read_delay (with_call c_now st))
    as [[[|]|e|] st1]; cbn [snd] in Hfill; try exact Hfill.
  pose proof (drain_mask os fuel st1) as Hdrain.
  destruct (drain os fuel st1) as [[[off|]|e|] st2]; cbn [snd] in Hdrain;
    try (cbn [snd]; rewrite Hdrain; exact Hfill).
  destruct (timeout <? 0); [rewrite IH; cbn; congruence|].
  destruct (_ >? 0); [rewrite IH; cbn; congruence|].
  cbn. congruence.
Qed.

(** read() throws system errors only.  In particular the lookup
    [watches.at(wd)] that follows add_watch() in read() never throws
    [std::out_of_range]: an identifier that add_watch() returns and that is
    not negative is in the table. *)
Theorem read_throws_system_errors os fuel timeout read_delay st e :
  (read os fuel timeout read_delay st).1 = Throw e ->
  exists errno, e = system_error errno.
Proof.
  intros Hthrow.
  destruct (read os fuel timeout read_delay st) as [r st'] eqn:Hrun.
  cbn [fst] in Hthrow. subst r.
  exact (read_outcome os fuel timeout read_delay st (Throw e) st' Hrun).
Qed.

Lemma read_throws_system_errors_witness :
  exists errno, system_error 11 = system_error errno.
Proof.
  apply (read_throws_system_errors failing_os 1 0 0 (Inotify_new IN_ALL_EVENTS zeroed)
           (system_error 11)).
  vm_compute. reflexivity.
Defined.

(** An event that read() returns meets the interest mask of the object,
    which no call of read() changes: the mask of the record that the
    returned address points at, as the buffer stands when read() returns,
    has a bit of the interest mask. *)
Theorem read_returns_events_of_interest os fuel timeout read_delay st off :
  (read os fuel timeout read_delay st).1 = Done (Some off) ->
  let st' := (read os fuel timeout read_delay st).2 in
  mask st' = mask st
  /\ has_bits (event_mask (buffer st') off) (mask st) = true.
Proof.
  intros Hdone st'. subst st'.
  pose proof (read_mask os fuel timeout read_delay st) as Hmask.
  destruct (read os fuel timeout read_delay st) as [r st'] eqn:Hrun.
  cbn [fst snd] in *. subst r.
  split; [exact Hmask|]. rewrite <- Hmask.
  exact (read_outcome os fuel timeout read_delay st (Done (Some off)) st' Hrun).
Qed.

Lemma read_returns_events_of_interest_witness :
  let st := pending IN_CREATE [(1, Watch.mk "/tmp/a" false)]
              [Event.mk 1 IN_MODIFY 0 4 "f"; Event.mk 1 IN_CREATE 0 4 "g"] in
  let st' := (read demo_os 3 0 0 st).2 in
  mask st' = mask st
  /\ has_bits (event_mask (buffer st') 20) (mask st) = true.
Proof.
  cbn zeta.
  apply (read_returns_events_of_interest demo_os 3 0 0
           (pending IN_CREATE [(1, Watch.mk "/tmp/a" false)]
              [Event.mk 1 IN_MODIFY 0 4 "f"; Event.mk 1 IN_CREATE 0 4 "g"]) 20).
  vm_compute. reflexivity.
Defined.

(** ** The errors of read() *)

Lemma load_u32_bounds buf off : 0 <= load_u32 buf off < 2 ^ 32.
Proof.
  unfold load_u32, load8.
  pose proof (byte_val_bounds (peek buf off)).
  pose proof (byte_val_bounds (peek buf (off + 1))).
  pose proof (byte_val_bounds (peek buf (off + 2))).
  pose proof (byte_val_bounds (peek buf (off + 3))).
  lia.
Qed.

(** A round on a record that neither tells of a new subdirectory nor bears
    IN_MOVE_SELF: nothing is asked of the kernel, and the entry of the
    watch goes if the record bears IN_IGNORED. *)
Lemma quiet_round os fuel st watch :
  let off := bytes_handled st in
  let key := event_wd (buffer st) off in
  let m := event_mask (buffer st) off in
  complete_event st ->
  watches st !! key = Some watch ->
  announces_subdirectory m watch = false ->
  has_bits m IN_MOVE_SELF = false ->
  handle_event os fuel st
  = (Done (if has_bits m (mask st) then Some off else None),
     if has_bits m IN_IGNORED
     then with_watches (delete key) (advanced st) else advanced st).
Proof.
  intros off key m Hc Hw Hann Hself.
  rewrite handle_event_eq by assumption. cbn zeta. fold off key. rewrite Hw.
  destruct (advanced_fields st) as (E1 & E2 & E3 & E4).
  set (st1 := advanced st) in *.
  erewrite bind_Done;
    [|rewrite on_new_subdirectory_eq, E2, Hw; cbn zeta; rewrite E3; fold m;
      rewrite Hann; reflexivity].
  erewrite bind_Done;
    [|rewrite on_move_self_eq, E2, Hw, E3; fold m; rewrite Hself; reflexivity].
  erewrite bind_Done; [|apply on_ignored_eq].
  rewrite E3. fold m key. run_monad.
  destruct (has_bits m IN_IGNORED); cbn [buffer mask with_watches];
    rewrite E1, E3; fold m; now destruct (has_bits m (mask st)).
Qed.

(** When the buffer is empty and the kernel fails read(), read() logs the
    call that failed with its error and throws that error:
    - an error of poll() is thrown before any sleep or read;
    - an error of usleep() is thrown before any read;
    - an error of ::read() is thrown after [bytes_in_buffer] has been given
      its result, -1;
    - a ::read() that brings no byte is thrown as EIO.
    In every case the table is as it was. *)
Theorem read_refill_errors os fuel timeout read_delay st :
  bytes_in_buffer st = 0 ->
  let r := read os (S fuel) timeout read_delay st in
  let usec := to_uint32 (read_delay * 1000) in
  let polled := poll os (count is_poll (trace st)) timeout in
  let napped := usleep os (count is_usleep (trace st)) usec in
  let got := sys_read os (count is_read (trace st)) in
  let st1 := with_call (c_poll timeout) (with_call c_now st) in
  let st2 := with_call (c_usleep usec) st1 in
  (forall errno, polled = poll_error errno ->
      r = (Throw (system_error errno),
           with_call (c_log (err_syscall "poll()" errno)) st1))
  /\ (forall errno, polled = poll_ready -> napped = usleep_error errno ->
      r = (Throw (system_error errno),
           with_call (c_log (err_syscall "usleep()" errno)) st2))
  /\ (forall errno,
         polled = poll_ready -> napped = usleep_ok -> got = read_error errno ->
         r = (Throw (system_error errno),
              with_call (c_log (err_syscall "read()" errno))
                (with_bytes_in_buffer (-1) (with_call c_read st2))))
  /\ (polled = poll_ready -> napped = usleep_ok -> got = read_data [] ->
      r.1 = Throw (system_error EIO)
      /\ trace r.2 = c_log (err_syscall "read()" EIO) :: c_read :: trace st2
      /\ bytes_in_buffer r.2 = 0
      /\ watches r.2 = watches st).
Proof.
  intros Hempty. cbn zeta. rewrite read_eq. cbn zeta.
  unfold refill. run_monad. cbn [bytes_in_buffer with_call trace].
  rewrite Hempty. cbn [Z.eqb].
  change (count is_poll (c_now :: trace st)) with (count is_poll (trace st)).
  change (count is_usleep (c_now :: trace st)) with (count is_usleep (trace st)).
  change (count is_read (c_now :: trace st)) with (count is_read (trace st)).
  split; [|split; [|split]].
  - intros errno ->. reflexivity.
  - intros errno -> ->. reflexivity.
  - intros errno -> -> ->. reflexivity.
  - intros -> -> ->. repeat split.
Qed.

Lemma read_refill_errors_witness :
  let st := Inotify_new IN_ALL_EVENTS zeroed in
  read failing_os 1 0 0 st
  = (Throw (system_error 11),
     with_call (c_log (err_syscall "read()" 11))
       (with_bytes_in_buffer (-1)
          (with_call c_read
             (with_call (c_usleep 0)
                (with_call (c_poll 0) (with_call c_now st)))))).
Proof.
  cbn zeta.
  destruct (read_refill_errors failing_os 0 0 0 (Inotify_new IN_ALL_EVENTS zeroed)
              eq_refl) as (_ & _ & H & _).
  exact (H 11 eq_refl eq_refl eq_refl).
Defined.

(** When the buffer is not empty and the record at the cursor is not
    complete, read() throws EINVAL at once, having logged the failure and
    asked nothing of the kernel, and leaves the cursor past the end of the
    data.  Unless the length field found there makes the cursor wrap, the
    object is then in the same condition again: every later read() throws
    the same error.  A failure of ::read(), which leaves [bytes_in_buffer]
    at -1, puts a new object in this condition. *)
Theorem incomplete_event_sticks os fuel timeout read_delay st :
  wedged st ->
  let r := read os (S (S fuel)) timeout read_delay st in
  r = (Throw (system_error EINVAL),
       with_call (c_log err_incomplete_event)
         (with_bytes_handled (next_cursor st) (with_call c_now st)))
  /\ (0 <= next_cursor st ->
      next_cursor st + sizeof_event + event_len (buffer st) (next_cursor st) < 2 ^ 31 ->
      wedged r.2).
Proof.
  intros [Hdata Hinc]. cbn zeta.
  assert (read os (S (S fuel)) timeout read_delay st
          = (Throw (system_error EINVAL),
             with_call (c_log err_incomplete_event)
               (with_bytes_handled (next_cursor st) (with_call c_now st)))) as Hrun.
  { rewrite read_eq. cbn zeta. rewrite refill_pending by exact Hdata.
    cbn [drain]. unfold bind at 1.
    now rewrite handle_event_incomplete by exact Hinc. }
  rewrite Hrun. split; [reflexivity|].
  intros Hpos Hfit. split; [exact Hdata|].
  unfold complete_event in *. cbn [snd].
  unfold next_cursor at 1.
  cbn [bytes_handled bytes_in_buffer buffer with_call with_bytes_handled].
  pose proof (load_u32_bounds (buffer st) (next_cursor st + 12)) as Hlen.
  fold (event_len (buffer st) (next_cursor st)) in Hlen.
  unfold to_size_t, sizeof_event in *. rewrite Z.mod_small by lia.
  rewrite to_int_id by lia. lia.
Qed.

Lemma incomplete_event_sticks_witness :
  let st := (read failing_os 1 0 0 (Inotify_new IN_ALL_EVENTS zeroed)).2 in
  let r := read failing_os 2 0 0 st in
  bytes_in_buffer st = -1
  /\ r.1 = Throw (system_error EINVAL)
  /\ wedged r.2.
Proof.
  cbn zeta. split; [reflexivity|].
  assert (wedged (read failing_os 1 0 0 (Inotify_new IN_ALL_EVENTS zeroed)).2) as Hw.
  { split; [discriminate|]. unfold complete_event. vm_compute. now intros H. }
  destruct (incomplete_event_sticks failing_os 0 0 0 _ Hw) as (Hrun & Hstay).
  split; [now rewrite Hrun|].
  apply Hstay; vm_compute; [discriminate | reflexivity].
Defined.

(** When the record at the cursor is complete and names an identifier that
    the table does not hold, read() throws EINVAL, having logged the
    identifier and asked nothing of the kernel.  The cursor has passed the
    record by then: the record is not met again by the next read(). *)
Theorem read_unknown_watch os fuel timeout read_delay st :
  bytes_in_buffer st <> 0 ->
  complete_event st ->
  watches st !! event_wd (buffer st) (bytes_handled st) = None ->
  read os (S (S fuel)) timeout read_delay st
  = (Throw (system_error EINVAL),
     with_call (c_log (err_unknown_wd (event_wd (buffer st) (bytes_handled st))))
       (advanced (with_call c_now st))).
Proof.
  intros Hdata Hc Hw.
  rewrite read_eq. cbn zeta. rewrite refill_pending by exact Hdata.
  cbn [drain]. unfold bind at 1.
  rewrite handle_event_eq by exact Hc. cbn zeta.
  cbn [watches buffer bytes_handled with_call]. now rewrite Hw.
Qed.

Lemma read_unknown_watch_witness :
  let st := pending IN_ALL_EVENTS [(1, Watch.mk "/tmp/a" false)]
              [Event.mk 7 IN_CREATE 0 4 "x"; Event.mk 1 IN_CREATE 0 4 "y"] in
  let r := read demo_os 2 0 0 st in
  r.1 = Throw (system_error EINVAL)
  /\ head (trace r.2) = Some (c_log (err_unknown_wd 7))
  /\ bytes_handled r.2 = 20.
Proof.
  cbn zeta.
  rewrite (read_unknown_watch demo_os 0 0 0
             (pending IN_ALL_EVENTS [(1, Watch.mk "/tmp/a" false)]
                [Event.mk 7 IN_CREATE 0 4 "x"; Event.mk 1 IN_CREATE 0 4 "y"])).
  - repeat split.
  - discriminate.
  - unfold complete_event. vm_compute. discriminate.
  - reflexivity.
Defined.

(** When read() handles a record that bears IN_IGNORED for a watch of the
    table (and does not tell of a new subdirectory), the entry of that
    watch leaves the table and the others stay; from then on path() of
    that identifier throws [std::out_of_range], also when the event itself
    is returned to the caller because the interest mask meets it. *)
Theorem ignored_event_erases os fuel st watch :
  let off := bytes_handled st in
  let key := event_wd (buffer st) off in
  let m := event_mask (buffer st) off in
  complete_event st ->
  watches st !! key = Some watch ->
  announces_subdirectory m watch = false ->
  has_bits m IN_IGNORED = true ->
  let r := handle_event os fuel st in
  r.1 = Done (if has_bits m (mask st) then Some off else None)
  /\ path key r.2 = (Throw out_of_range, r.2)
  /\ forall wd, wd <> key ->
       (is_Some (watches r.2 !! wd) <-> is_Some (watches st !! wd)).
Proof.
  intros off key m Hc Hw Hann Hign. cbn zeta.
  assert (exists st',
             handle_event os fuel st
             = (Done (if has_bits m (mask st) then Some off else None), st')
             /\ watches st' !! key = None
             /\ forall wd, wd <> key ->
                  (is_Some (watches st' !! wd) <-> is_Some (watches st !! wd)))
    as (st' & Hrun & Hgone & Hrest).
  { destruct (has_bits m IN_MOVE_SELF) eqn:Hself.
    - destruct (self_move_round os fuel st watch Hc Hw Hann Hself)
        as (tr & st' & Hrun & _ & _ & _ & Htable & _).
      fold off key m in Hrun, Htable. exists st'. split; [exact Hrun|].
      rewrite Htable. unfold after_self_move. rewrite Hign.
      split; [apply lookup_delete_eq|].
      intros wd Hwd. rewrite lookup_delete_ne by congruence.
      destruct (Watch.in_move watch); [|reflexivity].
      now rewrite lookup_insert_ne by congruence.
    - pose proof (quiet_round os fuel st watch Hc Hw Hann Hself) as Hrun.
      cbn zeta in Hrun. fold off key m in Hrun. rewrite Hign in Hrun.
      eexists. split; [exact Hrun|].
      destruct (advanced_fields st) as (_ & E2 & _).
      cbn [watches with_watches]. rewrite E2.
      split; [apply lookup_delete_eq|].
      intros wd Hwd. now rewrite lookup_delete_ne by congruence. }
  rewrite Hrun. cbn [fst snd]. split; [reflexivity|]. split; [|exact Hrest].
  now rewrite path_eq, Hgone.
Qed.

Lemma ignored_event_erases_witness :
  let st := pending (Z.lor IN_ALL_EVENTS IN_IGNORED) demo_table
              [Event.mk 3 IN_IGNORED 0 0 ""] in
  let r := handle_event demo_os 0 st in
  r.1 = Done (Some 0)
  /\ path 3 r.2 = (Throw out_of_range, r.2)
  /\ forall wd, wd <> 3 ->
       (is_Some (watches r.2 !! wd) <-> is_Some (watches st !! wd)).
Proof.
  cbn zeta.
  apply (ignored_event_erases demo_os 0
           (pending (Z.lor IN_ALL_EVENTS IN_IGNORED) demo_table
              [Event.mk 3 IN_IGNORED 0 0 ""])
           (Watch.mk "/tmp/b/" false)).
  - unfold complete_event. vm_compute. discriminate.
  - reflexivity.
  - reflexivity.
  - reflexivity.
Defined.

(** When read() meets the event of a new subdirectory of a recursive watch
    and the kernel refuses to watch that subdirectory (it is gone already,
    or may not be read), read() throws nothing: add_watch() logs its
    warning, the table is as it was, and the event is returned to the
    caller like any other, if the interest mask meets it. *)
Theorem unwatchable_subdirectory_is_reported os fuel st watch :
  let off := bytes_handled st in
  let key := event_wd (buffer st) off in
  let m := event_mask (buffer st) off in
  let p := path_join (Watch.path watch) (event_name (buffer st) off) in
  complete_event st ->
  watches st !! key = Some watch ->
  announces_subdirectory m watch = true ->
  has_bits m IN_MOVE_SELF = false ->
  has_bits m IN_IGNORED = false ->
  assigned_wd os st p = -1 ->
  handle_event os (S fuel) st
  = (Done (if has_bits m (mask st) then Some off else None),
     with_call (c_log (warn_cannot_watch p))
       (with_call (registration st p) (advanced st))).
Proof.
  intros off key m p Hc Hw Hann Hself Hign Hrefused.
  rewrite handle_event_eq by assumption. cbn zeta. fold off key. rewrite Hw.
  destruct (advanced_fields st) as (E1 & E2 & E3 & E4).
  set (st1 := advanced st) in *.
  set (st2 := with_call (c_log (warn_cannot_watch p))
                (with_call (registration st p) st1)).
  assert (add_watch os (S fuel) p (has_bits m IN_MOVED_TO) st1 = (Done (-1), st2))
    as Hadd.
  { rewrite add_watch_eq. cbn zeta. unfold assigned_wd, registration in *.
    rewrite E1, Hrefused. reflexivity. }
  erewrite bind_Done;
    [|rewrite on_new_subdirectory_eq, E2, Hw; cbn zeta; rewrite E3; fold m p;
      rewrite Hann, Hadd, andb_false_r; reflexivity].
  erewrite bind_Done;
    [|rewrite on_move_self_eq; cbn [watches buffer st2 with_call];
      rewrite E2, Hw, E3; fold m; rewrite Hself; reflexivity].
  erewrite bind_Done; [|apply on_ignored_eq].
  cbn [buffer st2 with_call]. rewrite E3. fold m. rewrite Hign.
  run_monad. cbn [buffer mask st2 with_call]. rewrite E1, E3. fold m.
  now destruct (has_bits m (mask st)).
Qed.

Lemma unwatchable_subdirectory_is_reported_witness :
  let st := pending IN_ALL_EVENTS [(3, Watch.mk "/tmp/b" false)]
              [Event.mk 3 (Z.lor IN_CREATE IN_ISDIR) 0 4 "new"] in
  handle_event demo_os 1 st
  = (Done (Some 0),
     with_call (c_log (warn_cannot_watch "/tmp/b/new"))
       (with_call (registration st "/tmp/b/new") (advanced st))).
Proof.
  cbn zeta.
  apply (unwatchable_subdirectory_is_reported demo_os 0
           (pending IN_ALL_EVENTS [(3, Watch.mk "/tmp/b" false)]
              [Event.mk 3 (Z.lor IN_CREATE IN_ISDIR) 0 4 "new"])
           (Watch.mk "/tmp/b" false)); try reflexivity.
  unfold complete_event. vm_compute. discriminate.
Defined.

(** ** From the kernel to the caller *)

(** The refill that succeeds: the bytes that ::read() brought lie at the
    start of the buffer, [bytes_in_buffer] is their number. *)
Lemma refill_data os timeout read_delay st data :
  bytes_in_buffer st = 0 ->
  poll os (count is_poll (trace st)) timeout = poll_ready ->
  usleep os (count is_usleep (trace st)) (to_uint32 (read_delay * 1000)) = usleep_ok ->
  sys_read os (count is_read (trace st)) = read_data data ->
  (0 < List.length data)%nat ->
  Z.of_nat (List.length data) <= sizeof_buffer ->
  refill os timeout read_delay st
  = (Done true,
     with_bytes_in_buffer (Z.of_nat (List.length data))
       (with_buffer (fun b => store_bytes b 0 data)
          (with_call c_read
             (with_call (c_usleep (to_uint32 (read_delay * 1000)))
                (with_call (c_poll timeout) st))))).
Proof.
  intros Hempty Hpoll Hnap Hread Hsome Hfit.
  unfold refill. run_monad. rewrite Hempty. cbn [Z.eqb].
  rewrite Hpoll, Hnap, Hread.
  rewrite take_ge by lia. cbn.
  destruct (Z.gtb_spec (Z.of_nat (List.length data)) 0) as [_|H]; [reflexivity | lia].
Qed.

(** When the buffer is empty and the kernel has events, read() returns the
    first of them as the kernel wrote it, provided that the event names a
    watch of the table, meets the interest mask and does not tell of a new
    subdirectory of a recursive watch: the address returned is the start of
    the buffer and the record read there is the record of the kernel. *)
Theorem read_delivers_first_event os fuel timeout read_delay st e rest watch :
  let data := encode e ++ rest in
  bytes_in_buffer st = 0 ->
  bytes_handled st = 0 ->
  sizeof_buffer <= Z.of_nat (List.length (buffer st)) ->
  poll os (count is_poll (trace st)) timeout = poll_ready ->
  usleep os (count is_usleep (trace st)) (to_uint32 (read_delay * 1000)) = usleep_ok ->
  sys_read os (count is_read (trace st)) = read_data data ->
  Z.of_nat (List.length data) <= sizeof_buffer ->
  kernel_event e ->
  sizeof_event + Event.len e <= Z.of_nat (List.length data) ->
  watches st !! Event.wd e = Some watch ->
  announces_subdirectory (Event.mask e) watch = false ->
  has_bits (Event.mask e) (mask st) = true ->
  let r := read os (S (S fuel)) timeout read_delay st in
  r.1 = Done (Some 0) /\ event_at (buffer r.2) 0 = e.
Proof.
  intros data Hempty Hcur Hbuf Hpoll Hnap Hread Hfit
    (Hwd & Hmask & Hcookie & Hlen & Hname) Hwhole Hwatch Hann Hmeet.
  cbn zeta.
  assert (Z.of_nat (List.length (encode e)) <= Z.of_nat (List.length data)) as Hhead.
  { unfold data. rewrite length_app. lia. }
  assert (0 < List.length data)%nat as Hsome.
  { pose proof (length_encode e). unfold sizeof_event in *. lia. }
  assert (Z.of_nat (List.length data) <= 4096) as Hfit'
      by now rewrite <- sizeof_buffer_eq.
  assert (4096 <= Z.of_nat (List.length (buffer st))) as Hbuf'
      by now rewrite <- sizeof_buffer_eq.
  assert (16 + Event.len e <= Z.of_nat (List.length data)) as Hwhole'
      by exact Hwhole.
  enough (exists st',
             read os (S (S fuel)) timeout read_delay st = (Done (Some 0), st')
             /\ event_at (buffer st') 0 = e) as (st' & Hrun & H)
      by (rewrite Hrun; split; [reflexivity | exact H]).
  rewrite read_eq. cbn zeta.
  rewrite (refill_data os timeout read_delay (with_call c_now st) data);
    try assumption.
  set (st1 := with_bytes_in_buffer _ _).
  assert (event_at (buffer st1) 0 = e) as Hev.
  { apply holds_event; try assumption; [lia| |lia].
    assert (holds (buffer st1) 0 data) as Hdata.
    { apply store_bytes_holds; [lia|]. cbn [buffer with_call]. lia. }
    unfold data in Hdata. now apply holds_app in Hdata as [H _]. }
  assert (event_wd (buffer st1) 0 = Event.wd e
          /\ event_mask (buffer st1) 0 = Event.mask e
          /\ event_len (buffer st1) 0 = Event.len e) as (Ewd & Emask & Elen).
  { rewrite <- Hev. now repeat split. }
  assert (complete_event st1) as Hc.
  { unfold complete_event, next_cursor.
    change (bytes_handled st1) with (bytes_handled st).
    change (bytes_in_buffer st1) with (Z.of_nat (List.length data)).
    rewrite Hcur, Elen. unfold to_size_t, sizeof_event.
    rewrite Z.mod_small by lia. rewrite to_int_id by lia. lia. }
  destruct (plain_round os fuel st1 watch) as (st2 & Hround & Hsame & _).
  - exact Hc.
  - change (bytes_handled st1) with (bytes_handled st).
    rewrite Hcur, Ewd. exact Hwatch.
  - change (bytes_handled st1) with (bytes_handled st).
    rewrite Hcur, Emask. exact Hann.
  - cbn [drain]. unfold bind at 1. rewrite Hround.
    change (bytes_handled st1) with (bytes_handled st).
    change (mask st1) with (mask st).
    rewrite Hcur, Emask, Hmeet. exists st2. split; [reflexivity|].
    rewrite Hsame. exact Hev.
Qed.

Lemma read_delivers_first_event_witness :
  let st := pending IN_ALL_EVENTS [(1, Watch.mk "/tmp/a" false)] [] in
  let r := read busy_os 2 (-1) 0 st in
  r.1 = Done (Some 0) /\ event_at (buffer r.2) 0 = Event.mk 1 IN_CREATE 0 4 "x".
Proof.
  cbn zeta.
  apply (read_delivers_first_event busy_os 0 (-1) 0
           (pending IN_ALL_EVENTS [(1, Watch.mk "/tmp/a" false)] [])
           (Event.mk 1 IN_CREATE 0 4 "x") [NUL; NUL] (Watch.mk "/tmp/a" false));
    try reflexivity; try (vm_compute; discriminate).
  repeat split; try (vm_compute; discriminate).
  intros [H|[]]. discriminate.
Defined.

(** ** The paths that a descent registers *)

Lemma string_app_assoc a : forall b c, (a +:+ b) +:+ c = a +:+ (b +:+ c).
Proof.
  induction a as [|x a IH]; intros b c; [reflexivity|].
  change ((String x a +:+ b) +:+ c) with (String x ((a +:+ b) +:+ c)).
  change (String x a +:+ (b +:+ c)) with (String x (a +:+ (b +:+ c))).
  now rewrite IH.
Qed.

Lemma starts_with_inv a : forall b, starts_with a b = true -> exists s, b = a +:+ s.
Proof.
  unfold starts_with. induction a as [|x a IH]; intros b H.
  - now exists b.
  - destruct b as [|y b]; [discriminate|]. cbn [String.prefix] in H.
    destruct (ascii_dec x y) as [->|]; [|discriminate].
    destruct (IH b H) as [s ->]. now exists s.
Qed.

Lemma starts_with_trans a b c :
  starts_with a b = true -> starts_with b c = true -> starts_with a c = true.
Proof.
  intros Hab Hbc.
  destruct (starts_with_inv _ _ Hab) as [s ->].
  destruct (starts_with_inv _ _ Hbc) as [t ->].
  rewrite string_app_assoc. apply starts_with_app.
Qed.

Lemma starts_with_path_join p name : starts_with p (path_join p name) = true.
Proof.
  unfold path_join. destruct p as [|x p].
  - unfold starts_with. now destruct name.
  - destruct name as [|c r]; [apply starts_with_refl|].
    destruct (_ || _); apply starts_with_app.
Qed.

Lemma registers_below_weaken p q c :
  starts_with p q = true -> registers_below q c -> registers_below p c.
Proof.
  intros Hpq H p' m E. destruct (H p' m E) as [Hq Hrec].
  split; [now apply starts_with_trans with q | exact Hrec].
Qed.

Lemma registers_below_calls os fuel : forall p in_move st,
  child_names os ->
  recursive_path p = true ->
  calls_between (fun _ => registers_below p) st (add_watch os fuel p in_move st).2.
Proof.
  induction fuel as [|fuel IH]; intros p in_move st Hnames Hrec.
  - apply calls_between_refl.
  - rewrite add_watch_eq. cbn zeta.
    set (R := calls_between (fun _ => registers_below p)).
    assert (R st (with_call (registration st p) st)) as Hreg.
    { apply calls_between_call. intros p' m E. injection E as <- _.
      split; [apply starts_with_refl | exact Hrec]. }
    assert (forall msg st0, R st0 (with_call (c_log msg) st0)) as Hlog.
    { intros msg st0. apply calls_between_call. intros p' m E. discriminate. }
    destruct (_ =? -1).
    { eapply calls_between_trans; [exact Hreg | apply Hlog]. }
    rewrite record_watch_eq. cbn [watches with_call].
    assert (forall st2, R st2 (backfill os fuel p in_move (assigned_wd os st p) st2).2)
      as Hback.
    { intros st2. unfold backfill. destruct in_move.
      - rewrite Hrec. unfold descend.
        apply preserves_for_each;
          [apply calls_between_refl | apply calls_between_trans |].
        intros subdir Hin st0. rewrite descend_step.
        destruct (has_status subdir); [|apply calls_between_refl].
        destruct (directory_entry subdir); [|apply calls_between_refl].
        pose proof (IH (path_join p (d_name subdir)) true st0 Hnames
                      (recursive_path_join _ _ (Hnames _ _ Hin))) as Hsub.
        unfold bind. destruct (add_watch os fuel _ true st0) as [[wd|e|] st3];
          cbn [snd] in *;
          (eapply calls_between_weaken; [|exact Hsub]);
          intros m0 c; apply registers_below_weaken, starts_with_path_join.
      - apply preserves_for_each;
          [apply calls_between_refl | apply calls_between_trans |].
        intros child _. apply synthesize_calls. intros m0 msg p' m E. discriminate. }
    assert (forall f, R st (with_watches f (with_call (registration st p) st)))
      as Hrecord.
    { intros f. eapply calls_between_trans; [exact Hreg|].
      now apply calls_between_quiet. }
    destruct (watches st !! _) as [it|].
    + destruct (is_duplicate _ _ _); [exact Hreg|].
      match goal with |- context [backfill os fuel p in_move ?w ?s] =>
        pose proof (Hback s) as H; destruct (backfill os fuel p in_move w s)
          as [[| |] st3]
      end; cbn [snd] in *;
        (eapply calls_between_trans; [apply Hrecord | exact H]).
    + match goal with |- context [backfill os fuel p in_move ?w ?s] =>
        pose proof (Hback s) as H; destruct (backfill os fuel p in_move w s)
          as [[| |] st3]
      end; cbn [snd] in *;
        (eapply calls_between_trans; [apply Hrecord | exact H]).
Qed.

Lemma enters_below_refl p st : enters_below p st st.
Proof. intros k it H. now left. Qed.

Lemma enters_below_trans p a b c :
  enters_below p a b -> enters_below p b c -> enters_below p a c.
Proof.
  intros Hab Hbc k it H. destruct (Hbc k it H) as [Hb|Hnew]; [|now right].
  now apply Hab.
Qed.

Lemma enters_below_weaken p q a b :
  starts_with p q = true -> enters_below q a b -> enters_below p a b.
Proof.
  intros Hpq H k it Hit. destruct (H k it Hit) as [Hold|[Hq Hrec]]; [now left|].
  right. split; [now apply starts_with_trans with q | exact Hrec].
Qed.

Lemma enters_below_same p a b : watches b = watches a -> enters_below p a b.
Proof. intros E k it H. left. now rewrite <- E. Qed.

Lemma enters_below_insert p wd flag st st1 :
  recursive_path p = true ->
  watches st1 = watches st ->
  enters_below p st (with_watches (insert wd (Watch.mk p flag)) st1).
Proof.
  intros Hrec E k it. cbn [watches with_watches]. rewrite E.
  destruct (decide (wd = k)) as [->|Hne].
  - rewrite lookup_insert_eq. intros [= <-]. right.
    split; [apply starts_with_refl | exact Hrec].
  - rewrite lookup_insert_ne by exact Hne. now left.
Qed.

Lemma add_watch_enters_below os fuel : forall p in_move st,
  child_names os ->
  recursive_path p = true ->
  enters_below p st (add_watch os fuel p in_move st).2.
Proof.
  induction fuel as [|fuel IH]; intros p in_move st Hnames Hrec.
  - apply enters_below_refl.
  - rewrite add_watch_eq. cbn zeta.
    destruct (_ =? -1); [now apply enters_below_same|].
    rewrite record_watch_eq. cbn [watches with_call].
    assert (forall st2,
               enters_below p st2
                 (backfill os fuel p in_move (assigned_wd os st p) st2).2) as Hback.
    { intros st2. unfold backfill. destruct in_move.
      - rewrite Hrec. unfold descend.
        apply preserves_for_each;
          [apply enters_below_refl | apply enters_below_trans |].
        intros subdir Hin st0. rewrite descend_step.
        destruct (has_status subdir); [|apply enters_below_refl].
        destruct (directory_entry subdir); [|apply enters_below_refl].
        pose proof (IH (path_join p (d_name subdir)) true st0 Hnames
                      (recursive_path_join _ _ (Hnames _ _ Hin))) as Hsub.
        unfold bind. destruct (add_watch os fuel _ true st0) as [[wd|e|] st3];
          cbn [snd] in *;
          (eapply enters_below_weaken; [apply starts_with_path_join | exact Hsub]).
      - apply preserves_for_each;
          [apply enters_below_refl | apply enters_below_trans |].
        intros child _ st0. apply enters_below_same.
        apply synthesize_keeps_table. }
    destruct (watches st !! _) as [it|].
    + destruct (is_duplicate _ _ _); [now apply enters_below_same|].
      match goal with |- context [backfill os fuel p in_move ?w ?s] =>
        pose proof (Hback s) as H; destruct (backfill os fuel p in_move w s)
          as [[| |] st3]
      end; cbn [snd] in *;
        (eapply enters_below_trans; [|exact H]); now apply enters_below_insert.
    + match goal with |- context [backfill os fuel p in_move ?w ?s] =>
        pose proof (Hback s) as H; destruct (backfill os fuel p in_move w s)
          as [[| |] st3]
      end; cbn [snd] in *;
        (eapply enters_below_trans; [|exact H]); now apply enters_below_insert.
Qed.

Lemma below_starts_with os p q : below os p q -> starts_with p q = true.
Proof.
  intros H. induction H as [|q subdir _ IH _ _]; [apply starts_with_refl|].
  apply starts_with_trans with q; [exact IH | apply starts_with_path_join].
Qed.



(** ** The priority that the logger hands to syslog *)

Lemma land_primask_idem p :
  Z.land (Z.land p Syslog.LOG_PRIMASK) Syslog.LOG_PRIMASK = Z.land p Syslog.LOG_PRIMASK.
Proof. now rewrite <- Z.land_assoc, Z.land_diag. Qed.

(** The function object [Syslog<Priority>] hands the format on as it is.
    A priority that was given with a level keeps it; a priority whose level
    bits are zero takes the level of [Priority]: the level LOG_EMERG, which
    is zero, cannot be asked for in a call.  The bits above the level (the
    facility) are those of the priority given, never those of [Priority].
    The call without a priority logs at [Priority] itself. *)
Theorem syslog_priority Priority priority format :
  let c := Syslog.call_with Priority priority format in
  Syslog.format c = format
  /\ Syslog.LOG_PRI (Syslog.priority c)
     = (if Syslog.LOG_PRI priority =? 0 then Syslog.LOG_PRI Priority
        else Syslog.LOG_PRI priority)
  /\ Z.shiftr (Syslog.priority c) 3 = Z.shiftr priority 3
  /\ Syslog.call Priority format = Syslog.mk_vsyslog Priority format.
Proof.
  cbn zeta. unfold Syslog.call, Syslog.call_with. cbn [Syslog.format Syslog.priority].
  split; [reflexivity|]. split; [|split].
  - destruct (Z.eqb_spec (Syslog.LOG_PRI priority) 0) as [E|_]; [|reflexivity].
    unfold Syslog.LOG_PRI in *.
    now rewrite Z.land_lor_distr_l, E, land_primask_idem.
  - destruct (Syslog.LOG_PRI priority =? 0); [|reflexivity].
    rewrite Z.shiftr_lor. unfold Syslog.LOG_PRI. rewrite Z.shiftr_land.
    change (Z.shiftr Syslog.LOG_PRIMASK 3) with 0.
    now rewrite Z.land_0_r, Z.lor_0_r.
  - destruct (Z.eqb_spec (Syslog.LOG_PRI Priority) 0) as [E|_]; [|reflexivity].
    now rewrite E, Z.lor_0_r.
Qed.

(** ** The order in which read() handles the pending records *)

Lemma plain_record_round os fuel st :
  plain_record st ->
  handle_event os fuel st
  = (Done (if of_interest st then Some (bytes_handled st) else None), advanced st).
Proof.
  intros (Hc & (watch & Hw & Hann) & Hself & Hign).
  rewrite (quiet_round os fuel st watch Hc Hw Hann Hself). cbn zeta.
  now rewrite Hign.
Qed.

Lemma drain_passes os fuel : forall n st,
  (forall i, (i < n)%nat ->
      plain_record (passed i st)
      /\ of_interest (passed i st) = false
      /\ 0 < bytes_handled (passed (S i) st)) ->
  plain_record (passed n st) ->
  drain os (S (n + fuel)) st
  = (if of_interest (passed n st)
     then (Done (Some (bytes_handled (passed n st))), passed (S n) st)
     else if bytes_handled (passed (S n) st) >? 0
          then drain os fuel (passed (S n) st)
          else (Done None, passed (S n) st)).
Proof.
  induction n as [|n IH]; intros st Hbefore Hlast.
  - cbn [Nat.add drain passed]. unfold bind at 1.
    rewrite plain_record_round by exact Hlast.
    destruct (of_interest st); [reflexivity|].
    unfold bind, get. destruct (bytes_handled (advanced st) >? 0); [|reflexivity].
    destruct fuel; reflexivity.
  - change (S (S n + fuel)) with (S (S (n + fuel))).
    destruct (Hbefore O ltac:(lia)) as (Hplain & Hnot & Hmore).
    cbn [passed] in Hplain, Hnot, Hmore.
    replace (drain os (S (S (n + fuel))) st)
      with (drain os (S (n + fuel)) (advanced st)).
    + rewrite IH; [reflexivity | | exact Hlast].
      intros i Hi. apply (Hbefore (S i)). lia.
    + symmetry. cbn [drain]. unfold bind at 1 2.
      rewrite plain_record_round by exact Hplain. rewrite Hnot.
      unfold get.
      destruct (Z.gtb_spec (bytes_handled (advanced st)) 0) as [_|H]; [|lia].
      reflexivity.
Qed.

Lemma advanced_with_call c st :
  advanced (with_call c st) = with_call c (advanced st).
Proof.
  unfold advanced.
  change (next_cursor (with_call c st)) with (next_cursor st).
  change (bytes_in_buffer (with_call c st)) with (bytes_in_buffer st).
  now destruct (next_cursor st >=? bytes_in_buffer st).
Qed.

Lemma passed_with_call c n : forall st,
  passed n (with_call c st) = with_call c (passed n st).
Proof.
  induction n as [|n IH]; intros st; [reflexivity|].
  cbn [passed]. now rewrite advanced_with_call, IH.
Qed.

(** read() returns the first of the pending records that meets the
    interest mask.  When the [n] records from the cursor on are plain ones
    that the mask does not meet, and the next is a plain one that it meets,
    read() passes the first [n], asks nothing of the kernel but the time,
    and returns the address of the next, leaving the cursor after it (or
    both cursors at zero when it was the last of the buffer). *)
Theorem read_returns_first_of_interest os fuel timeout read_delay n st :
  bytes_in_buffer st <> 0 ->
  (forall i, (i < n)%nat ->
      plain_record (passed i st)
      /\ of_interest (passed i st) = false
      /\ 0 < bytes_handled (passed (S i) st)) ->
  plain_record (passed n st) ->
  of_interest (passed n st) = true ->
  read os (S (S (n + fuel))) timeout read_delay st
  = (Done (Some (bytes_handled (passed n st))),
     with_call c_now (passed (S n) st)).
Proof.
  intros Hdata Hbefore Hlast Hmeet.
  rewrite read_eq. cbn zeta. rewrite refill_pending by exact Hdata.
  rewrite drain_passes.
  - rewrite !passed_with_call.
    change (of_interest (with_call c_now (passed n st)))
      with (of_interest (passed n st)).
    now rewrite Hmeet.
  - intros i Hi. rewrite !passed_with_call. exact (Hbefore i Hi).
  - rewrite passed_with_call. exact Hlast.
Qed.

Lemma read_returns_first_of_interest_witness :
  let st := pending IN_CREATE [(1, Watch.mk "/tmp/a" false)]
              [Event.mk 1 IN_MODIFY 0 4 "f"; Event.mk 1 IN_CREATE 0 4 "g";
               Event.mk 1 IN_CREATE 0 4 "h"] in
  read demo_os 3 0 0 st
  = (Done (Some (bytes_handled (passed 1 st))), with_call c_now (passed 2 st))
  /\ bytes_handled (passed 1 st) = 20
  /\ bytes_handled (passed 2 st) = 40.
Proof.
  cbn zeta. split; [|split; reflexivity].
  apply (read_returns_first_of_interest demo_os 0 0 0 1
           (pending IN_CREATE [(1, Watch.mk "/tmp/a" false)]
              [Event.mk 1 IN_MODIFY 0 4 "f"; Event.mk 1 IN_CREATE 0 4 "g";
               Event.mk 1 IN_CREATE 0 4 "h"])).
  - discriminate.
  - intros i Hi. assert (i = O) as -> by lia.
    split; [|split; reflexivity].
    split; [unfold complete_event; vm_compute; discriminate|].
    split; [|split; reflexivity].
    exists (Watch.mk "/tmp/a" false). split; reflexivity.
  - split; [unfold complete_event; vm_compute; discriminate|].
    split; [|split; reflexivity].
    exists (Watch.mk "/tmp/a" false). split; reflexivity.
  - reflexivity.
Defined.

(** ** The cursors of the buffer *)

Lemma for_each_Done_fold {A} (body : A -> M unit) (I : Inotify -> Prop)
  (l : list A) :
  (forall x st st1, In x l -> I st -> body x st = (Done tt, st1) -> I st1) ->
  forall st st', I st -> for_each l body st = (Done tt, st') -> I st'.
Proof.
  induction l as [|a l IH]; intros Hbody st st' Hst Hrun.
  - injection Hrun as <-. exact Hst.
  - cbn [for_each] in Hrun. unfold bind in Hrun.
    destruct (body a st) as [[[]|e|] st1] eqn:E; try discriminate.
    apply (IH (fun x s s1 Hx => Hbody x s s1 (or_intror Hx)) st1 st');
      [|exact Hrun].
    now apply (Hbody a st st1 (or_introl eq_refl)).
Qed.

Lemma synthesize_Done_bounds wd recursive child st st1 :
  (String.length (d_name child) <= NAME_MAX)%nat ->
  0 <= bytes_in_buffer st <= sizeof_buffer ->
  synthesize wd recursive child st = (Done tt, st1) ->
  bytes_in_buffer st <= bytes_in_buffer st1 <= sizeof_buffer
  /\ bytes_handled st1 = bytes_handled st.
Proof.
  intros Hname Hb Hrun.
  destruct (has_status child) eqn:Hs;
    [|rewrite synthesize_eq, Hs in Hrun; discriminate].
  destruct (reported st recursive child) eqn:Hrep.
  - pose proof (record_size_bounds child Hname) as Hsize.
    unfold sizeof_event in Hsize.
    destruct (Z_le_gt_dec (bytes_in_buffer st + record_size child) sizeof_buffer)
      as [Hfit|Hover].
    + rewrite synthesize_writes in Hrun by (assumption || lia).
      injection Hrun as <-. cbn. lia.
    + rewrite synthesize_overflows in Hrun by (assumption || lia). discriminate.
  - rewrite synthesize_skips in Hrun by assumption.
    injection Hrun as <-. lia.
Qed.

(** The cursors once add_watch() has returned. *)
Lemma add_watch_Done_bounds os fuel p in_move st wd st' :
  short_names os ->
  0 <= bytes_in_buffer st <= sizeof_buffer ->
  add_watch os fuel p in_move st = (Done wd, st') ->
  bytes_in_buffer st <= bytes_in_buffer st' <= sizeof_buffer
  /\ bytes_handled st' = bytes_handled st.
Proof.
  intros Hnames Hb Hrun. destruct in_move.
  - destruct (add_watch_silent_frame os fuel p st) as (_ & E1 & E2).
    rewrite Hrun in E1, E2. cbn [snd] in E1, E2. rewrite E1, E2. lia.
  - destruct fuel as [|fuel]; [discriminate|].
    rewrite add_watch_eq in Hrun. cbn zeta in Hrun.
    destruct (_ =? -1); [injection Hrun as _ <-; cbn; lia|].
    rewrite record_watch_eq in Hrun. cbn [watches with_call] in Hrun.
    assert (forall st2 st3,
               bytes_in_buffer st2 = bytes_in_buffer st ->
               bytes_handled st2 = bytes_handled st ->
               backfill os fuel p false (assigned_wd os st p) st2 = (Done tt, st3) ->
               bytes_in_buffer st <= bytes_in_buffer st3 <= sizeof_buffer
               /\ bytes_handled st3 = bytes_handled st) as Hback.
    { intros st2 st3 E1 E2 Hfill. unfold backfill in Hfill.
      apply (for_each_Done_fold (synthesize (assigned_wd os st p) (recursive_path p))
               (fun s => bytes_in_buffer st <= bytes_in_buffer s <= sizeof_buffer
                         /\ bytes_handled s = bytes_handled st)
               (directory_iterator os p)) with (st := st2); [| |exact Hfill].
      - intros child s s1 Hin [Hs Hh] Hstep.
        assert (0 <= bytes_in_buffer s <= sizeof_buffer) as Hs0 by lia.
        destruct (synthesize_Done_bounds _ _ _ _ _ (Hnames p child Hin) Hs0 Hstep)
          as [H1 H2].
        split; [lia | congruence].
      - rewrite E1, E2. split; [lia | reflexivity]. }
    destruct (watches st !! _) as [it|].
    + destruct (is_duplicate _ _ _); [injection Hrun as _ <-; cbn; lia|].
      destruct (backfill _ _ _ _ _ _) as [[[]| |] st3] eqn:Hfill; try discriminate.
      injection Hrun as _ <-. eapply Hback; [| |exact Hfill]; reflexivity.
    + destruct (backfill _ _ _ _ _ _) as [[[]| |] st3] eqn:Hfill; try discriminate.
      injection Hrun as _ <-. eapply Hback; [| |exact Hfill]; reflexivity.
Qed.

(** When add_watch() returns, whatever it was given, [bytes_in_buffer] has
    not gone back and is within the buffer, and [bytes_handled] is as it
    was: the events that it makes are added after the pending ones and
    never past the end of the buffer. *)
Theorem add_watch_keeps_cursors os fuel p in_move st wd st' :
  short_names os ->
  0 <= bytes_in_buffer st <= sizeof_buffer ->
  add_watch os fuel p in_move st = (Done wd, st') ->
  bytes_in_buffer st <= bytes_in_buffer st' <= sizeof_buffer
  /\ bytes_handled st' = bytes_handled st.
Proof.
  intros Hnames Hb Hrun.
  destruct (add_watch_Done_bounds os fuel p in_move st wd st' Hnames Hb Hrun)
    as [Hfill Hcur].
  split; [exact Hfill | exact Hcur].
Qed.

Lemma demo_os_short_names : short_names demo_os.
Proof.
  intros q child. cbn [directory_iterator demo_os].
  repeat (destruct (_ || _);
          [cbn [In]; intros H;
           repeat (destruct H as [<-|H]; [now apply Nat.leb_le|]); destruct H|]).
  intros [].
Qed.

Lemma add_watch_keeps_cursors_witness :
  let st := Inotify_new IN_ALL_EVENTS zeroed in
  let st' := (add_watch demo_os 1 "/tmp/a" false st).2 in
  bytes_in_buffer st <= bytes_in_buffer st' <= sizeof_buffer
  /\ bytes_handled st' = bytes_handled st.
Proof.
  cbn zeta.
  apply (add_watch_keeps_cursors demo_os 1 "/tmp/a" false
           (Inotify_new IN_ALL_EVENTS zeroed) 1).
  - exact demo_os_short_names.
  - vm_compute. split; discriminate.
  - vm_compute. reflexivity.
Defined.

Lemma on_move_self_same_buffer os off key st :
  same_buffer st (on_move_self os off key st).2.
Proof.
  rewrite on_move_self_eq.
  destruct (watches st !! key) as [watch|]; [|apply same_buffer_refl].
  destruct (has_bits _ _); [|apply same_buffer_refl].
  destruct (Watch.in_move watch); [now repeat split|].
  destruct (ends_with_slash _).
  - rewrite rm_watch_eq. destruct (negb _); now repeat split.
  - destruct (rm_loop os (fun it => starts_with (Watch.path watch) (Watch.path it.2))
                (map_to_list (watches st)) st) as (tr & Hrun & _).
    rewrite Hrun. now repeat split.
Qed.

(** A round of read() keeps the cursors in bounds.  When the cursors are
    in bounds, the buffer is not empty and the cursor moves forward over the
    record (its length field does not make it wrap), a round that ends
    without an exception leaves the cursors in bounds; and when it returns
    an event, the address returned is that of the record at the cursor,
    inside the data of the buffer. *)
Theorem round_keeps_cursors os fuel st r st' :
  short_names os ->
  cursors_in_bounds st ->
  bytes_in_buffer st <> 0 ->
  bytes_handled st < next_cursor st ->
  handle_event os fuel st = (Done r, st') ->
  cursors_in_bounds st'
  /\ forall off, r = Some off ->
       off = bytes_handled st /\ 0 <= off < bytes_in_buffer st.
Proof.
  intros Hnames (Hpos & Hsize & Hcur) Hdata Hmove Hrun.
  assert (bytes_handled st < bytes_in_buffer st) as Hlt by lia.
  split.
  2:{ intros off ->. apply handle_event_outcome in Hrun as [-> _]. lia. }
  destruct (Z_le_gt_dec (next_cursor st) (bytes_in_buffer st)) as [Hc|Hc].
  2:{ rewrite handle_event_incomplete in Hrun by (unfold complete_event; lia).
      discriminate. }
  rewrite handle_event_eq in Hrun by exact Hc. cbn zeta in Hrun.
  destruct (watches st !! _) as [w|] eqn:Hw; [|discriminate].
  assert (cursors_in_bounds (advanced st)) as Hadv.
  { unfold cursors_in_bounds, advanced.
    destruct (Z.geb_spec (next_cursor st) (bytes_in_buffer st)); cbn; lia. }
  set (st0 := advanced st) in *.
  unfold bind at 1 in Hrun.
  destruct (on_new_subdirectory os fuel _ _ st0) as [[[]|e|] st1] eqn:Hnew;
    try discriminate.
  assert (cursors_in_bounds st1) as H1.
  { rewrite on_new_subdirectory_eq in Hnew.
    destruct (watches st0 !! _) as [watch|]; [|now injection Hnew as <-].
    cbn zeta in Hnew.
    destruct (announces_subdirectory _ _); [|now injection Hnew as <-].
    destruct (add_watch os fuel _ _ st0) as [[wd|e|] st2] eqn:Hadd;
      try discriminate.
    destruct Hadv as (A1 & A2 & A3).
    assert (0 <= bytes_in_buffer st0 <= sizeof_buffer) as A0 by lia.
    destruct (add_watch_Done_bounds os fuel _ _ st0 wd st2 Hnames A0 Hadd)
      as [B1 B2].
    assert (cursors_in_bounds st2) as H2 by (unfold cursors_in_bounds; lia).
    destruct (_ && _); [|now injection Hnew as <-].
    destruct (watches st2 !! wd); [|discriminate].
    now injection Hnew as <-. }
  unfold bind at 1 in Hrun.
  pose proof (on_move_self_same_buffer os (bytes_handled st)
                (event_wd (buffer st) (bytes_handled st)) st1) as (_ & E1 & E2).
  destruct (on_move_self os _ _ st1) as [[[]|e|] st2]; try discriminate.
  cbn [snd] in E1, E2.
  unfold bind at 1 in Hrun. rewrite on_ignored_eq in Hrun.
  unfold bind, get, ret in Hrun.
  assert (cursors_in_bounds st2) as H2
      by (unfold cursors_in_bounds in *; rewrite E1, E2; exact H1).
  set (st3 := if has_bits _ IN_IGNORED then _ else st2) in Hrun.
  assert (cursors_in_bounds st3) as H3
      by (unfold st3; now destruct (has_bits _ IN_IGNORED)).
  destruct (has_bits _ (mask st3)); injection Hrun as _ <-; exact H3.
Qed.

Lemma round_keeps_cursors_witness :
  let st := pending IN_ALL_EVENTS [(1, Watch.mk "/tmp/a" false)]
              [Event.mk 1 IN_CREATE 0 4 "f"; Event.mk 1 IN_MODIFY 0 4 "f"] in
  let st' := (handle_event demo_os 1 st).2 in
  cursors_in_bounds st'
  /\ forall off, Some 0 = Some off ->
       off = bytes_handled st /\ 0 <= off < bytes_in_buffer st.
Proof.
  cbn zeta.
  apply (round_keeps_cursors demo_os 1
           (pending IN_ALL_EVENTS [(1, Watch.mk "/tmp/a" false)]
              [Event.mk 1 IN_CREATE 0 4 "f"; Event.mk 1 IN_MODIFY 0 4 "f"])).
  - exact demo_os_short_names.
  - vm_compute. split; [discriminate|]. split; [discriminate|]. now left.
  - discriminate.
  - vm_compute. reflexivity.
  - vm_compute. reflexivity.
Defined.
